(** * tf2pulumi: the NodeJS expression-and-statement compiler

A shallow embedding of [nodejs.go] (schema accessor, HIL expression
walker, property serializer, the emission hooks of the NodeJS
generator) and of [generate.go] (the dependency-ordered statement
emitter), with the properties the specification states about them and
further properties of the code.

Conventions of the embedding.
- Go strings are byte strings: [string].  Texts are taken to be valid
  UTF-8, on which [strings.Map] over ' ', '-' and '.' acts byte by byte.
- A Go function [(string, ast.Type, error)] keeps its three results:
  the embedding returns the triple, with [None] for a [nil] error, so
  that what accompanies an error is visible.
- A run-time panic (nil dereference, index out of range, failed type
  assertion, [contract.Failf]) is the [Panics] outcome.
- The functions of other packages are parameters of the embedding; the
  name translation of [tfbridge], which asserts that a name has no
  doubled underscore, returns or panics.
- Pointers to graph nodes are node identifiers ([nat]); the node a
  pointer designates is read through a store. *)

From Stdlib Require Import ZArith Ascii String List Lia Permutation.
From Stdlib Require Import DecimalString SpecFloat OrdersEx.
From stdpp Require Import base decidable option list sorting gmap strings.

Set Warnings "-register-all".

Local Open Scope string_scope.
Local Open Scope list_scope.

(** ** Text helpers *)

(** The one-character text holding a double quote. *)
Definition dq : string := String "034"%char EmptyString.

(** [fmt.Sprintf] of the pattern that wraps a text in double quotes. *)
Definition quoted (s : string) : string := dq +:+ s +:+ dq.

(** [strings.Join]. *)
Fixpoint Join (elems : list string) (sep : string) : string :=
  match elems with
  | [] => EmptyString
  | [s] => s
  | s :: rest => s +:+ sep +:+ Join rest sep
  end.

(** [strings.Split] for a one-byte separator: the pieces between the
    occurrences of [sep]; never empty (a text without [sep] is its own
    single piece). *)
Fixpoint Split (s : string) (sep : ascii) : list string :=
  match s with
  | EmptyString => [EmptyString]
  | String c rest =>
      if Ascii.eqb c sep then EmptyString :: Split rest sep
      else match Split rest sep with
           | [] => [String c EmptyString]
           | p :: ps => String c p :: ps
           end
  end.

(** [r == ' ' || r == '-' || r == '.'] *)
Definition is_sep_rune (r : ascii) : bool :=
  Ascii.eqb r " "%char || Ascii.eqb r "-"%char || Ascii.eqb r "."%char.

(** [strings.ContainsAny(s, " -.")] *)
Fixpoint ContainsAny_seps (s : string) : bool :=
  match s with
  | EmptyString => false
  | String c rest => is_sep_rune c || ContainsAny_seps rest
  end.

(** [strings.Map] with the anonymous function of [resName] and [tsName]. *)
Fixpoint Map_underscore (s : string) : string :=
  match s with
  | EmptyString => EmptyString
  | String c rest =>
      String (if is_sep_rune c then "_"%char else c) (Map_underscore rest)
  end.

(** Lookup in a Go map held as an association list (first binding wins;
    the keys of a Go map are unique). *)
Fixpoint assoc {A : Type} (k : string) (m : list (string * A)) : option A :=
  match m with
  | [] => None
  | (k', a) :: rest => if String.eqb k k' then Some a else assoc k rest
  end.

(** ** Types of the libraries the code is written against *)

Module ast.

(** [ast.Type] of HIL. *)
Inductive Type_ : Set :=
| TypeInvalid | TypeAny | TypeBool | TypeFloat | TypeInt
| TypeList | TypeMap | TypeString | TypeUnknown.

#[global] Instance Type_eq_dec : EqDecision Type_.
Proof. solve_decision. Defined.

Definition Type_eqb (a b : Type_) : bool := bool_decide (a = b).

(** [ast.ArithmeticOp] *)
Inductive ArithmeticOp : Set :=
| ArithmeticOpInvalid
| ArithmeticOpAdd | ArithmeticOpSub | ArithmeticOpMul | ArithmeticOpDiv
| ArithmeticOpMod | ArithmeticOpLogicalAnd | ArithmeticOpLogicalOr
| ArithmeticOpEqual | ArithmeticOpNotEqual | ArithmeticOpLessThan
| ArithmeticOpLessThanOrEqual | ArithmeticOpGreaterThan
| ArithmeticOpGreaterThanOrEqual.

End ast.

Module schema.

(** [schema.ValueType] *)
Inductive ValueType : Set :=
| TypeInvalid | TypeBool | TypeInt | TypeFloat | TypeString
| TypeList | TypeMap | TypeSet | typeObject.

(** [schema.Schema] and [schema.Resource], with the fields the code
    reads.  [Elem] is an [interface{}]: a [*Schema], a [*Resource], or
    something else (nil included).  [Resource.Schema] is a map that may
    be nil. *)
Inductive Schema : Type :=
| mkSchema (Type_ : ValueType) (Elem : ElemT) (MaxItems : Z)
with ElemT : Type :=
| ElemSchema (s : Schema)
| ElemResource (r : Resource)
| ElemOther
with Resource : Type :=
| mkResource (Schema_ : option (list (string * Schema))).

Definition Type_of (s : Schema) : ValueType :=
  match s with mkSchema t _ _ => t end.
Definition Elem (s : Schema) : ElemT :=
  match s with mkSchema _ e _ => e end.
Definition MaxItems (s : Schema) : Z :=
  match s with mkSchema _ _ m => m end.
Definition Schema_of (r : Resource) : option (list (string * Schema)) :=
  match r with mkResource m => m end.

End schema.

Module tfbridge.

(** [tfbridge.SchemaInfo], with the fields the code reads.  [Fields] is
    a map that may be nil, [Elem] and [MaxItemsOne] are pointers. *)
Inductive SchemaInfo : Type :=
| mkSchemaInfo (Name : string)
               (Fields : option (list (string * SchemaInfo)))
               (Elem : option SchemaInfo)
               (MaxItemsOne : option bool).

Definition Name (i : SchemaInfo) : string :=
  match i with mkSchemaInfo n _ _ _ => n end.
Definition Fields (i : SchemaInfo) : option (list (string * SchemaInfo)) :=
  match i with mkSchemaInfo _ f _ _ => f end.
Definition Elem (i : SchemaInfo) : option SchemaInfo :=
  match i with mkSchemaInfo _ _ e _ => e end.
Definition MaxItemsOne (i : SchemaInfo) : option bool :=
  match i with mkSchemaInfo _ _ _ m => m end.

(** [tfbridge.ResourceInfo]: the token and the field overrides. *)
Record ResourceInfo : Type := mkResourceInfo {
  Tok : string;
  RFields : option (list (string * SchemaInfo))
}.

(** [tfbridge.ProviderInfo]: [P.ResourcesMap] and [Resources]. *)
Record ProviderInfo : Type := mkProviderInfo {
  ResourcesMap : list (string * schema.Resource);
  Resources : list (string * ResourceInfo)
}.

End tfbridge.

(** ** Schema accessor *)

(** [type schemas struct]: three pointers, each of which may be nil. *)
Record schemas : Type := mkSchemas {
  tf : option schema.Schema;
  tfRes : option schema.Resource;
  pulumi : option tfbridge.SchemaInfo
}.

(** The zero value [schemas{}] ([var propSch schemas]). *)
Definition schemas_zero : schemas :=
  {| tf := None; tfRes := None; pulumi := None |}.

(** [func (s schemas) propertySchemas(key string) schemas] *)
Definition propertySchemas (s : schemas) (key : string) : schemas :=
  let propSch_tf :=
    match tfRes s with
    | Some res =>
        match schema.Schema_of res with
        | Some m => assoc key m
        | None => None
        end
    | None => None
    end in
  let propSch_tfRes :=
    match propSch_tf with
    | Some t =>
        match schema.Elem t with
        | schema.ElemResource propResource => Some propResource
        | _ => None
        end
    | None => None
    end in
  let propSch_pulumi :=
    match pulumi s with
    | Some info =>
        match tfbridge.Fields info with
        | Some m => assoc key m
        | None => None
        end
    | None => None
    end in
  {| tf := propSch_tf; tfRes := propSch_tfRes; pulumi := propSch_pulumi |}.

(** [func (s schemas) elemSchemas() schemas] *)
Definition elemSchemas (s : schemas) : schemas :=
  let '(elemSch_tf, elemSch_tfRes) :=
    match tf s with
    | Some t =>
        match schema.Elem t with
        | schema.ElemSchema e => (Some e, None)
        | schema.ElemResource e => (None, Some e)
        | schema.ElemOther => (None, None)
        end
    | None => (None, None)
    end in
  let elemSch_pulumi :=
    match pulumi s with
    | Some info => tfbridge.Elem info
    | None => None
    end in
  {| tf := elemSch_tf; tfRes := elemSch_tfRes; pulumi := elemSch_pulumi |}.

(** [func (s schemas) astType() ast.Type] *)
Definition astType (s : schemas) : ast.Type_ :=
  match tf s with
  | Some t =>
      match schema.Type_of t with
      | schema.TypeBool => ast.TypeBool
      | schema.TypeInt | schema.TypeFloat => ast.TypeFloat
      | schema.TypeString => ast.TypeString
      | schema.TypeList | schema.TypeSet => ast.TypeList
      | schema.TypeMap => ast.TypeMap
      | _ => ast.TypeUnknown
      end
  | None =>
      match tfRes s with
      | Some _ => ast.TypeMap
      | None => ast.TypeUnknown
      end
  end.

(** [func coerceProperty(value string, valueType, propertyType ast.Type) string] *)
Definition coerceProperty (value : string) (valueType propertyType : ast.Type_) : string :=
  if ast.Type_eqb valueType propertyType
     || negb (ast.Type_eqb valueType ast.TypeString)
  then value
  else
    match propertyType with
    | ast.TypeBool =>
        if String.eqb value (quoted "true") then "true"
        else if String.eqb value (quoted "false") then "false"
        else "(" +:+ value +:+ " === " +:+ quoted "true" +:+ ")"
    | ast.TypeInt | ast.TypeFloat =>
        "Number.parseFloat(" +:+ value +:+ ")"
    | _ => value
    end.

(** ** Node identities *)

(** A pointer to a node struct. *)
Definition ptr : Set := nat.

(** A value of the interface [node]: the dynamic type and the pointer.
    Two interface values are the same map key exactly when both agree. *)
Inductive node : Set :=
| VariableNode (p : ptr)
| LocalNode (p : ptr)
| ResourceNode (p : ptr)
| OutputNode (p : ptr)
| ProviderNode (p : ptr).

#[global] Instance node_eq_dec : EqDecision node.
Proof. solve_decision. Defined.

Definition node_code (n : node) : nat * ptr :=
  match n with
  | VariableNode p => (0, p)
  | LocalNode p => (1, p)
  | ResourceNode p => (2, p)
  | OutputNode p => (3, p)
  | ProviderNode p => (4, p)
  end.

Definition node_decode (c : nat * ptr) : node :=
  match c with
  | (0, p) => VariableNode p
  | (1, p) => LocalNode p
  | (2, p) => ResourceNode p
  | (3, p) => OutputNode p
  | (_, p) => ProviderNode p
  end.

#[global] Instance node_countable : Countable node.
Proof.
  apply (inj_countable' node_code node_decode).
  intros []; reflexivity.
Defined.

(** ** Outcomes of a call *)

(** The errors the code creates, one constructor per [errors.New] or
    [errors.Errorf] site, the arguments of the format kept as data. *)
Inductive error : Type :=
| ErrNew (msg : string)                       (* errors.New(msg) *)
| ErrNYICall (func : string)                  (* "NYI: call to %s" *)
| ErrUnexpectedLiteralType (t : ast.Type_)    (* "Unexpected literal type %v" *)
| ErrUnknownResource (id : string)            (* "unknown resource %v" *)
| ErrUnknownVariable (name : string)          (* "unknown variable %s" *)
| ErrUnexpectedVariableType                   (* "unexpected variable type %T" *)
| ErrUnexpectedHILNodeType                    (* "unexpected HIL node type %T" *)
| ErrAtMostOneItem                            (* "expected at most one item in list" *)
| ErrInterpolation (msg : string)             (* from config.NewInterpolatedVariable *)
| ErrUnexpectedNodeType (n : node)            (* "unexpected node type %T" *)
| ErrUnsupportedProviderDependency (d : node) (* "unsupported provider dependency: %v" *)
| ErrUnsatisfiedDependency (d : node)         (* "output has unsatisfied dependency %v" *)
| ErrHook (msg : string).                     (* an error of an emission hook *)

(** A call either returns or panics. *)
Inductive outcome (A : Type) : Type :=
| Returns (a : A)
| Panics (msg : string).
Arguments Returns {A} a.
Arguments Panics {A} msg.

#[global] Instance outcome_ret : MRet outcome := fun A a => Returns a.

#[global] Instance outcome_bind : MBind outcome := fun A B k o =>
  match o with
  | Returns a => k a
  | Panics msg => Panics msg
  end.

(** What [(string, ast.Type, error)] functions return. *)
Definition result : Type := outcome (string * ast.Type_ * option error).

(** The error return of the walker and the serializer: the empty text,
    [ast.TypeInvalid] and the error. *)
Definition fail_with (e : error) : result :=
  Returns (EmptyString, ast.TypeInvalid, Some e).

(** [contract.Failf]: fails fast, it never returns. *)
Definition Failf {A : Type} (msg : string) : outcome A := Panics msg.

(** [xs[i]] on a slice: out of range panics. *)
Definition index {A : Type} (xs : list A) (i : nat) : outcome A :=
  match nth_error xs i with
  | Some x => Returns x
  | None => Panics "runtime error: index out of range"
  end.

(** ** Values and expressions *)

Module reflect.

(** [reflect.Kind] *)
Inductive Kind : Set :=
| Invalid | Bool | Int | Int8 | Int16 | Int32 | Int64
| Uint | Uint8 | Uint16 | Uint32 | Uint64 | Uintptr
| Float32 | Float64 | Complex64 | Complex128
| Array | Chan | Func | Interface | Map | Ptr | Slice | String | Struct
| UnsafePointer.

#[global] Instance Kind_eq_dec : EqDecision Kind.
Proof. solve_decision. Defined.

End reflect.

(** A Go [float64]: an IEEE 754 binary64 number. *)
Definition float64 : Set := spec_float.

(** The [interface{}] held by a literal node: the Go scalars, and any
    other value, of which only what [fmt] prints for it under the verbs
    [v] and [q] matters. *)
Inductive scalar : Type :=
| SBool (b : bool)
| SInt (z : Z)
| SFloat64 (f : float64)
| SString (s : string)
| SOther (text_v text_q : string).

(** [ast.Node]: the HIL expression tree, the seven node types the walker
    knows and any other implementation of the interface. *)
Inductive Node : Type :=
| Arithmetic (Op : ast.ArithmeticOp) (Exprs : list Node)
| Call (Func : string) (Args : list Node)
| Conditional (CondExpr TrueExpr FalseExpr : Node)
| Index (Target Key : Node)
| LiteralNode (Value : scalar) (Typex : ast.Type_)
| Output (Exprs : list Node)
| VariableAccess (Name : string)
| OtherNode.

(** A raw configuration value, an [interface{}]: nil, an [ast.Node], a
    [bool], [int], [float64] or [string], a [[]interface{}], a
    [map[string]interface{}] (an association list: one iteration order of
    the map, keys unique), or a value of any other dynamic type, of which
    the [reflect.Kind] and the texts [fmt] prints are kept. *)
Inductive value : Type :=
| VNil
| VNode (n : Node)
| VBool (b : bool)
| VInt (z : Z)
| VFloat64 (f : float64)
| VString (s : string)
| VSlice (s : list value)
| VMap (m : list (string * value))
| VOther (k : reflect.Kind) (text_v text_q : string).

(** [reflect.ValueOf(v).Kind()] *)
Definition KindOf (v : value) : reflect.Kind :=
  match v with
  | VNil => reflect.Invalid
  | VNode _ => reflect.Ptr
  | VBool _ => reflect.Bool
  | VInt _ => reflect.Int
  | VFloat64 _ => reflect.Float64
  | VString _ => reflect.String
  | VSlice _ => reflect.Slice
  | VMap _ => reflect.Map
  | VOther k _ _ => k
  end.

(** [_, ok := v.(ast.Node)] *)
Definition is_ast_node (v : value) : bool :=
  match v with VNode _ => true | _ => false end.

(** [config.InterpolatedVariable]: what [config.NewInterpolatedVariable]
    parses a variable name into. *)
Record ResourceVariable : Type := mkResourceVariable {
  rv_Data : bool;       (* Mode is DataResourceMode *)
  rv_Type : string;
  rv_Name : string;
  rv_Field : string;
  rv_Multi : bool;
  rv_Index : Z
}.

Record UserVariable : Type := mkUserVariable {
  uv_Name : string;
  uv_Elem : string
}.

Inductive InterpolatedVariable : Type :=
| CountVariable
| LocalVariable
| ModuleVariable
| PathVariable
| ResourceVariable_ (v : ResourceVariable)
| SelfVariable
| SimpleVariable
| TerraformVariable
| UserVariable_ (v : UserVariable)
| OtherVariable.

(** The functions of other packages the code calls and whose results it
    only passes on. *)
Record Externals : Type := mkExternals {
  (** [tfbridge.TerraformToPulumiName(name, sch, upper)]: the translated
      name; the function asserts that the name has no doubled underscore,
      and panics when it has one *)
  TerraformToPulumiName : string -> option schema.Schema -> bool -> outcome string;
  (** [tfbridge.IsMaxItemsOne(tfs, info)] *)
  IsMaxItemsOne : option schema.Schema -> option tfbridge.SchemaInfo -> bool;
  (** [config.NewInterpolatedVariable(name)]: a variable or an error text *)
  NewInterpolatedVariable : string -> InterpolatedVariable + string;
  (** the method [ResourceId()] of [config.ResourceVariable] *)
  ResourceId : ResourceVariable -> string;
  (** [strconv.Quote], what the verb [q] prints for a string *)
  Quote : string -> string;
  (** [strconv.QuoteRune], what the verb [q] prints for an integer *)
  QuoteRune : Z -> string;
  (** what the verb [v] prints for a [float64] *)
  FormatFloat : float64 -> string
}.

(** [fmt.Sprintf] of the verb [v], for the values the code prints. *)
Definition Sprint_bool (b : bool) : string := if b then "true" else "false".
Definition Sprint_int (z : Z) : string := NilZero.string_of_int (Z.to_int z).

(** ** The node graph *)

(** Modelled from the spec: the node structs are declared by the graph
    builder, which is not part of the sources; the fields are those the
    code reads (section 3, Node Graph, and section 6). *)
Record providerNode : Type := mkProviderNode {
  p_Name : string;                          (* config.Name *)
  p_deps : list node;
  info : option tfbridge.ProviderInfo
}.

(** Modelled from the spec: a variable node, with its optional default. *)
Record variableNode : Type := mkVariableNode {
  v_Name : string;                          (* config.Name *)
  defaultValue : value                      (* nil when there is none *)
}.

(** Modelled from the spec: a local node, with its value expression. *)
Record localNode : Type := mkLocalNode {
  l_deps : list node;
  l_value : value
}.

(** Modelled from the spec: a resource node, with its type tag, name,
    provider, dependencies, explicit extra dependencies and property
    payload. *)
Record resourceNode : Type := mkResourceNode {
  r_Type : string;                          (* config.Type *)
  r_Name : string;                          (* config.Name *)
  provider : providerNode;
  r_deps : list node;
  explicitDeps : list node;
  properties : value
}.

(** Modelled from the spec: an output node, with its value. *)
Record outputNode : Type := mkOutputNode {
  o_Name : string;                          (* config.Name *)
  o_deps : list node;
  o_value : value
}.

(** Modelled from the spec: [type graph struct] is declared by the graph
    builder.  The emitter ranges over the five collections; the walker
    looks resources and variables up by key.  Each collection is kept in
    the order the run ranges over it, resources and variables with their
    keys.  The node structs are read through the store. *)
Record graph : Type := mkGraph {
  providers : list ptr;
  variables : list (string * ptr);
  locals : list ptr;
  resources : list (string * ptr);
  outputs : list ptr;
  provider_at : ptr -> providerNode;
  variable_at : ptr -> variableNode;
  local_at : ptr -> localNode;
  resource_at : ptr -> resourceNode;
  output_at : ptr -> outputNode
}.

(** Modelled from the spec: the method [dependencies()] of the interface
    [node] is implemented by the graph builder: every node exposes its
    direct dependency set, variables being sources. *)
Definition dependencies (gr : graph) (n : node) : list node :=
  match n with
  | VariableNode _ => []
  | LocalNode p => l_deps (local_at gr p)
  | ResourceNode p => r_deps (resource_at gr p)
  | OutputNode p => o_deps (output_at gr p)
  | ProviderNode p => p_deps (provider_at gr p)
  end.

(** [type nodeGenerator struct]; [graph] is nil until the preamble
    stashes it. *)
Record nodeGenerator : Type := mkNodeGenerator {
  projectName : string;
  graph_ : option graph
}.

(** Dereferencing [g.graph]. *)
Definition the_graph (g : nodeGenerator) : outcome graph :=
  match graph_ g with
  | Some gr => Returns gr
  | None => Panics "runtime error: invalid memory address or nil pointer dereference"
  end.

(** [func resName(typ, name string) string] *)
Definition resName (typ name : string) : string :=
  let n := typ +:+ "_" +:+ name in
  if ContainsAny_seps n then Map_underscore n else n.

(** [schemaInfo != nil && schemaInfo.Name != EmptyString]: the explicit
    name of a target override, when it supplies one. *)
Definition explicit_name (schemaInfo : option tfbridge.SchemaInfo) : option string :=
  match schemaInfo with
  | Some i =>
      if String.eqb (tfbridge.Name i) EmptyString then None
      else Some (tfbridge.Name i)
  | None => None
  end.

(** [func tsName(tfName, tfSchema, schemaInfo, isObjectKey) string]; it
    panics when the translation it ends in does. *)
Definition tsName (X : Externals) (tfName : string)
    (tfSchema : option schema.Schema) (schemaInfo : option tfbridge.SchemaInfo)
    (isObjectKey : bool) : outcome string :=
  match explicit_name schemaInfo with
  | Some name => Returns name
  | None =>
      if ContainsAny_seps tfName then
        Returns (if isObjectKey then quoted tfName else Map_underscore tfName)
      else TerraformToPulumiName X tfName tfSchema false
  end.

(** ** Expression compiler: [nodeHILWalker] *)

Section Walker.

Variable X : Externals.
Variable g : nodeGenerator.

(** [fmt.Sprintf] of the verbs [v] and [q] on a literal's value. *)
Definition Sprintf_v (x : scalar) : string :=
  match x with
  | SBool b => Sprint_bool b
  | SInt z => Sprint_int z
  | SFloat64 f => FormatFloat X f
  | SString s => s
  | SOther text_v _ => text_v
  end.

Definition Sprintf_q (x : scalar) : string :=
  match x with
  | SBool b => "%!q(bool=" +:+ Sprint_bool b +:+ ")"
  | SInt z => QuoteRune X z
  | SFloat64 f => "%!q(float64=" +:+ FormatFloat X f +:+ ")"
  | SString s => Quote X s
  | SOther _ text_q => text_q
  end.

(** The operator table of [walkArithmetic]. *)
Definition op_token (Op : ast.ArithmeticOp) : string :=
  match Op with
  | ast.ArithmeticOpAdd => "+"
  | ast.ArithmeticOpSub => "-"
  | ast.ArithmeticOpMul => "*"
  | ast.ArithmeticOpDiv => "/"
  | ast.ArithmeticOpMod => "%"
  | ast.ArithmeticOpLogicalAnd => "&&"
  | ast.ArithmeticOpLogicalOr => "||"
  | ast.ArithmeticOpEqual => "==="
  | ast.ArithmeticOpNotEqual => "!=="
  | ast.ArithmeticOpLessThan => "<"
  | ast.ArithmeticOpLessThanOrEqual => "<="
  | ast.ArithmeticOpGreaterThan => ">"
  | ast.ArithmeticOpGreaterThanOrEqual => ">="
  | ast.ArithmeticOpInvalid => EmptyString
  end.

(** The loop of [walkVariableAccess] over the elements of the field
    path: the translated elements and the schemas the walk ends in,
    unless the translation of an element panics. *)
Fixpoint walk_elements (sch : schemas) (elements : list string)
  : outcome (list string * schemas) :=
  match elements with
  | [] => Returns ([], sch)
  | e :: rest =>
      let sch1 := propertySchemas sch e in
      name ← TerraformToPulumiName X e (tf sch1) false;
      '(out, schN) ← walk_elements sch1 rest;
      Returns (name :: out, schN)
  end.

(** The schemas [walkVariableAccess] and [generateResource] start from:
    zero without provider information; with it, [resInfo.Fields]
    dereferences the entry of [Resources], nil when there is none. *)
Definition resource_schemas (r : resourceNode) (typ : string) : outcome schemas :=
  match info (provider r) with
  | None => Returns schemas_zero
  | Some pinfo =>
      match assoc typ (tfbridge.Resources pinfo) with
      | None => Panics "runtime error: invalid memory address or nil pointer dereference"
      | Some resInfo =>
          Returns {| tf := None;
                     tfRes := assoc typ (tfbridge.ResourcesMap pinfo);
                     pulumi := Some (tfbridge.mkSchemaInfo EmptyString
                                       (tfbridge.RFields resInfo) None None) |}
      end
  end.

(** [func (w *nodeHILWalker) walkVariableAccess(n *ast.VariableAccess)] *)
Definition walkVariableAccess (Name : string) : result :=
  match NewInterpolatedVariable X Name with
  | inr msg => fail_with (ErrInterpolation msg)
  | inl tfVar =>
      match tfVar with
      | CountVariable => fail_with (ErrNew "NYI: count variables")
      | LocalVariable => fail_with (ErrNew "NYI: local variables")
      | ModuleVariable => fail_with (ErrNew "NYI: module variables")
      | PathVariable => fail_with (ErrNew "NYI: path variables")
      | ResourceVariable_ v =>
          if rv_Multi v then fail_with (ErrNew "NYI: multi-resource variables")
          else
            gr ← the_graph g;
            match assoc (ResourceId X v) (resources gr) with
            | None => fail_with (ErrUnknownResource (ResourceId X v))
            | Some rp =>
                let r := resource_at gr rp in
                sch ← resource_schemas r (rv_Type v);
                '(elements, sch') ←
                  walk_elements sch (Split (rv_Field v) "."%char);
                Returns (resName (rv_Type v) (rv_Name v) +:+ "." +:+ Join elements ".",
                         astType sch', None)
            end
      | SelfVariable => fail_with (ErrNew "NYI: self variables")
      | SimpleVariable => fail_with (ErrNew "NYI: simple variables")
      | TerraformVariable => fail_with (ErrNew "NYI: terraform variables")
      | UserVariable_ v =>
          if negb (String.eqb (uv_Elem v) EmptyString)
          then fail_with (ErrNew "NYI: user variable elements")
          else
            gr ← the_graph g;
            match assoc (uv_Name v) (variables gr) with
            | None => fail_with (ErrUnknownVariable (uv_Name v))
            | Some vp =>
                let vn := variable_at gr vp in
                let typ :=
                  match defaultValue vn with
                  | VNil => ast.TypeString
                  | VString _ => ast.TypeString
                  | _ => ast.TypeUnknown
                  end in
                name ← TerraformToPulumiName X (uv_Name v) None false;
                Returns (name, typ, None)
            end
      | OtherVariable => fail_with ErrUnexpectedVariableType
      end
  end.

(** [func (w *nodeHILWalker) walkLiteral(n *ast.LiteralNode)] *)
Definition walkLiteral (Value : scalar) (Typex : ast.Type_) : result :=
  match Typex with
  | ast.TypeBool | ast.TypeInt | ast.TypeFloat =>
      Returns (Sprintf_v Value, Typex, None)
  | ast.TypeString =>
      Returns (Sprintf_q Value, Typex, None)
  | _ => fail_with (ErrUnexpectedLiteralType Typex)
  end.

Section Recursive.

(** The method the cases below call back into. *)
Variable walkNode : Node -> result.

(** [func (w *nodeHILWalker) walkNodes(ns []ast.Node)] *)
Fixpoint walkNodes (ns : list Node)
  : outcome (list string * list ast.Type_ * option error) :=
  match ns with
  | [] => Returns ([], [], None)
  | n :: rest =>
      '(s, t, err) ← walkNode n;
      match err with
      | Some e => Returns ([], [], Some e)
      | None =>
          '(strs, typs, err') ← walkNodes rest;
          match err' with
          | Some e => Returns ([], [], Some e)
          | None => Returns (s :: strs, t :: typs, None)
          end
      end
  end.

(** [func (w *nodeHILWalker) walkArithmetic(n *ast.Arithmetic)] *)
Definition walkArithmetic (Op : ast.ArithmeticOp) (Exprs : list Node) : result :=
  '(strs, _, err) ← walkNodes Exprs;
  match err with
  | Some e => fail_with e
  | None =>
      let op := op_token Op in
      Returns ("(" +:+ Join strs (" " +:+ op +:+ " ") +:+ ")", ast.TypeFloat, None)
  end.

(** [func (w *nodeHILWalker) walkCall(n *ast.Call)] *)
Definition walkCall (Func : string) (Args : list Node) : result :=
  '(strs, _, err) ← walkNodes Args;
  match err with
  | Some e => fail_with e
  | None =>
      if String.eqb Func "file" then
        s0 ← index strs 0;
        Returns ("fs.readFileSync(" +:+ s0 +:+ ", " +:+ quoted "utf-8" +:+ ")",
                 ast.TypeString, None)
      else if String.eqb Func "lookup" then
        s0 ← index strs 0;
        s1 ← index strs 1;
        let lookup := "(<any>" +:+ s0 +:+ ")[" +:+ s1 +:+ "]" in
        if Nat.eqb (length strs) 3 then
          s2 ← index strs 2;
          Returns (lookup +:+ " || " +:+ s2, ast.TypeUnknown, None)
        else Returns (lookup, ast.TypeUnknown, None)
      else if String.eqb Func "split" then
        s1 ← index strs 1;
        s0 ← index strs 0;
        Returns (s1 +:+ ".split(" +:+ s0 +:+ ")", ast.TypeList, None)
      else fail_with (ErrNYICall Func)
  end.

(** [func (w *nodeHILWalker) walkConditional(n *ast.Conditional)] *)
Definition walkConditional (CondExpr TrueExpr FalseExpr : Node) : result :=
  '(cond, _, err) ← walkNode CondExpr;
  match err with
  | Some e => fail_with e
  | None =>
      '(t, ttyp, err) ← walkNode TrueExpr;
      match err with
      | Some e => fail_with e
      | None =>
          '(f, ftyp, err) ← walkNode FalseExpr;
          match err with
          | Some e => fail_with e
          | None =>
              let typ := if ast.Type_eqb ttyp ast.TypeUnknown then ftyp else ttyp in
              Returns ("(" +:+ cond +:+ " ? " +:+ t +:+ " : " +:+ f +:+ ")", typ, None)
          end
      end
  end.

(** [func (w *nodeHILWalker) walkIndex(n *ast.Index)] *)
Definition walkIndex (Target Key : Node) : result :=
  '(target, _, err) ← walkNode Target;
  match err with
  | Some e => fail_with e
  | None =>
      '(key, _, err) ← walkNode Key;
      match err with
      | Some e => fail_with e
      | None => Returns (target +:+ "[" +:+ key +:+ "]", ast.TypeUnknown, None)
      end
  end.

(** [func (w *nodeHILWalker) walkOutput(n *ast.Output)] *)
Definition walkOutput (Exprs : list Node) : result :=
  '(strs, typs, err) ← walkNodes Exprs;
  match err with
  | Some e => fail_with e
  | None =>
      let typ := match typs with [t] => t | _ => ast.TypeString end in
      Returns (Join strs EmptyString, typ, None)
  end.

End Recursive.

(** [func (w *nodeHILWalker) walkNode(n ast.Node)] *)
Fixpoint walkNode (n : Node) : result :=
  match n with
  | Arithmetic Op Exprs => walkArithmetic walkNode Op Exprs
  | Call Func Args => walkCall walkNode Func Args
  | Conditional c t f => walkConditional walkNode c t f
  | Index Target Key => walkIndex walkNode Target Key
  | LiteralNode Value Typex => walkLiteral Value Typex
  | Output Exprs => walkOutput walkNode Exprs
  | VariableAccess Name => walkVariableAccess Name
  | OtherNode => fail_with ErrUnexpectedHILNodeType
  end.

(** [func (g *nodeGenerator) computeHILProperty(n ast.Node)] *)
Definition computeHILProperty (n : Node) : result := walkNode n.

End Walker.

(** ** Value serializer *)

(** The order of Go's [<] on strings: byte-wise lexicographic. *)
Definition string_le (s1 s2 : string) : Prop := String.leb s1 s2 = true.

#[global] Instance string_le_dec : RelDecision string_le.
Proof. intros s1 s2. unfold string_le. apply _. Defined.

(** Modelled from the spec: [sortedKeys] is a helper of the repository
    that is not part of the sources; it yields the keys of the mapping in
    sorted order (section 4.3: sort keys before emission). *)
Definition sortedKeys {A : Type} (m : list (string * A)) : list string :=
  merge_sort string_le (map fst m).

(** The line feed. *)
Definition nl : string := String "010"%char EmptyString.

(** What [computeProperty] does on a nil interface: [reflect.ValueOf]
    yields the zero [Value], whose [Kind()] is [Invalid], and the call
    [refV.Type()] in the arguments of [contract.Failf] panics. *)
Definition zero_Value_Type_panic : string :=
  "reflect: call of reflect.Value.Type on zero Value".

Section Serializer.

Variable X : Externals.
Variable g : nodeGenerator.

Section Recursive.

(** The method the two collection cases call back into. *)
Variable computeProperty : value -> string -> schemas -> result.

(** The loop of [computeSliceProperty], [buf] being what was written
    so far; at the end of the slice it closes the literal. *)
Fixpoint slice_elements (s : list value) (indent : string) (elemSch : schemas)
    (buf : string) : result :=
  match s with
  | [] => Returns (buf +:+ nl +:+ indent +:+ "]", ast.TypeList, None)
  | v :: rest =>
      let elemIndent := indent +:+ "    " in
      '(elem, elemTyp, err) ← computeProperty v elemIndent elemSch;
      match err with
      | Some e => fail_with e
      | None =>
          let elem :=
            if ast.Type_eqb elemTyp ast.TypeList then "..." +:+ elem else elem in
          slice_elements rest indent elemSch
            (buf +:+ nl +:+ elemIndent
                 +:+ coerceProperty elem elemTyp (astType elemSch) +:+ ",")
      end
  end.

(** [func (g *nodeGenerator) computeSliceProperty(s, indent, sch)] *)
Definition computeSliceProperty (s : list value) (indent : string) (sch : schemas)
  : result :=
  let elemSch := elemSchemas sch in
  if IsMaxItemsOne X (tf sch) (pulumi sch) then
    match s with
    | [] => Returns ("undefined", ast.TypeUnknown, None)
    | [v] => computeProperty v indent elemSch
    | _ => fail_with ErrAtMostOneItem
    end
  else slice_elements s indent elemSch "[".

(** [v := m[k]] followed by [g.computeProperty(v, propIndent, propSch)];
    a key without entry reads as the nil interface. *)
Fixpoint property_at (m : list (string * value)) (k : string)
    (propIndent : string) (propSch : schemas) : result :=
  match m with
  | [] => Panics zero_Value_Type_panic
  | (k', v) :: rest =>
      if String.eqb k k' then computeProperty v propIndent propSch
      else property_at rest k propIndent propSch
  end.

(** The loop of [computeMapProperty] over the sorted keys. *)
Fixpoint map_properties (m : list (string * value)) (keys : list string)
    (indent : string) (sch : schemas) (buf : string) : result :=
  match keys with
  | [] => Returns (buf +:+ nl +:+ indent +:+ "}", ast.TypeMap, None)
  | k :: rest =>
      let propSch := propertySchemas sch k in
      let propIndent := indent +:+ "    " in
      '(prop, propTyp, err) ← property_at m k propIndent propSch;
      match err with
      | Some e => fail_with e
      | None =>
          let prop := coerceProperty prop propTyp (astType propSch) in
          name ← tsName X k (tf propSch) (pulumi propSch) true;
          map_properties m rest indent sch
            (buf +:+ nl +:+ propIndent +:+ name +:+ ": " +:+ prop +:+ ",")
      end
  end.

(** [func (g *nodeGenerator) computeMapProperty(m, indent, sch)] *)
Definition computeMapProperty (m : list (string * value)) (indent : string)
    (sch : schemas) : result :=
  map_properties m (sortedKeys m) indent sch "{".

End Recursive.

(** [func (g *nodeGenerator) computeProperty(v, indent, sch)].  A value
    of another dynamic type takes the branch of its kind; in the slice
    and map branches the type assertion then panics. *)
Fixpoint computeProperty (v : value) (indent : string) (sch : schemas) : result :=
  match v with
  | VNode node => computeHILProperty X g node
  | VBool b => Returns (Sprint_bool b, ast.TypeBool, None)
  | VInt z => Returns (Sprint_int z, ast.TypeFloat, None)
  | VFloat64 f => Returns (FormatFloat X f, ast.TypeFloat, None)
  | VString s => Returns (Quote X s, ast.TypeString, None)
  | VSlice s => computeSliceProperty computeProperty s indent sch
  | VMap m => computeMapProperty computeProperty m indent sch
  | VNil => Panics zero_Value_Type_panic
  | VOther k text_v text_q =>
      match k with
      | reflect.Bool => Returns (text_v, ast.TypeBool, None)
      | reflect.Int | reflect.Float64 => Returns (text_v, ast.TypeFloat, None)
      | reflect.String => Returns (text_q, ast.TypeString, None)
      | reflect.Slice =>
          Panics "interface conversion: interface {} is not []interface {}"
      | reflect.Map =>
          Panics "interface conversion: interface {} is not map[string]interface {}"
      | _ =>
          _ ← Failf (A := unit) "unexpected property type";
          fail_with (ErrNew "unexpected property type")
      end
  end.

End Serializer.

(** ** Statement emitter: [generate.go] *)

(** A call of a method of the interface [generator], as the emitter makes
    them. *)
Inductive event : Type :=
| EvPreamble
| EvVariables (vs : list ptr)
| EvLocal (l : ptr)
| EvResource (r : ptr)
| EvOutputs (os : list ptr).

#[global] Instance event_eq_dec : EqDecision event.
Proof. solve_decision. Defined.

(** What a method of the interface [generator] does: it returns nil or an
    error, or it panics. *)
Inductive hook_result : Type :=
| hook_nil
| hook_error (e : error)
| hook_panic (msg : string).

(** [type generator interface]: the five emission hooks.  A hook acts on
    the state [W] of the target of the emission (the output written so
    far) and reads the graph. *)
Class generator (W : Type) : Type := mkGenerator {
  generatePreamble : graph -> W -> W * hook_result;
  generateVariables : graph -> list ptr -> W -> W * hook_result;
  generateLocal : graph -> ptr -> W -> W * hook_result;
  generateResource : graph -> ptr -> W -> W * hook_result;
  generateOutputs : graph -> list ptr -> W -> W * hook_result
}.

(** The state of a run of [generate]: the state of the hooks, the calls
    made to them so far (oldest first; kept to state the order of
    emission), and the map [done]. *)
Record emitter (W : Type) : Type := mkEmitter {
  world : W;
  log : list event;
  done : gset node
}.
Arguments mkEmitter {W} world log done.
Arguments world {W} e.
Arguments log {W} e.
Arguments done {W} e.

(** How a step of the emitter ends: it goes on, [generate] returns an
    error, the process panics, or the recursion is cut off by the fuel. *)
Inductive run (A : Type) : Type :=
| Done (a : A)
| Failed (e : error)
| Panicked (msg : string)
| OutOfFuel.
Arguments Done {A} a.
Arguments Failed {A} e.
Arguments Panicked {A} msg.
Arguments OutOfFuel {A}.

(** A step of the emitter. *)
Definition emit (W A : Type) : Type := emitter W -> emitter W * run A.

Definition emit_ret {W A : Type} (a : A) : emit W A := fun s => (s, Done a).

(** Sequencing: [if err := step; err != nil { return err }]. *)
Definition emit_bind {W A B : Type} (c : emit W A) (k : A -> emit W B) : emit W B :=
  fun s =>
    match c s with
    | (s', Done a) => k a s'
    | (s', Failed e) => (s', Failed e)
    | (s', Panicked msg) => (s', Panicked msg)
    | (s', OutOfFuel) => (s', OutOfFuel)
    end.

(** [return err] *)
Definition emit_fail {W A : Type} (e : error) : emit W A := fun s => (s, Failed e).

Notation "c1 ;;; c2" := (emit_bind c1 (fun _ => c2))
  (at level 100, c2 at level 200, right associativity).

(** [for _, x := range xs { if err := body(x); err != nil { return err } }] *)
Fixpoint for_each {W A : Type} (body : A -> emit W unit) (xs : list A) : emit W unit :=
  match xs with
  | [] => emit_ret tt
  | x :: rest => body x ;;; for_each body rest
  end.

(** The type test of [d] against a pointer to [variableNode]. *)
Definition is_variableNode (d : node) : bool :=
  match d with VariableNode _ => true | _ => false end.

Section Emitter.

Context {W : Type} {lang : generator W}.
Variable gr : graph.

(** A call of a hook: the call is logged, the hook acts on its state. *)
Definition call (ev : event) (hook : W -> W * hook_result) : emit W unit :=
  fun s =>
    let '(w, r) := hook (world s) in
    let s' := mkEmitter w (log s ++ [ev]) (done s) in
    match r with
    | hook_nil => (s', Done tt)
    | hook_error e => (s', Failed e)
    | hook_panic msg => (s', Panicked msg)
    end.

(** [done[n] = struct{}{}] *)
Definition mark_done (n : node) : emit W unit :=
  fun s => (mkEmitter (world s) (log s) ({[ n ]} ∪ done s), Done tt).

(** [func generateNode(n node, lang generator, done map[node]struct{}) error].
    The recursion of the source is not bounded; [fuel] bounds its depth. *)
Fixpoint generateNode (fuel : nat) (n : node) : emit W unit :=
  match fuel with
  | O => fun s => (s, OutOfFuel)
  | S fuel' =>
      fun s =>
        if decide (n ∈ done s) then (s, Done tt)
        else
          (for_each (generateNode fuel') (dependencies gr n) ;;;
           match n with
           | LocalNode l => call (EvLocal l) (generateLocal gr l)
           | ResourceNode r => call (EvResource r) (generateResource gr r)
           | _ => emit_fail (ErrUnexpectedNodeType n)
           end ;;;
           mark_done n) s
  end.

(** The first loop of [generate]: providers may depend on variables only. *)
Definition check_providers : emit W unit :=
  for_each (fun p =>
    for_each (fun d =>
      if is_variableNode d then emit_ret tt
      else emit_fail (ErrUnsupportedProviderDependency d))
      (p_deps (provider_at gr p)))
    (providers gr).

(** [done := make(map[node]struct{})] and the loop marking the variables. *)
Definition mark_variables : emit W unit :=
  fun s =>
    (mkEmitter (world s) (log s)
       (list_to_set (VariableNode <$> (variables gr).*2)), Done tt).

(** The loops over [g.locals] and [g.resources]: a node without
    dependencies is generated at once, the others are appended to
    [todo]. *)
Fixpoint generate_locals (fuel : nat) (ls : list ptr) (todo : list node)
  : emit W (list node) :=
  match ls with
  | [] => emit_ret todo
  | l :: rest =>
      if Nat.eqb (length (l_deps (local_at gr l))) 0 then
        generateNode fuel (LocalNode l) ;;; generate_locals fuel rest todo
      else generate_locals fuel rest (todo ++ [LocalNode l])
  end.

Fixpoint generate_resources (fuel : nat) (rs : list ptr) (todo : list node)
  : emit W (list node) :=
  match rs with
  | [] => emit_ret todo
  | r :: rest =>
      if Nat.eqb (length (r_deps (resource_at gr r))) 0 then
        generateNode fuel (ResourceNode r) ;;; generate_resources fuel rest todo
      else generate_resources fuel rest (todo ++ [ResourceNode r])
  end.

(** The loop over the outputs: every dependency must be in [done]. *)
Definition check_outputs : emit W unit :=
  for_each (fun o =>
    for_each (fun d =>
      fun s =>
        if decide (d ∈ done s) then (s, Done tt)
        else (s, Failed (ErrUnsatisfiedDependency d)))
      (o_deps (output_at gr o)))
    (outputs gr).

(** [generate] up to the emission of the locals and resources. *)
Definition generate_nodes (fuel : nat) : emit W unit :=
  check_providers ;;;
  call EvPreamble (generatePreamble gr) ;;;
  call (EvVariables (variables gr).*2) (generateVariables gr (variables gr).*2) ;;;
  mark_variables ;;;
  emit_bind (generate_locals fuel (locals gr) []) (fun todo =>
  emit_bind (generate_resources fuel (resources gr).*2 todo) (fun todo =>
  for_each (generateNode fuel) todo)).

(** [func generate(g *graph, lang generator) error] *)
Definition generate (fuel : nat) : emit W unit :=
  generate_nodes fuel ;;;
  check_outputs ;;;
  call (EvOutputs (outputs gr)) (generateOutputs gr (outputs gr)).

End Emitter.

(** The state [generate] starts in. *)
Definition start {W : Type} (w : W) : emitter W := mkEmitter w [] ∅.

(** ** The order of emission

    What the properties of the emitter are stated with. *)

(** The call that emits a node: a local or a resource has a hook of its
    own. *)
Definition hook_event (n : node) : option event :=
  match n with
  | LocalNode l => Some (EvLocal l)
  | ResourceNode r => Some (EvResource r)
  | _ => None
  end.

(** The hook of the kind of [d] has been called for [d] within the calls
    [l]: for a variable, the variables hook with a list that holds it. *)
Definition emitted_in (l : list event) (d : node) : Prop :=
  match d with
  | VariableNode v => exists vs, EvVariables vs ∈ l /\ v ∈ vs
  | LocalNode p => EvLocal p ∈ l
  | ResourceNode p => EvResource p ∈ l
  | _ => False
  end.








(** No call of the outputs hook. *)
Definition no_outputs (l : list event) : Prop :=
  forall os, EvOutputs os ∉ l.

(** ** One value in two iteration orders

    A Go map has no iteration order of its own: the association lists
    that hold the same entries in any two orders are the same map, at
    any depth of a value. *)
Inductive same_value : value -> value -> Prop :=
| same_value_refl v : same_value v v
| same_value_slice s1 s2 :
    Forall2 same_value s1 s2 -> same_value (VSlice s1) (VSlice s2)
| same_value_map m1 m' m2 :
    NoDup m1.*1 ->
    Forall2 (fun kv1 kv2 => kv1.1 = kv2.1 /\ same_value kv1.2 kv2.2) m1 m' ->
    m' ≡ₚ m2 ->
    same_value (VMap m1) (VMap m2).

(** ** What the properties are stated with *)

(** What an error comes with. *)
Definition uniform (r : result) : Prop :=
  forall s t e, r = Returns (s, t, Some e) -> s = EmptyString /\ t = ast.TypeInvalid.

(** The error of the return statement that follows [contract.Failf]. *)
Definition unexpected_property_type : error := ErrNew "unexpected property type".

(** A call that does not return the error that follows the assertion. *)
Definition avoids (r : result) : Prop :=
  forall s t e, r = Returns (s, t, Some e) -> e <> unexpected_property_type.

(** Two walks that end alike: both panic with one message, or both
    return the same elements, and schemas of the same lattice type
    unless the path is empty. *)
Definition walks_alike (elements : list string)
    (w w' : outcome (list string * schemas)) : Prop :=
  match w, w' with
  | Returns (out, schN), Returns (out', schN') =>
      out = out' /\ (elements <> [] -> astType schN = astType schN')
  | Panics msg, Panics msg' => msg = msg'
  | _, _ => False
  end.

(** The log only grows, and what is added holds no call of the outputs
    hook. *)
Definition quiet {W : Type} (s s' : emitter W) : Prop :=
  exists l, log s' = log s ++ l /\ no_outputs l.

(** A step that is quiet in whatever way it ends. *)
Definition quiet_step {W A : Type} (c : emit W A) : Prop :=
  forall s s' r, c s = (s', r) -> quiet s s'.



(** The step [c'] ends as the step [c] does whenever [c] is not cut off
    by the fuel. *)
Definition agrees {W A : Type} (c c' : emit W A) : Prop :=
  forall s s' r, c s = (s', r) -> r <> OutOfFuel -> c' s = (s', r).

(** ** Stand-ins for the external functions

The properties below hold for any external functions.  To evaluate
the code on concrete inputs, stand-ins are fixed here that do what
the libraries do on the inputs of the examples: a name of letters,
digits and inner underscores is put in camel case, and a doubled
underscore fails the assertion of the library; a variable name is
parsed at its dots, and a reference to a variable with an element is an
error of the parser; a schema of a list or a set collapses when its
override says so, and otherwise when it holds at most one item; a
string is quoted without escapes. *)

Definition is_lower (c : ascii) : bool :=
  Nat.leb 97 (nat_of_ascii c) && Nat.leb (nat_of_ascii c) 122.

Definition to_upper (c : ascii) : ascii := ascii_of_nat (nat_of_ascii c - 32).

(** The loop of the translation: [cap] says that the next letter is the
    first one of a name to capitalize, [nextCap] that an underscore was
    just skipped, [casingActivated] that a character other than an
    underscore was seen. *)
Fixpoint camel_case (name rest : string) (cap nextCap casingActivated : bool)
  : outcome string :=
  match rest with
  | EmptyString => Returns EmptyString
  | String c rest' =>
      if Ascii.eqb c "_"%char && casingActivated then
        if nextCap then
          Panics ("fatal: An assertion has failed: Unexpected duplicate underscore: "
                    +:+ name)
        else camel_case name rest' false true casingActivated
      else
        out ← camel_case name rest' false false
                (casingActivated || negb (Ascii.eqb c "_"%char));
        Returns (String (if (cap || nextCap) && is_lower c then to_upper c else c) out)
  end.

Definition example_TerraformToPulumiName (name : string)
    (sch : option schema.Schema) (upper : bool) : outcome string :=
  camel_case name name upper false false.

(** The index of a multi-valued reference, written in decimal digits. *)
Definition is_digit (c : ascii) : bool :=
  Nat.leb 48 (nat_of_ascii c) && Nat.leb (nat_of_ascii c) 57.

Fixpoint all_digits (s : string) : bool :=
  match s with
  | EmptyString => true
  | String c rest => is_digit c && all_digits rest
  end.

Fixpoint decimal (s : string) (acc : Z) : Z :=
  match s with
  | EmptyString => acc
  | String c rest => decimal rest (10 * acc + Z.of_nat (nat_of_ascii c - 48))
  end.

(** A reference to a resource of the type [t] and the name [n]: the
    first part of a field of several parts makes the reference
    multi-valued when it is a star or an index. *)
Definition example_resource_variable (data : bool) (t n f : string)
    (fs : list string) : InterpolatedVariable :=
  match fs with
  | [] => ResourceVariable_ (mkResourceVariable data t n f false 0)
  | _ =>
      if String.eqb f "*" then
        ResourceVariable_ (mkResourceVariable data t n (Join fs ".") true (-1))
      else if negb (String.eqb f EmptyString) && all_digits f then
        ResourceVariable_ (mkResourceVariable data t n (Join fs ".") true (decimal f 0))
      else
        ResourceVariable_ (mkResourceVariable data t n (Join (f :: fs) ".") false (-1))
  end.

Definition example_NewInterpolatedVariable (name : string)
  : InterpolatedVariable + string :=
  match Split name "."%char with
  | k :: n :: rest =>
      if String.eqb k "count" then inl CountVariable
      else if String.eqb k "path" then inl PathVariable
      else if String.eqb k "self" then inl SelfVariable
      else if String.eqb k "terraform" then inl TerraformVariable
      else if String.eqb k "var" then
        match rest with
        | [] => inl (UserVariable_ (mkUserVariable n EmptyString))
        | e :: es =>
            inr ("Invalid dot index found: 'var." +:+ n +:+ "."
                   +:+ Join (e :: es) "." +:+ "'")
        end
      else if String.eqb k "local" then
        match rest with
        | [] => inl LocalVariable
        | _ => inr ("Can't use dot (.) attribute access in " +:+ name)
        end
      else if String.eqb k "module" then
        match rest with
        | [] => inr (name +:+ ": module variables must be three parts: module.name.attr")
        | _ => inl ModuleVariable
        end
      else if String.eqb k "data" then
        match rest with
        | t :: f :: fs => inl (example_resource_variable true n t f fs)
        | _ =>
            inr (name +:+ ": data variables must be four parts: data.TYPE.NAME.ATTR")
        end
      else
        match rest with
        | [] => inr (name +:+ ": resource variables must be three parts: TYPE.NAME.ATTR")
        | f :: fs => inl (example_resource_variable false k n f fs)
        end
  | _ => inl SimpleVariable
  end.

Definition example_IsMaxItemsOne (tfs : option schema.Schema)
    (info : option tfbridge.SchemaInfo) : bool :=
  match tfs with
  | None => false
  | Some s =>
      match schema.Type_of s with
      | schema.TypeList | schema.TypeSet =>
          match info with
          | Some (tfbridge.mkSchemaInfo _ _ _ (Some b)) => b
          | _ => Z.eqb (schema.MaxItems s) 1
          end
      | _ => false
      end
  end.

Definition example_externals : Externals := {|
  TerraformToPulumiName := example_TerraformToPulumiName;
  IsMaxItemsOne := example_IsMaxItemsOne;
  NewInterpolatedVariable := example_NewInterpolatedVariable;
  ResourceId := fun v =>
    (if rv_Data v then "data." else EmptyString)
      +:+ rv_Type v +:+ "." +:+ rv_Name v;
  Quote := quoted;
  QuoteRune := fun _ => "'?'";
  FormatFloat := fun _ => "0"
|}.

(** A schema of a list of at most one string, and the schemas of a
    property of that shape. *)
Definition example_single_schema : schema.Schema :=
  schema.mkSchema schema.TypeList
    (schema.ElemSchema (schema.mkSchema schema.TypeString schema.ElemOther 0)) 1.

Definition example_single : schemas :=
  {| tf := Some example_single_schema; tfRes := None; pulumi := None |}.

(** A generator that has no graph yet. *)
Definition example_generator : nodeGenerator :=
  {| projectName := "project"; graph_ := None |}.

(** The provider information of the example: the resource type
    [aws_instance] has a string property [ami], which the target override
    renames to [imageId]. *)
Definition example_info : tfbridge.ProviderInfo := {|
  tfbridge.ResourcesMap :=
    [("aws_instance",
      schema.mkResource
        (Some [("ami", schema.mkSchema schema.TypeString schema.ElemOther 0)]))];
  tfbridge.Resources :=
    [("aws_instance",
      {| tfbridge.Tok := "aws:ec2/instance:Instance";
         tfbridge.RFields :=
           Some [("ami", tfbridge.mkSchemaInfo "imageId" None None None)] |})]
|}.

Definition example_provider : providerNode :=
  {| p_Name := "aws"; p_deps := [VariableNode 0]; info := Some example_info |}.

(** The example graph: two variables ([region] without default, [size]
    with the default 5), the resource [aws_instance.web] without
    dependencies, the resource [aws_instance.db] that depends on it, and
    an output that depends on the second resource. *)
Definition example_graph : graph := {|
  providers := [0];
  variables := [("region", 0); ("size", 1)];
  locals := [];
  resources := [("aws_instance.db", 1); ("aws_instance.web", 0)];
  outputs := [0];
  provider_at := fun _ => example_provider;
  variable_at := fun p =>
    match p with
    | 0 => {| v_Name := "region"; defaultValue := VNil |}
    | _ => {| v_Name := "size"; defaultValue := VInt 5 |}
    end;
  local_at := fun _ => {| l_deps := []; l_value := VNil |};
  resource_at := fun p =>
    match p with
    | 0 => {| r_Type := "aws_instance"; r_Name := "web";
              provider := example_provider;
              r_deps := [VariableNode 0]; explicitDeps := [];
              properties :=
                VMap [("ami", VNode (Output [VariableAccess "var.region"]))] |}
    | _ => {| r_Type := "aws_instance"; r_Name := "db";
              provider := example_provider;
              r_deps := [ResourceNode 0; VariableNode 1]; explicitDeps := [];
              properties :=
                VMap [("ami", VNode (Output [VariableAccess "aws_instance.web.ami"]))] |}
    end;
  output_at := fun _ =>
    {| o_Name := "db_ami"; o_deps := [ResourceNode 1];
       o_value := VNode (Output [VariableAccess "aws_instance.db.ami"]) |}
|}.

(** The generator once the preamble has stashed the example graph. *)
Definition example_nodeGenerator : nodeGenerator :=
  {| projectName := "project"; graph_ := Some example_graph |}.



(** The schemas [generateResource] and [walkVariableAccess] derive for a
    resource of type [aws_instance] of the example. *)
Definition example_resource_schemas : schemas :=
  {| tf := None;
     tfRes := assoc "aws_instance" (tfbridge.ResourcesMap example_info);
     pulumi := Some (tfbridge.mkSchemaInfo EmptyString
                       (Some [("ami", tfbridge.mkSchemaInfo "imageId" None None None)])
                       None None) |}.

(** A generator that writes one line per call and never fails. *)
Definition example_lang : generator (list string) := {|
  generatePreamble := fun _ w => (w ++ ["preamble"], hook_nil);
  generateVariables := fun _ _ w => (w ++ ["variables"], hook_nil);
  generateLocal := fun _ _ w => (w ++ ["local"], hook_nil);
  generateResource := fun gr r w =>
    (w ++ [resName (r_Type (resource_at gr r)) (r_Name (resource_at gr r))],
     hook_nil);
  generateOutputs := fun _ _ w => (w ++ ["outputs"], hook_nil)
|}.

(** The example graph with an output that depends on a resource that is
    in none of the collections of the graph. *)
Definition example_graph_dangling : graph := {|
  providers := providers example_graph;
  variables := variables example_graph;
  locals := locals example_graph;
  resources := resources example_graph;
  outputs := outputs example_graph;
  provider_at := provider_at example_graph;
  variable_at := variable_at example_graph;
  local_at := local_at example_graph;
  resource_at := resource_at example_graph;
  output_at := fun _ =>
    {| o_Name := "other"; o_deps := [ResourceNode 7]; o_value := VNil |}
|}.

(** The same graph with a provider that depends on a resource. *)
Definition example_graph_provider : graph := {|
  providers := providers example_graph;
  variables := variables example_graph;
  locals := locals example_graph;
  resources := resources example_graph;
  outputs := outputs example_graph;
  provider_at := fun _ =>
    {| p_Name := "aws"; p_deps := [ResourceNode 0]; info := Some example_info |};
  variable_at := variable_at example_graph;
  local_at := local_at example_graph;
  resource_at := resource_at example_graph;
  output_at := output_at example_graph_dangling
|}.

(** The example graph with its two resources depending on each other. *)
Definition example_graph_cycle : graph := {|
  providers := providers example_graph;
  variables := variables example_graph;
  locals := locals example_graph;
  resources := resources example_graph;
  outputs := outputs example_graph;
  provider_at := provider_at example_graph;
  variable_at := variable_at example_graph;
  local_at := local_at example_graph;
  resource_at := fun p =>
    match p with
    | 0 => {| r_Type := "aws_instance"; r_Name := "web";
              provider := example_provider;
              r_deps := [ResourceNode 1]; explicitDeps := [];
              properties := VMap [] |}
    | _ => {| r_Type := "aws_instance"; r_Name := "db";
              provider := example_provider;
              r_deps := [ResourceNode 0]; explicitDeps := [];
              properties := VMap [] |}
    end;
  output_at := output_at example_graph
|}.

(** The example graph with its first resource depending on the
    provider. *)
Definition example_graph_foreign : graph := {|
  providers := providers example_graph;
  variables := variables example_graph;
  locals := locals example_graph;
  resources := resources example_graph;
  outputs := outputs example_graph;
  provider_at := provider_at example_graph;
  variable_at := variable_at example_graph;
  local_at := local_at example_graph;
  resource_at := fun p =>
    match p with
    | 0 => {| r_Type := "aws_instance"; r_Name := "web";
              provider := example_provider;
              r_deps := [ProviderNode 0]; explicitDeps := [];
              properties := VMap [] |}
    | _ => resource_at example_graph p
    end;
  output_at := output_at example_graph
|}.

(** The example graph with a local value. *)
Definition example_graph_local : graph := {|
  providers := providers example_graph;
  variables := variables example_graph;
  locals := [0];
  resources := resources example_graph;
  outputs := outputs example_graph;
  provider_at := provider_at example_graph;
  variable_at := variable_at example_graph;
  local_at := fun _ => {| l_deps := []; l_value := VString "x" |};
  resource_at := resource_at example_graph;
  output_at := output_at example_graph
|}.

(** A graph with a resource whose type has no underscore. *)
Definition example_graph_single : graph := {|
  providers := [];
  variables := [];
  locals := [];
  resources := [("random.id", 0)];
  outputs := [];
  provider_at := provider_at example_graph;
  variable_at := variable_at example_graph;
  local_at := local_at example_graph;
  resource_at := fun _ =>
    {| r_Type := "random"; r_Name := "id";
       provider := {| p_Name := "random"; p_deps := []; info := None |};
       r_deps := []; explicitDeps := []; properties := VMap [] |};
  output_at := output_at example_graph
|}.


(** ** What the further properties are stated with *)

(** A reference the walker rejects before it looks anything up: a kind
    it does not implement, a multi-valued resource reference, a variable
    reference with an element. *)
Definition unsupported_reference (v : InterpolatedVariable) : Prop :=
  match v with
  | ResourceVariable_ r => rv_Multi r = true
  | UserVariable_ u => uv_Elem u <> EmptyString
  | _ => True
  end.

(** The functions [walkCall] knows, and the number of arguments each
    reads by index. *)
Definition known_function (Func : string) : bool :=
  String.eqb Func "file" || String.eqb Func "lookup" || String.eqb Func "split".

Definition min_args (Func : string) : nat :=
  if String.eqb Func "file" then 1 else 2.

(** The concatenation of the texts written one after the other. *)
Definition concat_lines (ls : list string) : string :=
  fold_right String.append EmptyString ls.

(** The line [computeSliceProperty] writes for an element that
    serialized to the text and type [r]. *)
Definition slice_line (indent : string) (elemSch : schemas)
    (r : string * ast.Type_) : string :=
  nl +:+ (indent +:+ "    ")
     +:+ coerceProperty
           (if ast.Type_eqb r.2 ast.TypeList then "..." +:+ r.1 else r.1)
           r.2 (astType elemSch)
     +:+ ",".

(** The line [computeMapProperty] writes for the key [k] whose value
    serialized to the text and type [r]. *)
Definition map_line (indent : string) (sch : schemas)
    (k name : string) (r : string * ast.Type_) : string :=
  nl +:+ (indent +:+ "    ") +:+ name
     +:+ ": " +:+ coerceProperty r.1 r.2 (astType (propertySchemas sch k)) +:+ ",".

(** The name [computeMapProperty] writes for the key [k]. *)
Definition key_name (X : Externals) (sch : schemas) (k : string) : outcome string :=
  tsName X k (tf (propertySchemas sch k)) (pulumi (propertySchemas sch k)) true.

(** A call that emits a node. *)
Definition is_node_event (e : event) : Prop :=
  match e with
  | EvLocal _ | EvResource _ => True
  | _ => False
  end.


(** A step all of whose ends, whatever they are, relate the state before
    and the state after by [R]. *)
Definition step_rel {W A : Type} (R : relation (emitter W)) (c : emit W A) : Prop :=
  forall s s' r, c s = (s', r) -> R s s'.

(** The log grows by calls that satisfy [P]. *)
Definition log_grows {W : Type} (P : event -> Prop) : relation (emitter W) :=
  fun s s' => exists l, log s' = log s ++ l /\ Forall P l.

(** [done] keeps its nodes, and grows by locals and resources only. *)
Definition done_grows {W : Type} : relation (emitter W) :=
  fun s s' =>
    (forall m, m ∈ done s -> m ∈ done s')
    /\ (forall m, m ∈ done s' -> m ∈ done s \/ is_Some (hook_event m)).

(** ** The NodeJS generator: the emission hooks *)

(** [strings.IndexRune(s, c)] for a rune below [utf8.RuneSelf]: the
    index of the first byte [c]; [None] stands for -1. *)
Fixpoint IndexRune (s : string) (c : ascii) : option nat :=
  match s with
  | EmptyString => None
  | String c' rest =>
      if Ascii.eqb c' c then Some 0 else S <$> IndexRune rest c
  end.

(** [s[:i]] and [s[i:]], for [i] within the text. *)
Definition slice_to (s : string) (i : nat) : string := substring 0 i s.
Definition slice_from (s : string) (i : nat) : string :=
  substring i (String.length s - i) s.

(** The state the hooks act on: the receiver [g] and what [fmt.Printf]
    has written to the standard output so far. *)
Record process : Type := mkProcess {
  receiver : nodeGenerator;
  stdout : string
}.

(** A step within a hook: it goes on with a value, or the hook returns
    (nil or an error) or panics. *)
Definition hook (A : Type) : Type := process -> process * (A + hook_result).

#[global] Instance hook_ret : MRet hook := fun A a p => (p, inl a).

#[global] Instance hook_bind : MBind hook := fun A B k c p =>
  match c p with
  | (p', inl a) => k a p'
  | (p', inr r) => (p', inr r)
  end.

(** [return err], [return nil] *)
Definition hook_return {A : Type} (r : hook_result) : hook A :=
  fun p => (p, inr r).

(** [fmt.Printf], the format expanded. *)
Definition Printf (text : string) : hook unit :=
  fun p => (mkProcess (receiver p) (stdout p +:+ text), inl tt).

(** [for _, x := range xs { body }] where [body] may return. *)
Fixpoint hook_range {A : Type} (body : A -> hook unit) (xs : list A) : hook unit :=
  match xs with
  | [] => mret tt
  | x :: rest => body x;; hook_range body rest
  end.

(** A hook as the emitter calls it: falling off the body is the final
    [return nil]. *)
Definition run_hook (c : hook unit) : process -> process * hook_result :=
  fun p =>
    match c p with
    | (p', inl _) => (p', hook_nil)
    | (p', inr r) => (p', r)
    end.

(** A call that may panic, within a hook. *)
Definition hook_call {A : Type} (o : outcome A) : hook A :=
  fun p =>
    match o with
    | Returns a => (p, inl a)
    | Panics msg => (p, inr (hook_panic msg))
    end.

(** A call that may return an error, followed by
    [if err != nil { return err }]. *)
Definition hook_try {A : Type} (o : A + error) : hook A :=
  fun p =>
    match o with
    | inl a => (p, inl a)
    | inr e => (p, inr (hook_error e))
    end.

(** The type assertion of [n] to a pointer to [resourceNode]. *)
Definition as_resourceNode (gr : graph) (n : node) : hook resourceNode :=
  match n with
  | ResourceNode r => mret (resource_at gr r)
  | _ => hook_return (hook_panic "interface conversion: node is not *resourceNode")
  end.

Section NodeJS.

Variable X : Externals.

(** [text, _, err := g.computeProperty(v, EmptyString, sch)] followed by
    [if err != nil { return err }]. *)
Definition compute (v : value) (sch : schemas) : hook string :=
  fun p =>
    match computeProperty X (receiver p) v EmptyString sch with
    | Panics msg => (p, inr (hook_panic msg))
    | Returns (_, _, Some e) => (p, inr (hook_error e))
    | Returns (text, _, None) => (p, inl text)
    end.

(** [func (g *nodeGenerator) generatePreamble(gr *graph) error] *)
Definition nodeGenerator_generatePreamble (gr : graph) : hook unit :=
  (fun p => (mkProcess (mkNodeGenerator (projectName (receiver p)) (Some gr))
                       (stdout p), inl tt));;
  Printf ("import * as pulumi from " +:+ quoted "@pulumi/pulumi" +:+ ";" +:+ nl);;
  hook_range (fun p =>
    let name := p_Name (provider_at gr p) in
    Printf ("import * as " +:+ name +:+ " from "
              +:+ quoted ("@pulumi/" +:+ name) +:+ ";" +:+ nl))
    (providers gr);;
  Printf ("import * as fs from " +:+ quoted "fs" +:+ ";");;
  Printf (nl +:+ nl).

(** The body of the loop of [generateVariables]. *)
Definition declare_variable (gr : graph) (v : ptr) : hook unit :=
  name ← hook_call (TerraformToPulumiName X (v_Name (variable_at gr v)) None false);
  Printf ("const " +:+ name +:+ " = ");;
  match defaultValue (variable_at gr v) with
  | VNil => Printf ("config.require(" +:+ quoted name +:+ ")")
  | dv =>
      def ← compute dv schemas_zero;
      Printf ("config.get(" +:+ quoted name +:+ ") || " +:+ def)
  end;;
  Printf (";" +:+ nl).

(** [func (g *nodeGenerator) generateVariables(vs []*variableNode) error] *)
Definition nodeGenerator_generateVariables (gr : graph) (vs : list ptr) : hook unit :=
  match vs with
  | [] => mret tt
  | _ =>
      (fun p => Printf ("const config = new pulumi.Config("
                          +:+ quoted (projectName (receiver p)) +:+ ")" +:+ nl) p);;
      hook_range (declare_variable gr) vs;;
      Printf nl
  end.

(** The method [generateLocal(l *localNode) error] of [nodeGenerator]. *)
Definition nodeGenerator_generateLocal (gr : graph) (l : ptr) : hook unit :=
  hook_return (hook_error (ErrNew "NYI: locals")).

(** [resInfo]: nil without provider information, and when [Resources]
    has no entry for the type. *)
Definition resInfo_of (r : resourceNode) : option tfbridge.ResourceInfo :=
  match info (provider r) with
  | None => None
  | Some pinfo => assoc (r_Type r) (tfbridge.Resources pinfo)
  end.

(** The module and type name of the constructor of a resource:
    [typeName] unless there is a [resInfo], whose token then gives
    both, or an error. *)
Definition constructor_path (resInfo : option tfbridge.ResourceInfo)
    (typeName : string) : string * string + error :=
  match resInfo with
  | None => inl (EmptyString, typeName)
  | Some ri =>
      match Split (tfbridge.Tok ri) ":"%char with
      | [_; mod_; typ] =>
          match IndexRune mod_ "/"%char with
          | None => inr (ErrHook ("unexpected resource module format " +:+ mod_))
          | Some slash => inl ("." +:+ slice_to mod_ slash, typ)
          end
      | _ => inr (ErrHook ("unexpected resource token format " +:+ tfbridge.Tok ri))
      end
  end.

(** The name [generateResource] writes for an explicit dependency. *)
Definition dep_name (gr : graph) (n : node) : string :=
  match n with
  | ResourceNode r => resName (r_Type (resource_at gr r)) (r_Name (resource_at gr r))
  | _ => EmptyString
  end.

(** The loop over [r.explicitDeps], [i] being the index of the first
    node of [ns]. *)
Fixpoint dependsOn (gr : graph) (i : nat) (ns : list node) : hook unit :=
  match ns with
  | [] => mret tt
  | n :: rest =>
      (if Nat.ltb 0 i then Printf ", " else mret tt);;
      r ← as_resourceNode gr n;
      Printf (resName (r_Type r) (r_Name r));;
      dependsOn gr (S i) rest
  end.

(** [if len(r.explicitDeps) != 0 { ... }] *)
Definition explicit_dependencies (gr : graph) (ns : list node) : hook unit :=
  match ns with
  | [] => mret tt
  | _ =>
      Printf ", {dependsOn: [";;
      dependsOn gr 0 ns;;
      Printf "]}"
  end.

(** [func (g *nodeGenerator) generateResource(r *resourceNode) error] *)
Definition nodeGenerator_generateResource (gr : graph) (r : ptr) : hook unit :=
  let r := resource_at gr r in
  match IndexRune (r_Type r) "_"%char with
  | None => hook_return (hook_error (ErrNew "NYI: single-resource providers"))
  | Some underscore =>
      let provider := slice_to (r_Type r) underscore in
      let resourceType := slice_from (r_Type r) (underscore + 1) in
      sch ← hook_call (resource_schemas r (r_Type r));
      inputs ← compute (properties r) sch;
      typeName ← hook_call (TerraformToPulumiName X resourceType None true);
      '(module, typeName) ← hook_try (constructor_path (resInfo_of r) typeName);
      Printf ("const " +:+ resName (r_Type r) (r_Name r) +:+ " = new "
                +:+ provider +:+ module +:+ "." +:+ typeName
                +:+ "(" +:+ quoted (r_Name r) +:+ ", " +:+ inputs);;
      explicit_dependencies gr (explicitDeps r);;
      Printf (");" +:+ nl)
  end.

(** The body of the loop of [generateOutputs]. *)
Definition export_output (gr : graph) (o : ptr) : hook unit :=
  outputs ← compute (o_value (output_at gr o)) schemas_zero;
  name ← hook_call (tsName X (o_Name (output_at gr o)) None None false);
  Printf ("export const " +:+ name +:+ " = " +:+ outputs +:+ ";" +:+ nl).

(** [func (g *nodeGenerator) generateOutputs(os []*outputNode) error] *)
Definition nodeGenerator_generateOutputs (gr : graph) (os : list ptr) : hook unit :=
  match os with
  | [] => mret tt
  | _ =>
      Printf nl;;
      hook_range (export_output gr) os
  end.

(** [nodeGenerator] implements [generator]; the node structs the hooks
    are given are read through the store of the graph. *)
#[global] Instance nodeGenerator_generator : generator process := {|
  generatePreamble gr := run_hook (nodeGenerator_generatePreamble gr);
  generateVariables gr vs := run_hook (nodeGenerator_generateVariables gr vs);
  generateLocal gr l := run_hook (nodeGenerator_generateLocal gr l);
  generateResource gr r := run_hook (nodeGenerator_generateResource gr r);
  generateOutputs gr os := run_hook (nodeGenerator_generateOutputs gr os)
|}.

End NodeJS.

(** The hook of the node never returns nil. *)
Definition never_emitted {W : Type} {lang : generator W} (gr : graph) (n : node)
  : Prop :=
  match n with
  | LocalNode l => forall w, (generateLocal gr l w).2 <> hook_nil
  | ResourceNode r => forall w, (generateResource gr r w).2 <> hook_nil
  | _ => True
  end.

(** No node of [C] is in [done]. *)
Definition keeps_out {W : Type} (C : node -> Prop) : relation (emitter W) :=
  fun s s' => (forall m, C m -> m ∉ done s) -> (forall m, C m -> m ∉ done s').

(** The output only grows, and the project name stays. *)
Definition appends : relation process :=
  fun p p' =>
    (exists text, stdout p' = stdout p +:+ text)
    /\ projectName (receiver p') = projectName (receiver p).

(** A step of a hook all of whose ends relate the process before and the
    process after by [R]. *)
Definition hook_rel {A : Type} (R : relation process) (c : hook A) : Prop :=
  forall p p' r, c p = (p', r) -> R p p'.

(** The output only grows, and the generator stays as it is. *)
Definition writes : relation process :=
  fun p p' =>
    receiver p' = receiver p /\ exists text, stdout p' = stdout p +:+ text.

(** The output only grows, the project name stays, and a generator that
    holds the graph goes on holding it. *)
Definition keeps_graph (gr : graph) : relation (emitter process) :=
  fun s s' =>
    appends (world s) (world s')
    /\ (graph_ (receiver (world s)) = Some gr ->
        graph_ (receiver (world s')) = Some gr).

(** The line the preamble writes for a provider. *)
Definition import_line (gr : graph) (p : ptr) : string :=
  "import * as " +:+ p_Name (provider_at gr p) +:+ " from "
    +:+ quoted ("@pulumi/" +:+ p_Name (provider_at gr p)) +:+ ";" +:+ nl.

(** The declaration [generateVariables] writes for a variable whose name
    translates to [name] and whose default, if any, serializes to
    [def]. *)
Definition declaration (gr : graph) (v : ptr) (name def : string) : string :=
  "const " +:+ name +:+ " = "
    +:+ match defaultValue (variable_at gr v) with
        | VNil => "config.require(" +:+ quoted name +:+ ")"
        | _ => "config.get(" +:+ quoted name +:+ ") || " +:+ def
        end
    +:+ ";" +:+ nl.

(** The export [generateOutputs] writes for an output whose name
    translates to [name] and whose value serializes to [text]. *)
Definition export_line (name text : string) : string :=
  "export const " +:+ name +:+ " = " +:+ text +:+ ";" +:+ nl.

(** A node that is a resource. *)
Definition is_resourceNode (n : node) : Prop :=
  match n with ResourceNode _ => True | _ => False end.

(** The clause [dependsOn] of a resource with explicit dependencies. *)
Definition dependsOn_clause (gr : graph) (ns : list node) : string :=
  match ns with
  | [] => EmptyString
  | _ => ", {dependsOn: [" +:+ Join (dep_name gr <$> ns) ", " +:+ "]}"
  end.

(** The process at its start: the generator has no graph yet, nothing is
    written. *)
Definition example_process : process := mkProcess example_generator EmptyString.

(** * Properties *)

(** ** Schema accessor *)

(** C8: the two derivations and the lattice type have no error path.  A
    view that is absent yields absent derived views, whatever the key:
    without nested resource schema the derived source views are absent,
    without override the derived override is absent; the all-absent
    triple derives the all-absent triple and has type Unknown. *)
Theorem schemas_derivations_total :
  (forall t p key,
     tf (propertySchemas (mkSchemas t None p) key) = None
     /\ tfRes (propertySchemas (mkSchemas t None p) key) = None)
  /\ (forall t r key, pulumi (propertySchemas (mkSchemas t r None) key) = None)
  /\ (forall r p,
        tf (elemSchemas (mkSchemas None r p)) = None
        /\ tfRes (elemSchemas (mkSchemas None r p)) = None)
  /\ (forall t r, pulumi (elemSchemas (mkSchemas t r None)) = None)
  /\ (forall key, propertySchemas schemas_zero key = schemas_zero)
  /\ elemSchemas schemas_zero = schemas_zero
  /\ (forall p, astType (mkSchemas None None p) = ast.TypeUnknown)
  /\ astType schemas_zero = ast.TypeUnknown.
Proof.
  repeat split; try reflexivity.
  - unfold elemSchemas; simpl. destruct t as [[ty [e|e|] mx]|]; reflexivity.
Qed.

(** ** Type coercion *)

Lemma Type_eqb_true (a b : ast.Type_) : ast.Type_eqb a b = true <-> a = b.
Proof. unfold ast.Type_eqb. apply bool_decide_eq_true. Qed.

Lemma Type_eqb_false (a b : ast.Type_) : ast.Type_eqb a b = false <-> a <> b.
Proof. unfold ast.Type_eqb. apply bool_decide_eq_false. Qed.

(** C3: [coerceProperty] leaves the text alone when the inferred type is
    the destination type or is not String.  On a String forced into
    another type: into Bool, the quoted literals true and false become
    the bare literals and any other text is compared with the quoted
    true; into Int or Float, the text is parsed as a number; into any
    other type, the text is unchanged. *)
Theorem coerceProperty_spec (value : string) (valueType propertyType : ast.Type_) :
  (valueType = propertyType \/ valueType <> ast.TypeString ->
     coerceProperty value valueType propertyType = value)
  /\ (valueType = ast.TypeString -> propertyType = ast.TypeBool ->
        (value = quoted "true" ->
           coerceProperty value valueType propertyType = "true")
        /\ (value = quoted "false" ->
              coerceProperty value valueType propertyType = "false")
        /\ (value <> quoted "true" -> value <> quoted "false" ->
              coerceProperty value valueType propertyType
              = "(" +:+ value +:+ " === " +:+ quoted "true" +:+ ")"))
  /\ (valueType = ast.TypeString ->
      propertyType = ast.TypeInt \/ propertyType = ast.TypeFloat ->
        coerceProperty value valueType propertyType
        = "Number.parseFloat(" +:+ value +:+ ")")
  /\ (valueType = ast.TypeString ->
      propertyType <> ast.TypeBool -> propertyType <> ast.TypeInt ->
      propertyType <> ast.TypeFloat ->
        coerceProperty value valueType propertyType = value).
Proof.
  split; [| split; [| split]].
  - intros [-> | Hne]; unfold coerceProperty.
    + replace (ast.Type_eqb propertyType propertyType) with true; [reflexivity|].
      symmetry; by apply Type_eqb_true.
    + apply Type_eqb_false in Hne. rewrite Hne. by rewrite orb_true_r.
  - intros -> ->. split; [| split].
    + intros ->. reflexivity.
    + intros ->. reflexivity.
    + intros Ht Hf. unfold coerceProperty; simpl.
      apply String.eqb_neq in Ht, Hf. by rewrite Ht, Hf.
  - intros -> [-> | ->]; reflexivity.
  - intros -> Hb Hi Hf. destruct propertyType; try reflexivity; congruence.
Qed.

Lemma coerceProperty_spec_witness :
  coerceProperty (quoted "true") ast.TypeFloat ast.TypeBool = quoted "true"
  /\ coerceProperty (quoted "true") ast.TypeString ast.TypeBool = "true"
  /\ coerceProperty "x" ast.TypeString ast.TypeBool
     = "(" +:+ "x" +:+ " === " +:+ quoted "true" +:+ ")"
  /\ coerceProperty "x" ast.TypeString ast.TypeFloat = "Number.parseFloat(x)"
  /\ coerceProperty "x" ast.TypeString ast.TypeMap = "x".
Proof.
  split; [| split; [| split; [| split]]].
  - destruct (coerceProperty_spec (quoted "true") ast.TypeFloat ast.TypeBool)
      as (H & _). apply H. right; discriminate.
  - destruct (coerceProperty_spec (quoted "true") ast.TypeString ast.TypeBool)
      as (_ & H & _). destruct (H eq_refl eq_refl) as (H1 & _). apply H1; reflexivity.
  - destruct (coerceProperty_spec "x" ast.TypeString ast.TypeBool)
      as (_ & H & _). destruct (H eq_refl eq_refl) as (_ & _ & H3).
    apply H3; discriminate.
  - destruct (coerceProperty_spec "x" ast.TypeString ast.TypeFloat)
      as (_ & _ & H & _). apply H; [reflexivity | right; reflexivity].
  - destruct (coerceProperty_spec "x" ast.TypeString ast.TypeMap)
      as (_ & _ & _ & H). apply H; try reflexivity; discriminate.
Defined.

(** ** Induction over values *)

(** Induction on a value with the hypothesis for every element of a
    slice and every entry of a map. *)
Lemma value_nested_ind (P : value -> Prop) :
  P VNil ->
  (forall n, P (VNode n)) ->
  (forall b, P (VBool b)) ->
  (forall z, P (VInt z)) ->
  (forall f, P (VFloat64 f)) ->
  (forall s, P (VString s)) ->
  (forall s, Forall P s -> P (VSlice s)) ->
  (forall m, Forall (fun kv => P kv.2) m -> P (VMap m)) ->
  (forall k text_v text_q, P (VOther k text_v text_q)) ->
  forall v, P v.
Proof.
  intros Hnil Hnode Hbool Hint Hfloat Hstr Hslice Hmap Hother.
  fix IH 1. intros [ | n | b | z | f | s | s | m | k tv tq ].
  - exact Hnil.
  - apply Hnode.
  - apply Hbool.
  - apply Hint.
  - apply Hfloat.
  - apply Hstr.
  - apply Hslice. induction s as [| v s IHs]; constructor; [apply IH | exact IHs].
  - apply Hmap. induction m as [| [k v] m IHm]; constructor; [apply IH | exact IHm].
  - apply Hother.
Qed.

(** ** Error results *)

Section ErrorResults.

Variable X : Externals.
Variable g : nodeGenerator.

Lemma uniform_fail_with e : uniform (fail_with e).
Proof. intros s t e' H. by injection H as <- <- _. Qed.

Lemma uniform_no_error s t : uniform (Returns (s, t, None)).
Proof. intros s' t' e H. discriminate. Qed.

Lemma uniform_Panics msg : uniform (Panics msg).
Proof. intros s' t' e H. discriminate. Qed.

Create HintDb uniform.
Hint Resolve uniform_fail_with uniform_no_error uniform_Panics : uniform.

Lemma walkVariableAccess_uniform Name : uniform (walkVariableAccess X g Name).
Proof.
  unfold walkVariableAccess, the_graph, resource_schemas, mbind, outcome_bind.
  repeat (case_match; simpl; auto with uniform).
Qed.

Lemma walkLiteral_uniform Value Typex : uniform (walkLiteral X Value Typex).
Proof. unfold walkLiteral. destruct Typex; auto with uniform. Qed.

Lemma walkNode_uniform n : uniform (walkNode X g n).
Proof.
  destruct n; simpl;
    unfold walkArithmetic, walkCall, walkConditional, walkIndex, walkOutput, index,
      mbind, outcome_bind;
    auto using walkLiteral_uniform, walkVariableAccess_uniform with uniform;
    repeat (case_match; simpl; auto with uniform).
Qed.

Lemma walkNodes_error ns strs typs e :
  walkNodes (walkNode X g) ns = Returns (strs, typs, Some e) ->
  strs = [] /\ typs = [].
Proof.
  destruct ns as [| n ns]; simpl; [discriminate |].
  unfold mbind, outcome_bind.
  repeat (case_match; simpl; try discriminate);
    intros ?; by simplify_eq.
Qed.

Lemma slice_elements_uniform s indent elemSch :
  Forall (fun v => forall i sch, uniform (computeProperty X g v i sch)) s ->
  forall buf, uniform (slice_elements (computeProperty X g) s indent elemSch buf).
Proof.
  induction 1 as [| v s Hv _ IH]; intros buf; simpl; auto with uniform.
  unfold mbind, outcome_bind.
  destruct (computeProperty X g v _ elemSch) as [[[elem elemTyp] [e |]] | msg];
    auto with uniform.
Qed.

Lemma computeSliceProperty_uniform s indent sch :
  Forall (fun v => forall i sch, uniform (computeProperty X g v i sch)) s ->
  uniform (computeSliceProperty X (computeProperty X g) s indent sch).
Proof.
  intros Hs. unfold computeSliceProperty.
  destruct (IsMaxItemsOne X (tf sch) (pulumi sch)).
  - destruct Hs as [| v s Hv [| v' s' _ _]]; auto with uniform.
  - by apply slice_elements_uniform.
Qed.

Lemma property_at_uniform m k propIndent propSch :
  Forall (fun kv => forall i sch, uniform (computeProperty X g kv.2 i sch)) m ->
  uniform (property_at (computeProperty X g) m k propIndent propSch).
Proof.
  induction 1 as [| [k' v] m Hv _ IH]; simpl; auto with uniform.
  destruct (String.eqb k k'); auto.
Qed.

Lemma map_properties_uniform m keys indent sch :
  Forall (fun kv => forall i sch, uniform (computeProperty X g kv.2 i sch)) m ->
  forall buf, uniform (map_properties X (computeProperty X g) m keys indent sch buf).
Proof.
  intros Hm. induction keys as [| k keys IH]; intros buf; simpl; auto with uniform.
  unfold mbind, outcome_bind.
  destruct (property_at _ m k _ _) as [[[prop propTyp] [e |]] | msg];
    auto with uniform.
  destruct (tsName X k _ _ true) as [name | msg]; auto with uniform.
Qed.

Lemma computeProperty_uniform v : forall indent sch,
  uniform (computeProperty X g v indent sch).
Proof.
  induction v as [ | n | b | z | f | s | s IH | m IH | k tv tq ]
    using value_nested_ind; intros indent sch; simpl; auto with uniform.
  - apply walkNode_uniform.
  - by apply computeSliceProperty_uniform.
  - by apply map_properties_uniform.
  - destruct k; auto with uniform.
Qed.

End ErrorResults.

(** C9: whenever the walk of an expression node, the serialization of a
    sequence, of a mapping or of any value returns an error, the text
    returned with it is empty and the type is Invalid; the walk of a list
    of nodes returns its two lists nil with an error. *)
Theorem error_results_uniform (X : Externals) (g : nodeGenerator) :
  (forall n s t e,
     walkNode X g n = Returns (s, t, Some e) ->
     s = EmptyString /\ t = ast.TypeInvalid)
  /\ (forall ns strs typs e,
        walkNodes (walkNode X g) ns = Returns (strs, typs, Some e) ->
        strs = [] /\ typs = [])
  /\ (forall sl indent sch s t e,
        computeSliceProperty X (computeProperty X g) sl indent sch
        = Returns (s, t, Some e) ->
        s = EmptyString /\ t = ast.TypeInvalid)
  /\ (forall m indent sch s t e,
        computeMapProperty X (computeProperty X g) m indent sch
        = Returns (s, t, Some e) ->
        s = EmptyString /\ t = ast.TypeInvalid)
  /\ (forall v indent sch s t e,
        computeProperty X g v indent sch = Returns (s, t, Some e) ->
        s = EmptyString /\ t = ast.TypeInvalid).
Proof.
  split; [| split; [| split; [| split]]].
  - intros n. apply walkNode_uniform.
  - intros ns. apply walkNodes_error.
  - intros sl indent sch. apply (computeProperty_uniform X g (VSlice sl)).
  - intros m indent sch. apply (computeProperty_uniform X g (VMap m)).
  - intros v. apply computeProperty_uniform.
Qed.

Lemma error_results_uniform_witness :
  walkNode example_externals example_generator (Call "base64" [])
  = Returns (EmptyString, ast.TypeInvalid, Some (ErrNYICall "base64"))
  /\ computeProperty example_externals example_generator
       (VSlice [VString "a"; VString "b"]) EmptyString example_single
     = Returns (EmptyString, ast.TypeInvalid, Some ErrAtMostOneItem)
  /\ (EmptyString = EmptyString /\ ast.TypeInvalid = ast.TypeInvalid).
Proof.
  split; [reflexivity | split; [reflexivity |]].
  destruct (error_results_uniform example_externals example_generator)
    as (_ & _ & _ & _ & Hvalue).
  apply (Hvalue (VSlice [VString "a"; VString "b"]) EmptyString example_single
           EmptyString ast.TypeInvalid ErrAtMostOneItem).
  reflexivity.
Defined.

(** ** Collapse of single-element collections *)

(** On a slice the serializer is [computeSliceProperty]. *)
Lemma computeProperty_VSlice X g s indent sch :
  computeProperty X g (VSlice s) indent sch
  = computeSliceProperty X (computeProperty X g) s indent sch.
Proof. reflexivity. Qed.

(** C2: on a sequence whose schema pair signals the collapse, the
    serializer returns the text undefined with type Unknown for no
    element, exactly what it returns for the single element (with the
    same indent and the element schemas) for one element, and the error
    of more than one item, with empty text and type Invalid, for two
    elements or more. *)
Theorem collapse_to_scalar (X : Externals) (g : nodeGenerator)
    (s : list value) (indent : string) (sch : schemas) :
  IsMaxItemsOne X (tf sch) (pulumi sch) = true ->
  (length s = 0 ->
     computeProperty X g (VSlice s) indent sch
     = Returns ("undefined", ast.TypeUnknown, None))
  /\ (forall v, s = [v] ->
        computeProperty X g (VSlice s) indent sch
        = computeProperty X g v indent (elemSchemas sch))
  /\ (2 <= length s ->
        computeProperty X g (VSlice s) indent sch
        = Returns (EmptyString, ast.TypeInvalid, Some ErrAtMostOneItem)).
Proof.
  intros Hone. rewrite computeProperty_VSlice. unfold computeSliceProperty.
  rewrite Hone. split; [| split].
  - destruct s; [reflexivity | discriminate].
  - intros v ->. reflexivity.
  - destruct s as [| v [| v' s]]; simpl; intros Hlen; try lia. reflexivity.
Qed.

Lemma collapse_to_scalar_witness :
  computeProperty example_externals example_generator
    (VSlice []) EmptyString example_single
  = Returns ("undefined", ast.TypeUnknown, None)
  /\ computeProperty example_externals example_generator
       (VSlice [VString "a"]) EmptyString example_single
     = Returns (quoted "a", ast.TypeString, None)
  /\ computeProperty example_externals example_generator
       (VSlice [VString "a"; VString "b"]) EmptyString example_single
     = Returns (EmptyString, ast.TypeInvalid, Some ErrAtMostOneItem).
Proof.
  split; [| split].
  - apply (collapse_to_scalar example_externals example_generator
             [] EmptyString example_single); reflexivity.
  - destruct (collapse_to_scalar example_externals example_generator
                [VString "a"] EmptyString example_single eq_refl) as (_ & H & _).
    rewrite (H (VString "a") eq_refl). reflexivity.
  - apply (collapse_to_scalar example_externals example_generator
             [VString "a"; VString "b"] EmptyString example_single);
      [reflexivity | simpl; lia].
Defined.

(** ** Unsupported value shapes *)

(** Induction on an expression with the hypothesis for every node of an
    operand or argument list. *)
Lemma Node_nested_ind (P : Node -> Prop) :
  (forall Op Exprs, Forall P Exprs -> P (Arithmetic Op Exprs)) ->
  (forall Func Args, Forall P Args -> P (Call Func Args)) ->
  (forall c t f, P c -> P t -> P f -> P (Conditional c t f)) ->
  (forall Target Key, P Target -> P Key -> P (Index Target Key)) ->
  (forall Value Typex, P (LiteralNode Value Typex)) ->
  (forall Exprs, Forall P Exprs -> P (Output Exprs)) ->
  (forall Name, P (VariableAccess Name)) ->
  P OtherNode ->
  forall n, P n.
Proof.
  intros Harith Hcall Hcond Hindex Hlit Hout Hvar Hother.
  fix IH 1. intros [ Op Exprs | Func Args | c t f | Target Key | Value Typex
                   | Exprs | Name | ].
  - apply Harith. induction Exprs as [| n ns IHns]; constructor; [apply IH | exact IHns].
  - apply Hcall. induction Args as [| n ns IHns]; constructor; [apply IH | exact IHns].
  - apply Hcond; apply IH.
  - apply Hindex; apply IH.
  - apply Hlit.
  - apply Hout. induction Exprs as [| n ns IHns]; constructor; [apply IH | exact IHns].
  - apply Hvar.
  - exact Hother.
Qed.

Section Unreachable.

Variable X : Externals.
Variable g : nodeGenerator.

Lemma avoids_no_error s t : avoids (Returns (s, t, None)).
Proof. intros s' t' e H. discriminate. Qed.

Lemma avoids_Panics msg : avoids (Panics msg).
Proof. intros s' t' e H. discriminate. Qed.

Lemma avoids_fail_with e : e <> unexpected_property_type -> avoids (fail_with e).
Proof. intros Hne s t e' H. by injection H as _ _ <-. Qed.

Create HintDb avoids.
Hint Resolve avoids_no_error avoids_Panics : avoids.
Hint Extern 1 (avoids (fail_with _)) =>
  (apply avoids_fail_with; discriminate) : avoids.

Lemma walkVariableAccess_avoids Name : avoids (walkVariableAccess X g Name).
Proof.
  unfold walkVariableAccess, the_graph, resource_schemas, mbind, outcome_bind.
  repeat (case_match; simpl; auto with avoids).
Qed.

Lemma walkNodes_avoids ns :
  Forall (fun n => avoids (walkNode X g n)) ns ->
  forall strs typs e,
    walkNodes (walkNode X g) ns = Returns (strs, typs, Some e) ->
    e <> unexpected_property_type.
Proof.
  induction 1 as [| n ns Hn _ IH]; intros strs typs e; simpl; [discriminate |].
  unfold mbind, outcome_bind.
  destruct (walkNode X g n) as [[[s t] [e1 |]] | msg] eqn:E1; try discriminate.
  - intros ?; simplify_eq. by eapply Hn.
  - destruct (walkNodes _ ns) as [[[ss ts] [e2 |]] | msg] eqn:E2; try discriminate.
    intros ?; simplify_eq. by eapply IH.
Qed.

Lemma walkNode_avoids n : avoids (walkNode X g n).
Proof.
  induction n as [ Op Exprs IH | Func Args IH | c t f IHc IHt IHf
                 | Target Key IHt IHk | Value Typex | Exprs IH | Name | ]
    using Node_nested_ind; simpl.
  - unfold walkArithmetic, mbind, outcome_bind.
    destruct (walkNodes _ Exprs) as [[[ss ts] [e |]] | msg] eqn:E; auto with avoids.
    apply avoids_fail_with. by eapply walkNodes_avoids.
  - unfold walkCall, mbind, outcome_bind.
    destruct (walkNodes _ Args) as [[[ss ts] [e |]] | msg] eqn:E; auto with avoids.
    + apply avoids_fail_with. by eapply walkNodes_avoids.
    + unfold index. repeat (case_match; simpl; auto with avoids).
  - unfold walkConditional, mbind, outcome_bind.
    destruct (walkNode X g c) as [[[s1 t1] [e1 |]] | msg] eqn:E1; auto with avoids.
    { apply avoids_fail_with. by eapply IHc. }
    destruct (walkNode X g t) as [[[s2 t2] [e2 |]] | msg] eqn:E2; auto with avoids.
    { apply avoids_fail_with. by eapply IHt. }
    destruct (walkNode X g f) as [[[s3 t3] [e3 |]] | msg] eqn:E3; auto with avoids.
    apply avoids_fail_with. by eapply IHf.
  - unfold walkIndex, mbind, outcome_bind.
    destruct (walkNode X g Target) as [[[s1 t1] [e1 |]] | msg] eqn:E1; auto with avoids.
    { apply avoids_fail_with. by eapply IHt. }
    destruct (walkNode X g Key) as [[[s2 t2] [e2 |]] | msg] eqn:E2; auto with avoids.
    apply avoids_fail_with. by eapply IHk.
  - unfold walkLiteral. destruct Typex; auto with avoids.
  - unfold walkOutput, mbind, outcome_bind.
    destruct (walkNodes _ Exprs) as [[[ss ts] [e |]] | msg] eqn:E; auto with avoids.
    apply avoids_fail_with. by eapply walkNodes_avoids.
  - apply walkVariableAccess_avoids.
  - auto with avoids.
Qed.

Lemma slice_elements_avoids s indent elemSch :
  Forall (fun v => forall i sch, avoids (computeProperty X g v i sch)) s ->
  forall buf, avoids (slice_elements (computeProperty X g) s indent elemSch buf).
Proof.
  induction 1 as [| v s Hv _ IH]; intros buf; simpl; auto with avoids.
  unfold mbind, outcome_bind.
  destruct (computeProperty X g v _ elemSch) as [[[elem elemTyp] [e |]] | msg] eqn:E;
    auto with avoids.
  apply avoids_fail_with. by eapply Hv.
Qed.

Lemma property_at_avoids m k propIndent propSch :
  Forall (fun kv => forall i sch, avoids (computeProperty X g kv.2 i sch)) m ->
  avoids (property_at (computeProperty X g) m k propIndent propSch).
Proof.
  induction 1 as [| [k' v] m Hv _ IH]; simpl; auto with avoids.
  destruct (String.eqb k k'); auto.
Qed.

Lemma map_properties_avoids m keys indent sch :
  Forall (fun kv => forall i sch, avoids (computeProperty X g kv.2 i sch)) m ->
  forall buf, avoids (map_properties X (computeProperty X g) m keys indent sch buf).
Proof.
  intros Hm. induction keys as [| k keys IH]; intros buf; simpl; auto with avoids.
  unfold mbind, outcome_bind.
  destruct (property_at _ m k _ _) as [[[prop propTyp] [e |]] | msg] eqn:E;
    auto with avoids.
  - apply avoids_fail_with. by eapply property_at_avoids.
  - destruct (tsName X k _ _ true) as [name | msg']; auto with avoids.
Qed.

Lemma computeProperty_avoids v : forall indent sch,
  avoids (computeProperty X g v indent sch).
Proof.
  induction v as [ | n | b | z | f | s | s IH | m IH | k tv tq ]
    using value_nested_ind; intros indent sch; simpl; auto with avoids.
  - apply walkNode_avoids.
  - unfold computeSliceProperty.
    destruct (IsMaxItemsOne X (tf sch) (pulumi sch)).
    + destruct IH as [| v s Hv [| v' s' _ _]]; auto with avoids.
    + by apply slice_elements_avoids.
  - by apply map_properties_avoids.
  - destruct k; auto with avoids.
Qed.

End Unreachable.

(** C10: on a value that is not an expression node and whose kind is none
    of bool, int, float64, string, slice and map, [computeProperty] does
    not return: it panics (the assertion of [contract.Failf], or, on the
    nil interface, the call [Type()] in its arguments).  The error of the
    return statement after the assertion is returned on no value. *)
Theorem computeProperty_unsupported_kind (X : Externals) (g : nodeGenerator)
    (v : value) (indent : string) (sch : schemas) :
  is_ast_node v = false ->
  KindOf v <> reflect.Bool -> KindOf v <> reflect.Int ->
  KindOf v <> reflect.Float64 -> KindOf v <> reflect.String ->
  KindOf v <> reflect.Slice -> KindOf v <> reflect.Map ->
  (exists msg, computeProperty X g v indent sch = Panics msg)
  /\ (v <> VNil ->
      computeProperty X g v indent sch = Panics "unexpected property type")
  /\ (forall v' indent' sch' s t,
        computeProperty X g v' indent' sch'
        <> Returns (s, t, Some unexpected_property_type)).
Proof.
  intros Hnode Hbool Hint Hfloat Hstr Hslice Hmap.
  assert (Hlast : forall v' indent' sch' s t,
             computeProperty X g v' indent' sch'
             <> Returns (s, t, Some unexpected_property_type)).
  { intros v' indent' sch' s t E.
    by apply (computeProperty_avoids X g v' indent' sch' s t _ E). }
  destruct v as [ | n | b | z | f | s | s | m | k tv tq ]; simpl in *;
    try congruence.
  - split; [by eexists | split; [congruence | exact Hlast]].
  - destruct k; try congruence;
      (split; [by eexists | split; [reflexivity | exact Hlast]]).
Qed.

Lemma computeProperty_unsupported_kind_witness :
  computeProperty example_externals example_generator
    (VOther reflect.Struct "{}" "{}") EmptyString schemas_zero
  = Panics "unexpected property type".
Proof.
  apply (computeProperty_unsupported_kind example_externals example_generator
           (VOther reflect.Struct "{}" "{}") EmptyString schemas_zero);
    solve [reflexivity | discriminate].
Defined.

(** ** Variable references *)





(** ** Resource references *)

Section ResourceReferences.

Variable X : Externals.

Lemma walk_elements_cons sch e rest :
  walk_elements X sch (e :: rest)
  = name ← TerraformToPulumiName X e (tf (propertySchemas sch e)) false;
    '(out, schN) ← walk_elements X (propertySchemas sch e) rest;
    Returns (name :: out, schN).
Proof. reflexivity. Qed.

(** The walk over the field path reads the source views only: the
    override view of the schemas it starts from has no effect on the
    translated elements nor on the type it ends in. *)
Lemma walk_elements_override_free elements : forall sch sch',
  tfRes sch = tfRes sch' ->
  walks_alike elements (walk_elements X sch elements) (walk_elements X sch' elements).
Proof.
  induction elements as [| e rest IH]; intros sch sch' Hres.
  - split; [reflexivity | congruence].
  - assert (Htf : tf (propertySchemas sch e) = tf (propertySchemas sch' e))
      by (unfold propertySchemas; simpl; by rewrite Hres).
    assert (Hr : tfRes (propertySchemas sch e) = tfRes (propertySchemas sch' e))
      by (unfold propertySchemas; simpl; by rewrite Hres).
    specialize (IH _ _ Hr).
    rewrite !walk_elements_cons, Htf.
    destruct (TerraformToPulumiName X e _ false) as [name | msg]; simpl; [| done].
    destruct rest as [| e' rest'].
    + simpl. split; [done |]. intros _. unfold astType. by rewrite Htf, Hr.
    + unfold walks_alike in IH.
      destruct (walk_elements X (propertySchemas sch e) (e' :: rest'))
        as [[out schN] | msg],
        (walk_elements X (propertySchemas sch' e) (e' :: rest'))
        as [[out' schN'] | msg']; simpl; try done.
      destruct IH as [-> IH]. split; [done |]. intros _. by apply IH.
Qed.

(** What the walker returns on a reference to a property of a single
    resource of the graph: the binding name, a dot, the elements of the
    field path translated by [TerraformToPulumiName], and the lattice
    type of the schemas the walk ends in. *)
Lemma walkVariableAccess_resource g Name v gr rp sch :
  NewInterpolatedVariable X Name = inl (ResourceVariable_ v) ->
  rv_Multi v = false ->
  graph_ g = Some gr ->
  assoc (ResourceId X v) (resources gr) = Some rp ->
  resource_schemas (resource_at gr rp) (rv_Type v) = Returns sch ->
  walkNode X g (VariableAccess Name)
  = '(elements, sch') ← walk_elements X sch (Split (rv_Field v) "."%char);
    Returns (resName (rv_Type v) (rv_Name v) +:+ "." +:+ Join elements ".",
             astType sch', None).
Proof.
  intros Hparse Hmulti Hgr Hres Hsch. simpl. unfold walkVariableAccess, the_graph.
  rewrite Hparse, Hmulti, Hgr. simpl. by rewrite Hres, Hsch.
Qed.

End ResourceReferences.

(** C5, evaluated where the code departs from it: the property [ami] of
    the resource type has a target override with the explicit name
    [imageId].  The name-translation rule [tsName] yields [imageId], and
    the serializer writes the property under that key; the walker
    renders the reference to the same property as [ami], the result of
    [TerraformToPulumiName], without consulting the override.  The result
    type is the lattice type of the final schemas of the walk. *)
Theorem walkVariableAccess_override_ignored :
  walkNode example_externals example_nodeGenerator
    (VariableAccess "aws_instance.web.ami")
  = Returns ("aws_instance_web.ami", ast.TypeString, None)
  /\ tsName example_externals "ami"
       (tf (propertySchemas example_resource_schemas "ami"))
       (pulumi (propertySchemas example_resource_schemas "ami")) false
     = Returns "imageId"
  /\ computeProperty example_externals example_nodeGenerator
       (VMap [("ami", VString "ami-1234")]) EmptyString example_resource_schemas
     = Returns ("{" +:+ nl +:+ "    imageId: " +:+ quoted "ami-1234" +:+ ","
                    +:+ nl +:+ "}",
                ast.TypeMap, None)
  /\ astType (propertySchemas example_resource_schemas "ami") = ast.TypeString.
Proof. repeat split. Qed.

(** ** Determinism of the serializer *)

Lemma String_compare_OT (a b : string) :
  String.compare a b = String_as_OT.compare a b.
Proof.
  revert b. induction a as [| c a IH]; intros [| d b]; reflexivity.
Qed.

Lemma string_le_lt_eq (a b : string) :
  string_le a b <-> String_as_OT.lt a b \/ a = b.
Proof.
  unfold string_le, String.leb. rewrite String_compare_OT.
  destruct (String_as_OT.compare_spec a b) as [Heq | Hlt | Hgt].
  - split; [by right | done].
  - split; [by left | done].
  - split; [done |]. intros [Hlt | ->].
    + exfalso. eapply (irreflexivity String_as_OT.lt). by etransitivity.
    + exfalso. by eapply (irreflexivity String_as_OT.lt).
Qed.

#[global] Instance string_le_trans : Transitive string_le.
Proof.
  intros a b c. rewrite !string_le_lt_eq.
  intros [Hab | ->] [Hbc | ->]; auto. left. by etransitivity.
Qed.

#[global] Instance string_le_antisymm : AntiSymm (=) string_le.
Proof. intros a b. apply String.leb_antisym. Qed.

#[global] Instance string_le_total : Total string_le.
Proof. intros a b. apply String.leb_total. Qed.

(** The keys come out sorted, each key once per entry. *)
Lemma sortedKeys_Sorted {A : Type} (m : list (string * A)) :
  Sorted string_le (sortedKeys m).
Proof. apply (Sorted_merge_sort string_le). Qed.

Lemma sortedKeys_Permutation {A : Type} (m : list (string * A)) :
  sortedKeys m ≡ₚ m.*1.
Proof. apply (merge_sort_Permutation string_le). Qed.

(** The sorted keys depend on the set of keys, not on their order. *)
Lemma sortedKeys_order_free {A B : Type} (m1 : list (string * A))
    (m2 : list (string * B)) :
  m1.*1 ≡ₚ m2.*1 -> sortedKeys m1 = sortedKeys m2.
Proof.
  intros Hperm. apply (Sorted_unique string_le); try apply sortedKeys_Sorted.
  by rewrite !sortedKeys_Permutation.
Qed.

Lemma assoc_Some_elem_of {A : Type} (k : string) (a : A) (m : list (string * A)) :
  NoDup m.*1 -> (assoc k m = Some a <-> (k, a) ∈ m).
Proof.
  induction m as [| [k' a'] m IH]; simpl; intros Hnd.
  - split; [discriminate | by intros ?%elem_of_nil].
  - apply NoDup_cons in Hnd as [Hk' Hnd]. rewrite elem_of_cons.
    destruct (String.eqb_spec k k') as [-> | Hne].
    + split; [intros [= ->]; by left |].
      intros [[= ->] | Hin]; [done |].
      exfalso. apply Hk'. apply (list_elem_of_fmap_2 fst _ (k', a)). exact Hin.
    + rewrite (IH Hnd). split; [by right |]. intros [[= -> ->] | Hin]; done.
Qed.

Lemma assoc_None_not_elem_of {A : Type} (k : string) (m : list (string * A)) :
  assoc k m = None <-> k ∉ m.*1.
Proof.
  induction m as [| [k' a'] m IH]; simpl.
  - split; [intros _ ?%elem_of_nil; done | done].
  - rewrite not_elem_of_cons. destruct (String.eqb_spec k k') as [-> | Hne].
    + split; [discriminate | by intros [? _]].
    + rewrite IH. tauto.
Qed.

(** A lookup does not depend on the order of the entries. *)
Lemma assoc_order_free {A : Type} (k : string) (m1 m2 : list (string * A)) :
  NoDup m1.*1 -> m1 ≡ₚ m2 -> assoc k m1 = assoc k m2.
Proof.
  intros Hnd Hperm.
  assert (Hnd2 : NoDup m2.*1) by (by rewrite <- Hperm).
  destruct (assoc k m1) as [a |] eqn:E1.
  - symmetry. apply assoc_Some_elem_of; [done |]. rewrite <- Hperm.
    by apply assoc_Some_elem_of.
  - symmetry. apply assoc_None_not_elem_of. rewrite <- Hperm.
    by apply assoc_None_not_elem_of.
Qed.

Section Determinism.

Variable X : Externals.
Variable g : nodeGenerator.

Lemma property_at_assoc cp m k propIndent propSch :
  property_at cp m k propIndent propSch
  = match assoc k m with
    | Some v => cp v propIndent propSch
    | None => Panics zero_Value_Type_panic
    end.
Proof.
  induction m as [| [k' v] m IH]; simpl; [reflexivity |].
  by destruct (String.eqb k k').
Qed.

(** The loop over the keys reads the map through its lookups only. *)
Lemma map_properties_ext cp m1 m2 keys indent sch :
  (forall k i s, property_at cp m1 k i s = property_at cp m2 k i s) ->
  forall buf,
    map_properties X cp m1 keys indent sch buf
    = map_properties X cp m2 keys indent sch buf.
Proof.
  intros Hext. induction keys as [| k keys IH]; intros buf; simpl; [reflexivity |].
  rewrite Hext. unfold mbind, outcome_bind.
  destruct (property_at cp m2 k _ _) as [[[prop propTyp] [e |]] | msg]; auto.
  destruct (tsName X k _ _ true) as [name | msg]; auto.
Qed.

Lemma String_append_assoc (a b c : string) :
  (a +:+ b) +:+ c = a +:+ (b +:+ c).
Proof.
  induction a as [| x a IH]; [reflexivity |].
  change (String x ((a +:+ b) +:+ c) = String x (a +:+ (b +:+ c))).
  by rewrite IH.
Qed.

(** The text the loop over the keys writes when every value serializes
    and every key translates: one line per key, in the order of the
    keys. *)
Lemma map_properties_closed cp m (res : string -> string * ast.Type_)
    (names : string -> string) keys indent sch :
  (forall k, k ∈ keys ->
     property_at cp m k (indent +:+ "    ") (propertySchemas sch k)
     = Returns ((res k).1, (res k).2, None)) ->
  (forall k, k ∈ keys -> key_name X sch k = Returns (names k)) ->
  forall buf,
    map_properties X cp m keys indent sch buf
    = Returns (buf +:+ concat_lines
                         ((fun k => map_line indent sch k (names k) (res k)) <$> keys)
                   +:+ nl +:+ indent +:+ "}",
               ast.TypeMap, None).
Proof.
  induction keys as [| k keys IH]; intros Hkeys Hnames buf.
  - reflexivity.
  - cbn [map_properties]. cbv zeta. rewrite Hkeys by (by left).
    pose proof (Hnames k ltac:(by left)) as Hname. unfold key_name in Hname.
    cbn [mbind outcome_bind]. rewrite Hname. cbn [mbind outcome_bind fst snd].
    rewrite IH.
    + do 3 f_equal. unfold map_line, concat_lines.
      cbn [fmap list_fmap fold_right]. by rewrite !String_append_assoc.
    + intros k' Hk'. apply Hkeys. by right.
    + intros k' Hk'. apply Hnames. by right.
Qed.

(** A mapping serializes to the same result in any iteration order. *)
Lemma computeMapProperty_order_free cp m1 m2 indent sch :
  NoDup m1.*1 -> m1 ≡ₚ m2 ->
  computeMapProperty X cp m1 indent sch = computeMapProperty X cp m2 indent sch.
Proof.
  intros Hnd Hperm. unfold computeMapProperty.
  rewrite (sortedKeys_order_free m1 m2) by (by rewrite Hperm).
  apply map_properties_ext. intros k i s.
  by rewrite !property_at_assoc, (assoc_order_free k m1 m2).
Qed.

Lemma slice_elements_same s1 s2 indent elemSch :
  Forall2 (fun v1 v2 => forall i sch,
             computeProperty X g v1 i sch = computeProperty X g v2 i sch) s1 s2 ->
  forall buf,
    slice_elements (computeProperty X g) s1 indent elemSch buf
    = slice_elements (computeProperty X g) s2 indent elemSch buf.
Proof.
  induction 1 as [| v1 v2 s1 s2 Hv _ IH]; intros buf; simpl; [reflexivity |].
  rewrite Hv. unfold mbind, outcome_bind.
  destruct (computeProperty X g v2 _ elemSch) as [[[elem elemTyp] [e |]] | msg]; auto.
Qed.

Lemma property_at_same m1 m2 k propIndent propSch :
  Forall2 (fun kv1 kv2 => kv1.1 = kv2.1 /\ forall i sch,
             computeProperty X g kv1.2 i sch = computeProperty X g kv2.2 i sch)
          m1 m2 ->
  property_at (computeProperty X g) m1 k propIndent propSch
  = property_at (computeProperty X g) m2 k propIndent propSch.
Proof.
  induction 1 as [| [k1 v1] [k2 v2] m1 m2 [Hk Hv] _ IH]; simpl; [reflexivity |].
  simpl in Hk, Hv. subst k2. destruct (String.eqb k k1); auto.
Qed.

Lemma computeProperty_same v1 : forall v2 indent sch,
  same_value v1 v2 ->
  computeProperty X g v1 indent sch = computeProperty X g v2 indent sch.
Proof.
  induction v1 as [ | n | b | z | f | s | s1 IH | m1 IH | k tv tq ]
    using value_nested_ind; intros v2 indent sch Hsame;
    inversion Hsame as [ v | ? s2 Hs | ? m' m2 Hnd Hm Hperm ]; subst;
    try reflexivity.
  - (* slices *)
    simpl. unfold computeSliceProperty.
    assert (Hall : Forall2 (fun v1 v2 => forall i sch,
               computeProperty X g v1 i sch = computeProperty X g v2 i sch) s1 s2).
    { clear Hsame. induction Hs as [| v1 v2 s1 s2 Hv Hs IHs]; constructor.
      - intros i sch'. apply (Forall_inv IH). exact Hv.
      - apply IHs. exact (Forall_inv_tail IH). }
    destruct (IsMaxItemsOne X (tf sch) (pulumi sch)).
    + destruct Hall as [| v1 v2 ? ? Hv [| v1' v2' ? ? _ _]]; auto.
    + by apply slice_elements_same.
  - (* maps *)
    simpl.
    assert (Hall : Forall2 (fun kv1 kv2 => kv1.1 = kv2.1 /\ forall i sch,
               computeProperty X g kv1.2 i sch = computeProperty X g kv2.2 i sch)
              m1 m').
    { clear Hsame Hnd Hperm. induction Hm as [| kv1 kv2 m1 m' [Hk Hv] Hm IHm];
        constructor.
      - split; [exact Hk |]. intros i sch'. apply (Forall_inv IH). exact Hv.
      - apply IHm. exact (Forall_inv_tail IH). }
    assert (Hkeys : m1.*1 = m'.*1).
    { clear -Hall. induction Hall as [| ? ? ? ? [Hk _] _ IHm]; csimpl;
        [done | by f_equal]. }
    transitivity (computeMapProperty X (computeProperty X g) m' indent sch).
    + unfold computeMapProperty.
      rewrite (sortedKeys_order_free m1 m') by (by rewrite Hkeys).
      apply map_properties_ext. intros k i s. by apply property_at_same.
    + apply computeMapProperty_order_free; [by rewrite <- Hkeys | done].
Qed.

End Determinism.

(** C7: the serializer is a function of the value and the schemas, and a
    value gives the same result (same text, same type, same error or
    panic) in whatever order its maps, at any depth, are iterated.  The
    text of a mapping holds its keys in sorted order whatever the order
    of the entries: the sorted keys are in order and are the keys of the
    mapping, each once per entry, and when every value serializes and
    every key translates, the text is the opening brace, one line per
    sorted key, in that order, holding the translated key and the
    coerced value, and the closing brace. *)
Theorem serialization_deterministic (X : Externals) (g : nodeGenerator) :
  (forall v1 v2 indent sch,
     same_value v1 v2 ->
     computeProperty X g v1 indent sch = computeProperty X g v2 indent sch)
  /\ (forall m1 m2 indent sch,
        NoDup m1.*1 -> m1 ≡ₚ m2 ->
        computeMapProperty X (computeProperty X g) m1 indent sch
        = computeMapProperty X (computeProperty X g) m2 indent sch)
  /\ (forall m : list (string * value),
        Sorted string_le (sortedKeys m) /\ sortedKeys m ≡ₚ m.*1)
  /\ (forall m indent sch (res : string -> string * ast.Type_)
             (names : string -> string),
        (forall k v, assoc k m = Some v ->
           computeProperty X g v (indent +:+ "    ") (propertySchemas sch k)
           = Returns ((res k).1, (res k).2, None)) ->
        (forall k, k ∈ m.*1 -> key_name X sch k = Returns (names k)) ->
        computeProperty X g (VMap m) indent sch
        = Returns ("{" +:+ concat_lines
                             ((fun k => map_line indent sch k (names k) (res k))
                                <$> sortedKeys m)
                       +:+ nl +:+ indent +:+ "}",
                   ast.TypeMap, None)).
Proof.
  split; [| split; [| split]].
  - intros v1 v2 indent sch. apply computeProperty_same.
  - intros m1 m2 indent sch. apply computeMapProperty_order_free.
  - intros m. split; [apply sortedKeys_Sorted | apply sortedKeys_Permutation].
  - intros m indent sch res names Hall Hnames. simpl. unfold computeMapProperty.
    apply map_properties_closed.
    + intros k Hk. rewrite property_at_assoc.
      destruct (assoc k m) as [v |] eqn:E; [by apply Hall |].
      apply assoc_None_not_elem_of in E. destruct E.
      by rewrite <- (sortedKeys_Permutation m).
    + intros k Hk. apply Hnames. by rewrite <- (sortedKeys_Permutation m).
Qed.

Lemma serialization_deterministic_witness :
  computeProperty example_externals example_generator
    (VMap [("b", VBool true); ("a", VSlice [VMap [("d", VInt 1); ("c", VInt 2)]])])
    EmptyString schemas_zero
  = computeProperty example_externals example_generator
      (VMap [("a", VSlice [VMap [("c", VInt 2); ("d", VInt 1)]]); ("b", VBool true)])
      EmptyString schemas_zero
  /\ sortedKeys [("b", VBool true); ("a", VInt 1)] = ["a"; "b"]
  /\ computeProperty example_externals example_nodeGenerator
       (VMap [("b", VBool true); ("ami", VString "x")]) EmptyString
       example_resource_schemas
     = Returns ("{" +:+ nl +:+ "    imageId: " +:+ quoted "x" +:+ ","
                    +:+ nl +:+ "    b: true," +:+ nl +:+ "}",
                ast.TypeMap, None).
Proof.
  destruct (serialization_deterministic example_externals example_generator)
    as (Hsame & _).
  destruct (serialization_deterministic example_externals example_nodeGenerator)
    as (_ & _ & _ & Hclosed).
  split; [| split; [reflexivity |]].
  - apply Hsame.
    apply same_value_map
      with (m' := [("b", VBool true);
                   ("a", VSlice [VMap [("c", VInt 2); ("d", VInt 1)]])]).
    + apply (bool_decide_unpack _). reflexivity.
    + constructor; [split; [reflexivity | apply same_value_refl] |].
      constructor; [| constructor].
      split; [reflexivity |]. apply same_value_slice.
      constructor; [| constructor].
      apply same_value_map with (m' := [("d", VInt 1); ("c", VInt 2)]).
      * apply (bool_decide_unpack _). reflexivity.
      * constructor; [split; [reflexivity | apply same_value_refl] |].
        constructor; [split; [reflexivity | apply same_value_refl] | constructor].
      * apply perm_swap.
    + apply perm_swap.
  - apply (Hclosed [("b", VBool true); ("ami", VString "x")] EmptyString
             example_resource_schemas
             (fun k => if String.eqb k "b" then ("true", ast.TypeBool)
                       else (quoted "x", ast.TypeString))
             (fun k => if String.eqb k "b" then "b" else "imageId")).
    + intros k v. simpl.
      destruct (String.eqb k "b"); [by intros [= <-] |].
      destruct (String.eqb k "ami"); [by intros [= <-] | discriminate].
    + intros k Hk. simpl in Hk.
      apply elem_of_cons in Hk as [-> | Hk]; [reflexivity |].
      apply list_elem_of_singleton in Hk as ->. reflexivity.
Defined.

(** ** The emitter: steps and their effect on the log *)

Section EmitterSteps.

Context {W : Type} {lang : generator W}.
Variable gr : graph.

Lemma emit_bind_Done {A B : Type} (c : emit W A) (k : A -> emit W B) s s' b :
  emit_bind c k s = (s', Done b) ->
  exists s1 a, c s = (s1, Done a) /\ k a s1 = (s', Done b).
Proof.
  unfold emit_bind. destruct (c s) as [s1 [a | e | msg |]]; intros H;
    simplify_eq; eauto.
Qed.

Lemma for_each_cons_Done {A : Type} (body : A -> emit W unit) x xs s s' :
  for_each body (x :: xs) s = (s', Done tt) ->
  exists s1, body x s = (s1, Done tt) /\ for_each body xs s1 = (s', Done tt).
Proof.
  simpl. intros (s1 & [] & H1 & H2)%emit_bind_Done. eauto.
Qed.

Lemma for_each_cons {A : Type} (body : A -> emit W unit) x xs s :
  for_each body (x :: xs) s
  = match body x s with
    | (s1, Done _) => for_each body xs s1
    | (s1, Failed e) => (s1, Failed e)
    | (s1, Panicked msg) => (s1, Panicked msg)
    | (s1, OutOfFuel) => (s1, OutOfFuel)
    end.
Proof. reflexivity. Qed.

Lemma quiet_refl (s : emitter W) : quiet s s.
Proof.
  exists []. split; [by rewrite app_nil_r | intros os Hin; by apply elem_of_nil in Hin].
Qed.

Lemma quiet_trans (s1 s2 s3 : emitter W) :
  quiet s1 s2 -> quiet s2 s3 -> quiet s1 s3.
Proof.
  intros (l1 & E1 & H1) (l2 & E2 & H2). exists (l1 ++ l2). split.
  - by rewrite E2, E1, app_assoc.
  - intros os [Hin | Hin]%elem_of_app; [by apply (H1 os) | by apply (H2 os)].
Qed.

Lemma quiet_ret {A : Type} (a : A) : quiet_step (emit_ret (W := W) a).
Proof. intros s s' r [= <- _]. apply quiet_refl. Qed.

Lemma quiet_fail {A : Type} e : quiet_step (emit_fail (W := W) (A := A) e).
Proof. intros s s' r [= <- _]. apply quiet_refl. Qed.

Lemma quiet_bind {A B : Type} (c : emit W A) (k : A -> emit W B) :
  quiet_step c -> (forall a, quiet_step (k a)) -> quiet_step (emit_bind c k).
Proof.
  intros Hc Hk s s' r. unfold emit_bind.
  destruct (c s) as [s1 [a | e | msg |]] eqn:E; intros H.
  - eapply quiet_trans; [by eapply Hc | by eapply Hk].
  - injection H as <- _. by eapply Hc.
  - injection H as <- _. by eapply Hc.
  - injection H as <- _. by eapply Hc.
Qed.

Lemma quiet_for_each {A : Type} (body : A -> emit W unit) xs :
  (forall x, quiet_step (body x)) -> quiet_step (for_each body xs).
Proof.
  intros Hbody. induction xs as [| x xs IH]; simpl.
  - apply quiet_ret.
  - apply quiet_bind; auto.
Qed.

Lemma quiet_call ev hook :
  (forall os, ev <> EvOutputs os) -> quiet_step (call (W := W) ev hook).
Proof.
  intros Hev s s' r. unfold call. destruct (hook (world s)) as [w hr].
  intros H. exists [ev]. split.
  - destruct hr; by injection H as <- _.
  - intros os Hin. apply list_elem_of_singleton in Hin. by eapply Hev.
Qed.

Lemma quiet_mark_done n : quiet_step (mark_done (W := W) n).
Proof.
  intros s s' r [= <- _]. exists []. split; [by rewrite app_nil_r |].
  intros os Hin; by apply elem_of_nil in Hin.
Qed.

Lemma quiet_generateNode fuel : forall n, quiet_step (generateNode gr fuel n).
Proof.
  induction fuel as [| fuel IH]; intros n s s' r; simpl.
  - intros [= <- _]. apply quiet_refl.
  - destruct (decide (n ∈ done s)); [intros [= <- _]; apply quiet_refl |].
    apply quiet_bind; [by apply quiet_for_each |]. intros _.
    apply quiet_bind; [| intros _; apply quiet_mark_done].
    destruct n; try apply quiet_fail; by apply quiet_call.
Qed.

Lemma quiet_generate_locals fuel ls : forall todo,
  quiet_step (generate_locals gr fuel ls todo).
Proof.
  induction ls as [| l ls IH]; intros todo; simpl; [apply quiet_ret |].
  destruct (Nat.eqb _ 0); [| apply IH].
  apply quiet_bind; [apply quiet_generateNode | intros _; apply IH].
Qed.

Lemma quiet_generate_resources fuel rs : forall todo,
  quiet_step (generate_resources gr fuel rs todo).
Proof.
  induction rs as [| r rs IH]; intros todo; simpl; [apply quiet_ret |].
  destruct (Nat.eqb _ 0); [| apply IH].
  apply quiet_bind; [apply quiet_generateNode | intros _; apply IH].
Qed.

Lemma quiet_check_providers : quiet_step (check_providers (W := W) gr).
Proof.
  apply quiet_for_each. intros p. apply quiet_for_each. intros d.
  destruct (is_variableNode d); [apply quiet_ret | apply quiet_fail].
Qed.

Lemma quiet_mark_variables : quiet_step (mark_variables (W := W) gr).
Proof.
  intros s s' r [= <- _]. exists []. split; [by rewrite app_nil_r |].
  intros os Hin; by apply elem_of_nil in Hin.
Qed.

Lemma quiet_generate_nodes fuel : quiet_step (generate_nodes gr fuel).
Proof.
  unfold generate_nodes.
  apply quiet_bind; [apply quiet_check_providers | intros _].
  apply quiet_bind; [by apply quiet_call | intros _].
  apply quiet_bind; [by apply quiet_call | intros _].
  apply quiet_bind; [apply quiet_mark_variables | intros _].
  apply quiet_bind; [apply quiet_generate_locals | intros todo].
  apply quiet_bind; [apply quiet_generate_resources | intros todo'].
  apply quiet_for_each, quiet_generateNode.
Qed.

(** The check of one output's dependencies leaves the state alone; it
    passes when all are in [done] and fails on the first that is not. *)
Lemma check_deps_spec (ds : list node) (s : emitter W) :
  let c := for_each (fun d => fun s : emitter W =>
             if decide (d ∈ done s) then (s, Done tt)
             else (s, Failed (ErrUnsatisfiedDependency d))) ds in
  (c s = (s, Done tt) /\ (forall d, d ∈ ds -> d ∈ done s))
  \/ (exists d, d ∈ ds /\ (d ∉ done s)
                /\ c s = (s, Failed (ErrUnsatisfiedDependency d))).
Proof.
  induction ds as [| d ds IH]; cbv zeta in *.
  - left. split; [reflexivity |]. intros d Hin; by apply elem_of_nil in Hin.
  - rewrite !for_each_cons. destruct (decide (d ∈ done s)) as [Hin | Hout].
    + destruct IH as [[E Hall] | (d' & Hd' & Hout & E)].
      * left. split; [exact E |]. intros d0 [-> | H0]%elem_of_cons; auto.
      * right. exists d'. split; [by right | by split].
    + right. exists d. split; [by left | by split].
Qed.

Lemma check_outputs_spec (s : emitter W) :
  (check_outputs gr s = (s, Done tt)
   /\ (forall o d, o ∈ outputs gr -> d ∈ o_deps (output_at gr o) -> d ∈ done s))
  \/ (exists o d, o ∈ outputs gr /\ d ∈ o_deps (output_at gr o) /\ (d ∉ done s)
        /\ check_outputs gr s = (s, Failed (ErrUnsatisfiedDependency d))).
Proof.
  unfold check_outputs. induction (outputs gr) as [| o os IH].
  - left. split; [reflexivity |]. intros o d Hin; by apply elem_of_nil in Hin.
  - rewrite !for_each_cons.
    destruct (check_deps_spec (o_deps (output_at gr o)) s)
      as [[E Hall] | (d & Hd & Hout & E)]; cbv zeta in E; rewrite E.
    + destruct IH as [[E' Hall'] | (o' & d' & Ho' & Hd' & Hout' & E')].
      * left. split; [exact E' |]. intros o0 d0 [-> | H0]%elem_of_cons; eauto.
      * right. exists o', d'. split; [by right | by repeat split].
    + right. exists o, d. split; [by left | by repeat split].
Qed.

End EmitterSteps.

(** ** Outputs and unsatisfied dependencies *)

(** C4 as stated fails: the graph below has an output with a dependency
    that is in no done-set, yet [generate] returns, whatever the fuel,
    the error of the provider validation, which is not the
    unsatisfied-dependency error. *)
Lemma unsatisfied_dependency_counterexample :
  (exists o d, o ∈ outputs example_graph_provider
      /\ d ∈ o_deps (output_at example_graph_provider o)
      /\ (forall fuel,
            d ∉ done (generate (lang := example_lang) example_graph_provider
                       fuel (start [])).1))
  /\ (forall fuel,
        generate (lang := example_lang) example_graph_provider fuel (start [])
        = (start [], Failed (ErrUnsupportedProviderDependency (ResourceNode 0))))
  /\ (forall fuel d,
        (generate (lang := example_lang) example_graph_provider fuel (start [])).2
        <> Failed (ErrUnsatisfiedDependency d)).
Proof.
  assert (Hrun : forall fuel,
    generate (lang := example_lang) example_graph_provider fuel (start [])
    = (start [], Failed (ErrUnsupportedProviderDependency (ResourceNode 0))))
    by reflexivity.
  split; [| split].
  - exists 0, (ResourceNode 7). split; [by left | split; [by left |]].
    intros fuel. rewrite Hrun. simpl. apply not_elem_of_empty.
  - exact Hrun.
  - intros fuel d. rewrite Hrun. discriminate.
Qed.

(** C4, amended: when a run of [generate] ends with an output that has a
    dependency outside the done-set, the run has not succeeded and the
    outputs hook has not been called; and if the emission of the locals
    and resources had completed, [generate] returns the
    unsatisfied-dependency error, for a dependency of an output that is
    not in the done-set. *)
Theorem unsatisfied_output_dependency {W : Type} {lang : generator W}
    (gr : graph) (fuel : nat) (w : W) (s' : emitter W) (r : run unit) :
  generate gr fuel (start w) = (s', r) ->
  (exists o d, o ∈ outputs gr /\ d ∈ o_deps (output_at gr o) /\ (d ∉ done s')) ->
  r <> Done tt
  /\ no_outputs (log s')
  /\ (forall s1, generate_nodes gr fuel (start w) = (s1, Done tt) ->
        s' = s1
        /\ exists o d, o ∈ outputs gr /\ d ∈ o_deps (output_at gr o)
             /\ (d ∉ done s1) /\ r = Failed (ErrUnsatisfiedDependency d)).
Proof.
  intros Hrun (o & d & Ho & Hd & Hout).
  unfold generate in Hrun. unfold emit_bind at 1 in Hrun.
  destruct (generate_nodes gr fuel (start w)) as [s1 r1] eqn:Enodes.
  assert (Hquiet : no_outputs (log s1)).
  { destruct (quiet_generate_nodes gr fuel _ _ _ Enodes) as (l & El & Hl).
    simpl in El. by rewrite El. }
  destruct r1 as [[] | e | msg |].
  - unfold emit_bind at 1 in Hrun.
    destruct (check_outputs_spec gr s1)
      as [[E Hall] | (o' & d' & Ho' & Hd' & Hout' & E)]; rewrite E in Hrun.
    + exfalso. apply Hout.
      unfold call in Hrun. destruct (generateOutputs _ _ _) as [w' hr].
      assert (done s' = done s1) as -> by (destruct hr; by injection Hrun as <- _).
      by eapply Hall.
    + injection Hrun as <- <-. split; [discriminate | split; [exact Hquiet |]].
      intros s0 [= <-]. split; [reflexivity |]. by exists o', d'.
  - injection Hrun as <- <-. by repeat split.
  - injection Hrun as <- <-. by repeat split.
  - injection Hrun as <- <-. by repeat split.
Qed.

Lemma unsatisfied_output_dependency_witness :
  generate (lang := example_lang) example_graph_dangling 3 (start [])
  = ({| world := ["preamble"; "variables"; "aws_instance_web"; "aws_instance_db"];
        log := [EvPreamble; EvVariables [0; 1]; EvResource 0; EvResource 1];
        done := (generate (lang := example_lang) example_graph_dangling 3
                   (start [])).1.(done) |},
     Failed (ErrUnsatisfiedDependency (ResourceNode 7)))
  /\ no_outputs
       (log (generate (lang := example_lang) example_graph_dangling 3 (start [])).1).
Proof.
  split; [vm_compute; reflexivity |].
  apply (unsatisfied_output_dependency (lang := example_lang)
           example_graph_dangling 3 []
           (generate (lang := example_lang) example_graph_dangling 3 (start [])).1
           (generate (lang := example_lang) example_graph_dangling 3 (start [])).2).
  - by destruct (generate _ _ _).
  - exists 0, (ResourceNode 7). split; [by left | split; [by left |]].
    apply (bool_decide_unpack _). vm_compute. reflexivity.
Defined.

(** On a cycle among the resources of the graph the recursion of
    [generateNode] does not end: whatever the fuel, the run is cut off,
    and no error is returned. *)
Lemma generateNode_cycle_cut_off fuel : forall p (s : emitter (list string)),
  (forall q, ResourceNode q ∉ done s) ->
  generateNode (lang := example_lang) example_graph_cycle fuel (ResourceNode p) s
  = (s, OutOfFuel).
Proof.
  induction fuel as [| fuel IH]; intros p s Hs; simpl; [reflexivity |].
  destruct (decide (ResourceNode p ∈ done s)) as [Hin | _]; [by destruct (Hs p) |].
  unfold emit_bind at 1.
  destruct p as [| p]; simpl; unfold emit_bind at 1; by rewrite IH.
Qed.

Lemma generate_cycle_cut_off fuel :
  (generate (lang := example_lang) example_graph_cycle fuel (start [])).2
  = OutOfFuel.
Proof.
  unfold generate, generate_nodes. simpl.
  repeat (unfold emit_bind at 1; simpl).
  rewrite generateNode_cycle_cut_off; [reflexivity |].
  intros q. simpl. rewrite !elem_of_union, !elem_of_singleton, elem_of_empty.
  intros [? | [? | []]]; discriminate.
Qed.


(** ** Topological order of the emission *)



Section Topological.

Context {W : Type} {lang : generator W}.
Variable gr : graph.






Variable rank : node -> nat.
Hypothesis rank_decreases : forall n d, d ∈ dependencies gr n -> rank d < rank n.



End Topological.

Section TopologicalRun.

Context {W : Type} {lang : generator W}.
Variable gr : graph.
Variable rank : node -> nat.
Hypothesis rank_decreases : forall n d, d ∈ dependencies gr n -> rank d < rank n.







(** *** The recursion ends on an acyclic graph *)











End TopologicalRun.

(** *** More fuel does not change a run *)

Section Fuel.

Context {W : Type} {lang : generator W}.
Variable gr : graph.

Lemma agrees_refl {A : Type} (c : emit W A) : agrees c c.
Proof. by intros s s' r H _. Qed.

Lemma agrees_bind {A B : Type} (c c' : emit W A) (k k' : A -> emit W B) :
  agrees c c' -> (forall a, agrees (k a) (k' a)) ->
  agrees (emit_bind c k) (emit_bind c' k').
Proof.
  intros Hc Hk s s' r. unfold emit_bind.
  destruct (c s) as [s1 [a | e | msg |]] eqn:E; intros H Hr.
  - rewrite (Hc _ _ _ E) by discriminate. by apply Hk.
  - rewrite (Hc _ _ _ E) by discriminate. done.
  - rewrite (Hc _ _ _ E) by discriminate. done.
  - by injection H as _ <-.
Qed.

Lemma agrees_for_each {A : Type} (body body' : A -> emit W unit) xs :
  (forall x, agrees (body x) (body' x)) ->
  agrees (for_each body xs) (for_each body' xs).
Proof.
  intros Hbody. induction xs as [| x xs IH]; simpl.
  - apply agrees_refl.
  - apply agrees_bind; auto.
Qed.

Lemma generateNode_more_fuel fuel : forall fuel' n,
  fuel <= fuel' -> agrees (generateNode gr fuel n) (generateNode gr fuel' n).
Proof.
  induction fuel as [| fuel IH]; intros fuel' n Hle s s' r; simpl.
  - intros [= _ <-] Hr. done.
  - destruct fuel' as [| fuel']; [lia |]. simpl.
    destruct (decide (n ∈ done s)); [done |].
    apply agrees_bind; [| intros _; apply agrees_refl].
    apply agrees_for_each. intros d. apply IH. lia.
Qed.

Lemma generate_locals_more_fuel fuel fuel' ls : forall todo,
  fuel <= fuel' ->
  agrees (generate_locals gr fuel ls todo) (generate_locals gr fuel' ls todo).
Proof.
  induction ls as [| l ls IH]; intros todo Hle; simpl; [apply agrees_refl |].
  destruct (Nat.eqb _ 0); [| by apply IH].
  apply agrees_bind; [by apply generateNode_more_fuel | intros _; by apply IH].
Qed.

Lemma generate_resources_more_fuel fuel fuel' rs : forall todo,
  fuel <= fuel' ->
  agrees (generate_resources gr fuel rs todo)
         (generate_resources gr fuel' rs todo).
Proof.
  induction rs as [| r rs IH]; intros todo Hle; simpl; [apply agrees_refl |].
  destruct (Nat.eqb _ 0); [| by apply IH].
  apply agrees_bind; [by apply generateNode_more_fuel | intros _; by apply IH].
Qed.

(** A run that the fuel does not cut off is the run for any larger
    fuel: what [generate] returns does not depend on the bound. *)
Lemma generate_more_fuel fuel fuel' :
  fuel <= fuel' -> agrees (generate gr fuel) (generate gr fuel').
Proof.
  intros Hle. unfold generate, generate_nodes.
  apply agrees_bind; [| intros _; apply agrees_refl].
  do 4 (apply agrees_bind; [apply agrees_refl | intros _]).
  apply agrees_bind; [by apply generate_locals_more_fuel | intros todo].
  apply agrees_bind; [by apply generate_resources_more_fuel | intros todo'].
  apply agrees_for_each. intros n. by apply generateNode_more_fuel.
Qed.

End Fuel.


Lemma emitted_in_mono l l' d : emitted_in l d -> emitted_in (l ++ l') d.
Proof.
  destruct d; simpl; try done.
  - intros (vs & Hin & Hv). exists vs. split; [| done]. apply elem_of_app. by left.
  - intros Hin. apply elem_of_app. by left.
  - intros Hin. apply elem_of_app. by left.
Qed.






(** * Further properties of the code *)

(** ** Binding names *)

Lemma Map_underscore_no_separator (s : string) :
  ContainsAny_seps (Map_underscore s) = false.
Proof.
  induction s as [| c s IH]; simpl; [reflexivity |].
  rewrite IH, orb_false_r. by destruct (is_sep_rune c) eqn:E.
Qed.

(** X1: the binding name [resName] gives a resource holds no space,
    hyphen or dot, and is the type, an underscore and the name
    themselves when these hold none of the three characters. *)
Theorem resName_identifier (typ name : string) :
  ContainsAny_seps (resName typ name) = false
  /\ (ContainsAny_seps (typ +:+ "_" +:+ name) = false ->
      resName typ name = typ +:+ "_" +:+ name).
Proof.
  unfold resName.
  destruct (ContainsAny_seps (typ +:+ "_" +:+ name)) eqn:E.
  - split; [apply Map_underscore_no_separator | discriminate].
  - split; [exact E | done].
Qed.

Lemma resName_identifier_witness :
  resName "aws_instance" "web-1.a" = "aws_instance_web_1_a"
  /\ resName "aws_instance" "web" = "aws_instance" +:+ "_" +:+ "web".
Proof.
  split; [reflexivity |].
  apply (resName_identifier "aws_instance" "web"). reflexivity.
Defined.

(** ** The walk of a list of expressions *)

Section WalkNodes.

Variable X : Externals.
Variable g : nodeGenerator.

(** X2: the walk of a list of nodes succeeds exactly when the walk of
    every node does, and then returns the texts and types of the nodes,
    in order. *)
Theorem walkNodes_success (ns : list Node) (strs : list string)
    (typs : list ast.Type_) :
  walkNodes (walkNode X g) ns = Returns (strs, typs, None)
  <-> Forall3 (fun n s t => walkNode X g n = Returns (s, t, None)) ns strs typs.
Proof.
  revert strs typs. induction ns as [| n ns IH]; intros strs typs; simpl.
  - split.
    + intros [= <- <-]. constructor.
    + intros H. by inversion H.
  - unfold mbind, outcome_bind. split.
    + destruct (walkNode X g n) as [[[s t] [e |]] | msg] eqn:En; try discriminate.
      destruct (walkNodes (walkNode X g) ns) as [[[ss ts] [e |]] | msg] eqn:Ens;
        try discriminate.
      intros [= <- <-]. constructor; [done |]. by apply IH.
    + intros H. inversion H as [| ? s t ? ss ts Hn Hns]; subst.
      apply IH in Hns. by rewrite Hn, Hns.
Qed.

(** X3: the walk of a list of nodes stops at the first node whose walk
    does not succeed: it returns that node's error, with nil lists, or
    panics as that node does; the nodes after it are not walked. *)
Theorem walkNodes_first_failure (pre : list Node) (n : Node) (post : list Node) :
  Forall (fun m => exists s t, walkNode X g m = Returns (s, t, None)) pre ->
  (forall s t e, walkNode X g n = Returns (s, t, Some e) ->
     walkNodes (walkNode X g) (pre ++ n :: post) = Returns ([], [], Some e))
  /\ (forall msg, walkNode X g n = Panics msg ->
        walkNodes (walkNode X g) (pre ++ n :: post) = Panics msg).
Proof.
  induction 1 as [| m pre (s0 & t0 & Hm) _ [IHe IHp]]; simpl.
  - split.
    + intros s t e ->. reflexivity.
    + intros msg ->. reflexivity.
  - rewrite Hm. simpl. split.
    + intros s t e Hn. by rewrite (IHe _ _ _ Hn).
    + intros msg Hn. by rewrite (IHp _ Hn).
Qed.

End WalkNodes.

Lemma walkNodes_first_failure_witness :
  walkNodes (walkNode example_externals example_nodeGenerator)
    [VariableAccess "var.region"; VariableAccess "var.zone"; Call "file" []]
  = Returns ([], [], Some (ErrUnknownVariable "zone")).
Proof.
  apply (walkNodes_first_failure example_externals example_nodeGenerator
           [VariableAccess "var.region"] (VariableAccess "var.zone")
           [Call "file" []]) with (s := EmptyString) (t := ast.TypeInvalid).
  - constructor; [| constructor]. by exists "region", ast.TypeString.
  - reflexivity.
Defined.

(** ** Expressions *)

Section Expressions.

Variable X : Externals.
Variable g : nodeGenerator.

(** X4: an output node with a single sub-expression is transparent: its
    walk is the walk of the sub-expression, text, type, error or panic
    alike. *)
Theorem walkOutput_single (n : Node) :
  walkNode X g (Output [n]) = walkNode X g n.
Proof.
  simpl. unfold walkOutput. simpl. unfold mbind, outcome_bind.
  destruct (walkNode X g n) as [[[s t] [e |]] | msg] eqn:E; simpl; try reflexivity.
  destruct (walkNode_uniform X g n s t e E) as [-> ->]. reflexivity.
Qed.

Lemma astType_valid (sch : schemas) :
  astType sch <> ast.TypeInvalid /\ astType sch <> ast.TypeAny.
Proof.
  unfold astType. destruct (tf sch) as [t |].
  - destruct (schema.Type_of t); by split.
  - destruct (tfRes sch); by split.
Qed.

Lemma walkVariableAccess_valid Name s t :
  walkVariableAccess X g Name = Returns (s, t, None) ->
  t <> ast.TypeInvalid /\ t <> ast.TypeAny.
Proof.
  unfold walkVariableAccess, the_graph, resource_schemas, mbind, outcome_bind.
  repeat (case_match; simpl; try discriminate);
    intros ?; simplify_eq; try (by split); apply astType_valid.
Qed.

Lemma walkNodes_valid ns :
  Forall (fun n => forall s t, walkNode X g n = Returns (s, t, None) ->
                   t <> ast.TypeInvalid /\ t <> ast.TypeAny) ns ->
  forall strs typs,
    walkNodes (walkNode X g) ns = Returns (strs, typs, None) ->
    Forall (fun t => t <> ast.TypeInvalid /\ t <> ast.TypeAny) typs.
Proof.
  intros Hns strs typs Hrun. apply walkNodes_success in Hrun.
  induction Hrun as [| n s t ns strs typs Hn _ IH]; constructor.
  - by eapply (Forall_inv Hns).
  - apply IH. exact (Forall_inv_tail Hns).
Qed.

Lemma walkNode_valid n : forall s t,
  walkNode X g n = Returns (s, t, None) ->
  t <> ast.TypeInvalid /\ t <> ast.TypeAny.
Proof.
  induction n as [ Op Exprs IH | Func Args IH | c tb fb IHc IHt IHf
                 | Target Key IHt IHk | Value Typex | Exprs IH | Name | ]
    using Node_nested_ind; intros s t; simpl.
  - unfold walkArithmetic, mbind, outcome_bind.
    repeat (case_match; simpl; try discriminate). by intros [= <- <-].
  - unfold walkCall, index, mbind, outcome_bind.
    repeat (case_match; simpl; try discriminate); by intros [= <- <-].
  - unfold walkConditional, mbind, outcome_bind.
    destruct (walkNode X g c) as [[[s1 t1] [e1 |]] | msg]; try discriminate.
    destruct (walkNode X g tb) as [[[s2 t2] [e2 |]] | msg] eqn:E2; try discriminate.
    destruct (walkNode X g fb) as [[[s3 t3] [e3 |]] | msg] eqn:E3; try discriminate.
    intros [= <- <-]. destruct (ast.Type_eqb t2 ast.TypeUnknown); eauto.
  - unfold walkIndex, mbind, outcome_bind.
    repeat (case_match; simpl; try discriminate). by intros [= <- <-].
  - unfold walkLiteral. destruct Typex; try discriminate; by intros [= <- <-].
  - unfold walkOutput, mbind, outcome_bind.
    destruct (walkNodes (walkNode X g) Exprs) as [[[ss ts] [e |]] | msg] eqn:E;
      try discriminate.
    pose proof (walkNodes_valid _ IH _ _ E) as Hts.
    destruct Hts as [| t1 [| t2 ts] Ht1 _]; intros [= <- <-];
      [by split | exact Ht1 | by split].
  - apply walkVariableAccess_valid.
  - discriminate.
Qed.

Lemma slice_elements_valid s indent elemSch buf txt t :
  slice_elements (computeProperty X g) s indent elemSch buf = Returns (txt, t, None) ->
  t = ast.TypeList.
Proof.
  revert buf. induction s as [| v s IH]; intros buf; simpl.
  - by intros [= _ <-].
  - unfold mbind, outcome_bind.
    destruct (computeProperty X g v _ elemSch) as [[[elem elemTyp] [e |]] | msg];
      try discriminate. apply IH.
Qed.

Lemma map_properties_valid m keys indent sch buf txt t :
  map_properties X (computeProperty X g) m keys indent sch buf
  = Returns (txt, t, None) ->
  t = ast.TypeMap.
Proof.
  revert buf. induction keys as [| k keys IH]; intros buf; simpl.
  - by intros [= _ <-].
  - unfold mbind, outcome_bind.
    destruct (property_at _ m k _ _) as [[[prop propTyp] [e |]] | msg];
      try discriminate.
    destruct (tsName X k _ _ true) as [name | msg]; [apply IH | discriminate].
Qed.

Lemma computeProperty_valid v : forall indent sch s t,
  computeProperty X g v indent sch = Returns (s, t, None) ->
  t <> ast.TypeInvalid /\ t <> ast.TypeAny.
Proof.
  induction v as [ | n | b | z | f | str | sl IH | m IH | k tv tq ]
    using value_nested_ind; intros indent sch s t; simpl;
    try discriminate; try (by intros [= <- <-]).
  - apply walkNode_valid.
  - unfold computeSliceProperty.
    destruct (IsMaxItemsOne X (tf sch) (pulumi sch)).
    + destruct IH as [| v sl Hv [| v' sl' _ _]]; try discriminate.
      * by intros [= <- <-].
      * apply Hv.
    + intros ->%slice_elements_valid. by split.
  - intros ->%map_properties_valid. by split.
  - destruct k; try discriminate; by intros [= <- <-].
Qed.

End Expressions.

(** X5: a successful walk of an expression and a successful
    serialization of a value never report the type Invalid, nor Any:
    Invalid only ever comes with an error. *)
Theorem success_type_valid (X : Externals) (g : nodeGenerator) :
  (forall n s t,
     walkNode X g n = Returns (s, t, None) ->
     t <> ast.TypeInvalid /\ t <> ast.TypeAny)
  /\ (forall v indent sch s t,
        computeProperty X g v indent sch = Returns (s, t, None) ->
        t <> ast.TypeInvalid /\ t <> ast.TypeAny).
Proof.
  split.
  - intros n. apply walkNode_valid.
  - intros v. apply computeProperty_valid.
Qed.

Lemma success_type_valid_witness :
  walkNode example_externals example_nodeGenerator
    (Conditional (LiteralNode (SBool true) ast.TypeBool)
                 (VariableAccess "var.size") (VariableAccess "var.region"))
  = Returns ("(true ? size : region)", ast.TypeString, None)
  /\ (ast.TypeString <> ast.TypeInvalid /\ ast.TypeString <> ast.TypeAny).
Proof.
  split; [reflexivity |].
  destruct (success_type_valid example_externals example_nodeGenerator) as (H & _).
  apply (H (Conditional (LiteralNode (SBool true) ast.TypeBool)
              (VariableAccess "var.size") (VariableAccess "var.region"))
           "(true ? size : region)" ast.TypeString).
  reflexivity.
Defined.

(** ** References and calls *)

(** X6: a variable name that does not parse fails with the parser's
    error, and a reference of a kind that is not implemented, a
    multi-valued resource reference and a variable reference with an
    element fail with an error that does not depend on the graph: the
    graph is not consulted, whether it is stashed or not. *)
Theorem unsupported_reference_fails (X : Externals) (Name : string) :
  (forall msg, NewInterpolatedVariable X Name = inr msg ->
     forall g, walkNode X g (VariableAccess Name)
               = Returns (EmptyString, ast.TypeInvalid, Some (ErrInterpolation msg)))
  /\ (forall tfVar, NewInterpolatedVariable X Name = inl tfVar ->
        unsupported_reference tfVar ->
        exists e, forall g,
          walkNode X g (VariableAccess Name)
          = Returns (EmptyString, ast.TypeInvalid, Some e)).
Proof.
  split.
  - intros msg Hparse g. simpl. unfold walkVariableAccess. by rewrite Hparse.
  - intros tfVar Hparse Hun. simpl. unfold walkVariableAccess. rewrite Hparse.
    destruct tfVar as [ | | | | r | | | | u | ]; simpl in Hun;
      try (eexists; intros g; reflexivity).
    + rewrite Hun. eexists; intros g; reflexivity.
    + apply String.eqb_neq in Hun. rewrite Hun. eexists; intros g; reflexivity.
Qed.

Lemma unsupported_reference_fails_witness :
  walkNode example_externals example_generator (VariableAccess "count.index")
  = Returns (EmptyString, ast.TypeInvalid, Some (ErrNew "NYI: count variables"))
  /\ walkNode example_externals example_nodeGenerator (VariableAccess "count.index")
     = Returns (EmptyString, ast.TypeInvalid, Some (ErrNew "NYI: count variables"))
  /\ walkNode example_externals example_nodeGenerator
       (VariableAccess "aws_instance.web.*.ami")
     = Returns (EmptyString, ast.TypeInvalid,
                Some (ErrNew "NYI: multi-resource variables")).
Proof.
  destruct (unsupported_reference_fails example_externals "count.index")
    as (_ & H).
  destruct (H CountVariable eq_refl I) as (e & He).
  assert (e = ErrNew "NYI: count variables") as ->.
  { specialize (He example_generator). by injection He as <-. }
  destruct (unsupported_reference_fails example_externals "aws_instance.web.*.ami")
    as (_ & H').
  destruct (H' (ResourceVariable_
                  (mkResourceVariable false "aws_instance" "web" "ami" true (-1)))
               eq_refl eq_refl) as (e' & He').
  assert (e' = ErrNew "NYI: multi-resource variables") as ->.
  { specialize (He' example_generator). by injection He' as <-. }
  split; [apply He | split; [apply He | apply He']].
Defined.

(** X7: once its arguments are walked, a call of a known function does
    not return an error: with fewer arguments than the function reads by
    index the walk panics (the index is out of range), and with at least
    that many it succeeds, the arguments beyond being accepted. *)
Theorem walkCall_arity (X : Externals) (g : nodeGenerator)
    (Func : string) (Args : list Node) (strs : list string)
    (typs : list ast.Type_) :
  walkNodes (walkNode X g) Args = Returns (strs, typs, None) ->
  known_function Func = true ->
  (length strs < min_args Func ->
     exists msg, walkNode X g (Call Func Args) = Panics msg)
  /\ (min_args Func <= length strs ->
        exists s t, walkNode X g (Call Func Args) = Returns (s, t, None)).
Proof.
  intros Hargs Hknown. simpl. unfold walkCall, mbind, outcome_bind.
  rewrite Hargs. unfold known_function in Hknown. unfold min_args, index.
  destruct (String.eqb Func "file") eqn:Efile.
  - destruct strs as [| s0 strs]; simpl; split; intros Hlen;
      try (exfalso; lia); eauto.
  - destruct (String.eqb Func "lookup") eqn:Elookup.
    + destruct strs as [| s0 [| s1 [| s2 [| s3 strs]]]]; simpl; split; intros Hlen;
        try (exfalso; lia); eauto.
    + destruct (String.eqb Func "split") eqn:Esplit; [| discriminate].
      destruct strs as [| s0 [| s1 strs]]; simpl; split; intros Hlen;
        try (exfalso; lia); eauto.
Qed.

Lemma walkCall_arity_witness :
  (exists msg,
     walkNode example_externals example_nodeGenerator (Call "file" []) = Panics msg)
  /\ exists s t,
       walkNode example_externals example_nodeGenerator
         (Call "lookup" [VariableAccess "var.size"; VariableAccess "var.region"])
       = Returns (s, t, None).
Proof.
  split.
  - apply (walkCall_arity example_externals example_nodeGenerator "file" [] [] []);
      [reflexivity | reflexivity | unfold min_args; simpl; lia].
  - apply (walkCall_arity example_externals example_nodeGenerator "lookup"
             [VariableAccess "var.size"; VariableAccess "var.region"]
             ["size"; "region"] [ast.TypeUnknown; ast.TypeString]);
      [reflexivity | reflexivity | unfold min_args; simpl; lia].
Defined.

(** ** Sequence and mapping literals *)

Section Literals.

Variable X : Externals.
Variable g : nodeGenerator.

Lemma slice_elements_closed s rs indent elemSch :
  Forall2 (fun v r => computeProperty X g v (indent +:+ "    ") elemSch
                      = Returns (r.1, r.2, None)) s rs ->
  forall buf,
    slice_elements (computeProperty X g) s indent elemSch buf
    = Returns (buf +:+ concat_lines (slice_line indent elemSch <$> rs)
                   +:+ nl +:+ indent +:+ "]",
               ast.TypeList, None).
Proof.
  induction 1 as [| v [elem elemTyp] s rs Hv _ IH]; intros buf; simpl.
  - reflexivity.
  - simpl in Hv. rewrite Hv. simpl. rewrite IH. do 3 f_equal.
    unfold slice_line at 2. simpl.
    by rewrite !String_append_assoc.
Qed.

(** X8: a sequence that is not collapsed and all of whose elements
    serialize is written as a bracketed literal with one line per
    element, in order, at the deeper indent, each coerced to the element
    type, and has type List; an element of type List is spliced: its
    line is its text behind three dots, uncoerced. *)
Theorem slice_literal (s : list value) (rs : list (string * ast.Type_))
    (indent : string) (sch : schemas) :
  IsMaxItemsOne X (tf sch) (pulumi sch) = false ->
  Forall2 (fun v r => computeProperty X g v (indent +:+ "    ") (elemSchemas sch)
                      = Returns (r.1, r.2, None)) s rs ->
  computeProperty X g (VSlice s) indent sch
  = Returns ("[" +:+ concat_lines (slice_line indent (elemSchemas sch) <$> rs)
                 +:+ nl +:+ indent +:+ "]",
             ast.TypeList, None)
  /\ (forall elem,
        slice_line indent (elemSchemas sch) (elem, ast.TypeList)
        = nl +:+ (indent +:+ "    ") +:+ ("..." +:+ elem) +:+ ",").
Proof.
  intros Hone Hall. split.
  - simpl. unfold computeSliceProperty. rewrite Hone.
    by apply slice_elements_closed.
  - intros elem. unfold slice_line, coerceProperty. simpl.
    by destruct (astType (elemSchemas sch)).
Qed.

(** X9: a sequence that is not collapsed stops at its first element that
    does not serialize: it returns that element's error, with empty text
    and type Invalid, or panics as the element does; the elements after
    it are not serialized. *)
Theorem slice_first_failure (pre : list value) (v : value) (post : list value)
    (indent : string) (sch : schemas) :
  IsMaxItemsOne X (tf sch) (pulumi sch) = false ->
  Forall (fun u => exists s t,
            computeProperty X g u (indent +:+ "    ") (elemSchemas sch)
            = Returns (s, t, None)) pre ->
  (forall s t e,
     computeProperty X g v (indent +:+ "    ") (elemSchemas sch)
     = Returns (s, t, Some e) ->
     computeProperty X g (VSlice (pre ++ v :: post)) indent sch
     = Returns (EmptyString, ast.TypeInvalid, Some e))
  /\ (forall msg,
        computeProperty X g v (indent +:+ "    ") (elemSchemas sch) = Panics msg ->
        computeProperty X g (VSlice (pre ++ v :: post)) indent sch = Panics msg).
Proof.
  intros Hone Hpre. simpl. unfold computeSliceProperty. rewrite Hone.
  generalize "[". induction Hpre as [| u pre (s0 & t0 & Hu) _ IH]; intros buf; simpl.
  - split.
    + intros s t e ->. reflexivity.
    + intros msg ->. reflexivity.
  - rewrite Hu. simpl. apply IH.
Qed.

Lemma map_properties_first_failure m pre k post indent sch :
  Forall (fun k' => (exists s t,
            property_at (computeProperty X g) m k' (indent +:+ "    ")
              (propertySchemas sch k') = Returns (s, t, None))
          /\ exists name, key_name X sch k' = Returns name) pre ->
  forall buf,
    (forall s t e,
       property_at (computeProperty X g) m k (indent +:+ "    ")
         (propertySchemas sch k) = Returns (s, t, Some e) ->
       map_properties X (computeProperty X g) m (pre ++ k :: post) indent sch buf
       = Returns (EmptyString, ast.TypeInvalid, Some e))
    /\ (forall msg,
          property_at (computeProperty X g) m k (indent +:+ "    ")
            (propertySchemas sch k) = Panics msg ->
          map_properties X (computeProperty X g) m (pre ++ k :: post) indent sch buf
          = Panics msg)
    /\ (forall s t msg,
          property_at (computeProperty X g) m k (indent +:+ "    ")
            (propertySchemas sch k) = Returns (s, t, None) ->
          key_name X sch k = Panics msg ->
          map_properties X (computeProperty X g) m (pre ++ k :: post) indent sch buf
          = Panics msg).
Proof.
  induction 1 as [| k' pre [(s0 & t0 & Hv) (name & Hname)] _ IH]; intros buf.
  - cbn [app map_properties]. cbv zeta. split; [| split].
    + intros s t e ->. reflexivity.
    + intros msg ->. reflexivity.
    + intros s t msg -> Hname. unfold key_name in Hname.
      cbn [mbind outcome_bind]. by rewrite Hname.
  - cbn [app map_properties]. cbv zeta. rewrite Hv. unfold key_name in Hname.
    cbn [mbind outcome_bind]. rewrite Hname. cbn [mbind outcome_bind]. apply IH.
Qed.

(** X10: a mapping stops at the first key, in sorted order, whose value
    does not serialize or whose name does not translate: it returns the
    error of that value, with empty text and type Invalid, or panics as
    the value or the translation of the key does; the keys after it are
    not visited. *)
Theorem map_first_failure (m : list (string * value)) (pre : list string)
    (k : string) (v : value) (post : list string) (indent : string) (sch : schemas) :
  sortedKeys m = pre ++ k :: post ->
  assoc k m = Some v ->
  Forall (fun k' => (exists v' s t, assoc k' m = Some v'
            /\ computeProperty X g v' (indent +:+ "    ") (propertySchemas sch k')
               = Returns (s, t, None))
          /\ exists name, key_name X sch k' = Returns name) pre ->
  (forall s t e,
     computeProperty X g v (indent +:+ "    ") (propertySchemas sch k)
     = Returns (s, t, Some e) ->
     computeProperty X g (VMap m) indent sch
     = Returns (EmptyString, ast.TypeInvalid, Some e))
  /\ (forall msg,
        computeProperty X g v (indent +:+ "    ") (propertySchemas sch k)
        = Panics msg ->
        computeProperty X g (VMap m) indent sch = Panics msg)
  /\ (forall s t msg,
        computeProperty X g v (indent +:+ "    ") (propertySchemas sch k)
        = Returns (s, t, None) ->
        key_name X sch k = Panics msg ->
        computeProperty X g (VMap m) indent sch = Panics msg).
Proof.
  intros Hkeys Hk Hpre. simpl. unfold computeMapProperty. rewrite Hkeys.
  assert (Hpre' : Forall (fun k' => (exists s t,
            property_at (computeProperty X g) m k' (indent +:+ "    ")
              (propertySchemas sch k') = Returns (s, t, None))
          /\ exists name, key_name X sch k' = Returns name) pre).
  { eapply Forall_impl; [exact Hpre |]. intros k' [(v' & s & t & Hv' & Hc) Hn].
    split; [| exact Hn]. exists s, t. by rewrite property_at_assoc, Hv'. }
  destruct (map_properties_first_failure m pre k post indent sch Hpre' "{")
    as (H1 & H2 & H3).
  rewrite property_at_assoc, Hk in H1, H2, H3. by repeat split.
Qed.

End Literals.

Lemma slice_literal_witness :
  computeProperty example_externals example_generator
    (VSlice [VString "a"; VSlice [VInt 1]]) EmptyString schemas_zero
  = Returns ("[" +:+ nl +:+ "    " +:+ quoted "a" +:+ ","
                 +:+ nl +:+ "    ...[" +:+ nl +:+ "        1," +:+ nl +:+ "    ],"
                 +:+ nl +:+ "]",
             ast.TypeList, None).
Proof.
  apply (slice_literal example_externals example_generator
           [VString "a"; VSlice [VInt 1]]
           [(quoted "a", ast.TypeString);
            ("[" +:+ nl +:+ "        1," +:+ nl +:+ "    ]", ast.TypeList)]
           EmptyString schemas_zero).
  - reflexivity.
  - constructor; [reflexivity |]. constructor; [reflexivity | constructor].
Defined.

Lemma slice_first_failure_witness :
  computeProperty example_externals example_generator
    (VSlice [VString "a"; VNode (Call "base64" []); VNil]) EmptyString schemas_zero
  = Returns (EmptyString, ast.TypeInvalid, Some (ErrNYICall "base64")).
Proof.
  apply (slice_first_failure example_externals example_generator
           [VString "a"] (VNode (Call "base64" [])) [VNil]
           EmptyString schemas_zero)
    with (s := EmptyString) (t := ast.TypeInvalid).
  - reflexivity.
  - constructor; [| constructor]. by exists (quoted "a"), ast.TypeString.
  - reflexivity.
Defined.

Lemma map_first_failure_witness :
  computeProperty example_externals example_generator
    (VMap [("c", VNil); ("b", VNode (Call "base64" [])); ("a", VBool true)])
    EmptyString schemas_zero
  = Returns (EmptyString, ast.TypeInvalid, Some (ErrNYICall "base64")).
Proof.
  destruct (map_first_failure example_externals example_generator
              [("c", VNil); ("b", VNode (Call "base64" [])); ("a", VBool true)]
              ["a"] "b" (VNode (Call "base64" [])) ["c"] EmptyString schemas_zero)
    as (H & _).
  - reflexivity.
  - reflexivity.
  - constructor; [| constructor]. split.
    + by exists (VBool true), "true", ast.TypeBool.
    + by exists "a".
  - by apply (H EmptyString ast.TypeInvalid).
Defined.

(** ** The emitter in every run *)

Section Steps.

Context {W : Type} {lang : generator W}.
Variable gr : graph.
Variable R : relation (emitter W).
Context `{!Reflexive R, !Transitive R}.

Lemma step_rel_ret {A : Type} (a : A) : step_rel R (emit_ret a).
Proof. intros s s' r [= <- _]. reflexivity. Qed.

Lemma step_rel_fail {A : Type} e : step_rel R (emit_fail (A := A) e).
Proof. intros s s' r [= <- _]. reflexivity. Qed.

Lemma step_rel_fail_bind {A B : Type} e (k : A -> emit W B) :
  step_rel R (emit_bind (emit_fail e) k).
Proof. intros s s' r [= <- _]. reflexivity. Qed.

Lemma step_rel_bind {A B : Type} (c : emit W A) (k : A -> emit W B) :
  step_rel R c -> (forall a, step_rel R (k a)) -> step_rel R (emit_bind c k).
Proof.
  intros Hc Hk s s' r. unfold emit_bind.
  destruct (c s) as [s1 [a | e | msg |]] eqn:E; intros H.
  - etransitivity; [by eapply Hc | by eapply Hk].
  - injection H as <- _. by eapply Hc.
  - injection H as <- _. by eapply Hc.
  - injection H as <- _. by eapply Hc.
Qed.

Lemma step_rel_for_each {A : Type} (body : A -> emit W unit) xs :
  (forall x, step_rel R (body x)) -> step_rel R (for_each body xs).
Proof.
  intros Hbody. induction xs as [| x xs IH]; simpl.
  - apply step_rel_ret.
  - apply step_rel_bind; auto.
Qed.

(** When the hook calls for locals and resources and the marking of a
    node are steps of [R], so are [generateNode] and the loops over the
    locals and the resources. *)
Hypothesis call_local : forall l, step_rel R (call (EvLocal l) (generateLocal gr l)).
Hypothesis call_resource :
  forall r, step_rel R (call (EvResource r) (generateResource gr r)).
Hypothesis mark_emitted :
  forall n, is_Some (hook_event n) -> step_rel R (mark_done n).

Lemma step_rel_generateNode fuel : forall n, step_rel R (generateNode gr fuel n).
Proof.
  induction fuel as [| fuel IH]; intros n s s' r; simpl.
  - intros [= <- _]. reflexivity.
  - destruct (decide (n ∈ done s)); [intros [= <- _]; reflexivity |].
    apply step_rel_bind; [by apply step_rel_for_each |]. intros _.
    destruct n as [v | l | rs | o | p]; try apply step_rel_fail_bind.
    + apply step_rel_bind; [apply call_local | intros _].
      apply mark_emitted. by eexists.
    + apply step_rel_bind; [apply call_resource | intros _].
      apply mark_emitted. by eexists.
Qed.

Lemma step_rel_generate_locals fuel ls : forall todo,
  step_rel R (generate_locals gr fuel ls todo).
Proof.
  induction ls as [| l ls IH]; intros todo; simpl; [apply step_rel_ret |].
  destruct (Nat.eqb _ 0); [| apply IH].
  apply step_rel_bind; [apply step_rel_generateNode | intros _; apply IH].
Qed.

Lemma step_rel_generate_resources fuel rs : forall todo,
  step_rel R (generate_resources gr fuel rs todo).
Proof.
  induction rs as [| r rs IH]; intros todo; simpl; [apply step_rel_ret |].
  destruct (Nat.eqb _ 0); [| apply IH].
  apply step_rel_bind; [apply step_rel_generateNode | intros _; apply IH].
Qed.

(** The part of [generate] after the variables are marked and before
    the outputs are checked. *)
Lemma step_rel_emission fuel :
  step_rel R
    (emit_bind (generate_locals gr fuel (locals gr) []) (fun todo =>
     emit_bind (generate_resources gr fuel (resources gr).*2 todo) (fun todo =>
     for_each (generateNode gr fuel) todo))).
Proof.
  apply step_rel_bind; [apply step_rel_generate_locals | intros todo].
  apply step_rel_bind; [apply step_rel_generate_resources | intros todo'].
  apply step_rel_for_each, step_rel_generateNode.
Qed.

End Steps.

Section EveryRun.

Context {W : Type} {lang : generator W}.
Variable gr : graph.

Lemma emit_bind_inv {A B : Type} (c : emit W A) (k : A -> emit W B) s s' r :
  emit_bind c k s = (s', r) ->
  (exists s1 a, c s = (s1, Done a) /\ k a s1 = (s', r))
  \/ (exists r', c s = (s', r') /\ (forall a, r' <> Done a)
                 /\ (forall b, r <> Done b)).
Proof.
  unfold emit_bind. destruct (c s) as [s1 [a | e | msg |]] eqn:E; intros H.
  - left. eauto.
  - right. injection H as <- <-. eexists. by repeat split.
  - right. injection H as <- <-. eexists. by repeat split.
  - right. injection H as <- <-. eexists. by repeat split.
Qed.

#[global] Instance log_grows_refl (P : event -> Prop) :
  Reflexive (log_grows (W := W) P).
Proof. intros s. exists []. split; [by rewrite app_nil_r | constructor]. Qed.

#[global] Instance log_grows_trans (P : event -> Prop) :
  Transitive (log_grows (W := W) P).
Proof.
  intros s1 s2 s3 (l1 & E1 & H1) (l2 & E2 & H2). exists (l1 ++ l2). split.
  - by rewrite E2, E1, app_assoc.
  - by apply Forall_app.
Qed.

#[global] Instance done_grows_refl : Reflexive (done_grows (W := W)).
Proof. intros s. split; [done | by left]. Qed.

#[global] Instance done_grows_trans : Transitive (done_grows (W := W)).
Proof.
  intros s1 s2 s3 [Hk1 Hg1] [Hk2 Hg2]. split.
  - intros m Hm. by apply Hk2, Hk1.
  - intros m Hm. destruct (Hg2 m Hm) as [Hm2 | ?]; [| by right]. by apply Hg1.
Qed.

Lemma call_log_grows (P : event -> Prop) ev hook :
  P ev -> step_rel (log_grows (W := W) P) (call ev hook).
Proof.
  intros Hev s s' r. unfold call. destruct (hook (world s)) as [w hr].
  intros H. exists [ev]. split; [| by constructor].
  destruct hr; by injection H as <- _.
Qed.

Lemma call_done_grows ev hook : step_rel (done_grows (W := W)) (call ev hook).
Proof.
  intros s s' r. unfold call. destruct (hook (world s)) as [w hr].
  intros H. assert (done s' = done s) as Hd by (destruct hr; by injection H as <- _).
  split; intros m; rewrite Hd; [done | by left].
Qed.

Lemma call_any ev hook (s s' : emitter W) r :
  call ev hook s = (s', r) -> log s' = log s ++ [ev] /\ done s' = done s.
Proof.
  unfold call. destruct (hook (world s)) as [w hr].
  destruct hr; by intros [= <- _].
Qed.

(** The calls added by [generateNode] emit nodes, in every outcome. *)
Lemma generateNode_log_grows fuel n :
  step_rel (log_grows is_node_event) (generateNode gr fuel n).
Proof.
  apply step_rel_generateNode; try apply _.
  - intros l. by apply call_log_grows.
  - intros r. by apply call_log_grows.
  - intros m _ s s' r [= <- _]. exists []. split; [| constructor].
    simpl. by rewrite app_nil_r.
Qed.

(** [generateNode] keeps the nodes of [done] and adds locals and
    resources only, in every outcome. *)
Lemma generateNode_done_grows fuel n :
  step_rel done_grows (generateNode gr fuel n).
Proof.
  apply step_rel_generateNode; try apply _.
  - intros l. apply call_done_grows.
  - intros r. apply call_done_grows.
  - intros m Hm s s' r [= <- _]. split; cbn [done].
    + intros m' Hm'. apply elem_of_union. by right.
    + intros m' [->%elem_of_singleton | Hm']%elem_of_union; [by right | by left].
Qed.

Lemma check_providers_spec (s : emitter W) :
  (check_providers gr s = (s, Done tt)
   /\ (forall p d, p ∈ providers gr -> d ∈ p_deps (provider_at gr p) ->
                   is_variableNode d = true))
  \/ (exists p d, p ∈ providers gr /\ d ∈ p_deps (provider_at gr p)
        /\ is_variableNode d = false
        /\ check_providers gr s = (s, Failed (ErrUnsupportedProviderDependency d))).
Proof.
  unfold check_providers. induction (providers gr) as [| p ps IH].
  - left. split; [reflexivity |]. intros p d Hin; by apply elem_of_nil in Hin.
  - rewrite !for_each_cons.
    assert (Hdeps :
      (for_each (fun d => if is_variableNode d then emit_ret tt
                          else emit_fail (ErrUnsupportedProviderDependency d))
         (p_deps (provider_at gr p)) s = (s, Done tt)
       /\ (forall d, d ∈ p_deps (provider_at gr p) -> is_variableNode d = true))
      \/ (exists d, d ∈ p_deps (provider_at gr p) /\ is_variableNode d = false
            /\ for_each (fun d => if is_variableNode d then emit_ret tt
                                  else emit_fail (ErrUnsupportedProviderDependency d))
                 (p_deps (provider_at gr p)) s
               = (s, Failed (ErrUnsupportedProviderDependency d)))).
    { induction (p_deps (provider_at gr p)) as [| d ds IHd].
      - left. split; [reflexivity |]. intros d Hin; by apply elem_of_nil in Hin.
      - rewrite !for_each_cons. destruct (is_variableNode d) eqn:Ed; simpl.
        + destruct IHd as [[E Hall] | (d' & Hd' & Hv & E)].
          * left. split; [exact E |]. intros d0 [-> | H0]%elem_of_cons; auto.
          * right. exists d'. split; [by right | by split].
        + right. exists d. split; [by left | by split]. }
    destruct Hdeps as [[E Hall] | (d & Hd & Hv & E)]; rewrite E.
    + destruct IH as [[E' Hall'] | (p' & d' & Hp' & Hd' & Hv' & E')].
      * left. split; [exact E' |]. intros p0 d0 [-> | H0]%elem_of_cons; eauto.
      * right. exists p', d'. split; [by right | by repeat split].
    + right. exists p, d. split; [by left | by repeat split].
Qed.

End EveryRun.

(** X11: when a provider depends on a node that is not a variable,
    [generate] fails with the unsupported-provider-dependency error for
    such a dependency before any hook is called: the state is the one it
    started in, whatever the fuel. *)
Theorem provider_validation {W : Type} {lang : generator W}
    (gr : graph) (fuel : nat) (w : W) :
  (exists p d, p ∈ providers gr /\ d ∈ p_deps (provider_at gr p)
               /\ is_variableNode d = false) ->
  exists p d, p ∈ providers gr /\ d ∈ p_deps (provider_at gr p)
    /\ is_variableNode d = false
    /\ generate gr fuel (start w)
       = (start w, Failed (ErrUnsupportedProviderDependency d)).
Proof.
  intros (p & d & Hp & Hd & Hv).
  destruct (check_providers_spec gr (start w))
    as [[_ Hall] | (p' & d' & Hp' & Hd' & Hv' & E)].
  - rewrite (Hall p d Hp Hd) in Hv. discriminate.
  - exists p', d'. repeat (split; [done |]).
    unfold generate, generate_nodes. unfold emit_bind at 1. unfold emit_bind at 1.
    by rewrite E.
Qed.

Lemma provider_validation_witness :
  generate (lang := example_lang) example_graph_provider 3 (start [])
  = (start [], Failed (ErrUnsupportedProviderDependency (ResourceNode 0))).
Proof.
  destruct (provider_validation (lang := example_lang) example_graph_provider 3 [])
    as (p & d & Hp & Hd & Hv & E).
  - exists 0, (ResourceNode 0). split; [by left | split; [by left | reflexivity]].
  - simpl in Hd. apply list_elem_of_singleton in Hd as ->. exact E.
Defined.

Section CallSequence.

Context {W : Type} {lang : generator W}.
Variable gr : graph.

Lemma check_outputs_any (s s' : emitter W) r :
  check_outputs gr s = (s', r) -> s' = s.
Proof.
  destruct (check_outputs_spec gr s) as [[E _] | (o & d & _ & _ & _ & E)];
    rewrite E; by intros [= <- _].
Qed.

Lemma check_providers_any (s s' : emitter W) r :
  check_providers gr s = (s', r) -> s' = s.
Proof.
  destruct (check_providers_spec gr s) as [[E _] | (p & d & _ & _ & _ & E)];
    rewrite E; by intros [= <- _].
Qed.


End CallSequence.



Section NodeSteps.

Context {W : Type} {lang : generator W}.
Variable gr : graph.

Lemma generateNode_marks fuel n (s s' : emitter W) :
  generateNode gr fuel n s = (s', Done tt) -> n ∈ done s'.
Proof.
  destruct fuel as [| fuel]; simpl; [discriminate |].
  destruct (decide (n ∈ done s)) as [Hin | Hout]; [by intros [= <-] |].
  intros (s1 & [] & _ & Hrun)%emit_bind_Done.
  apply emit_bind_Done in Hrun as (s2 & [] & _ & Hmark).
  injection Hmark as <-. cbn [done]. apply elem_of_union. left.
  by apply elem_of_singleton.
Qed.

Lemma for_each_generateNode_marks fuel ds : forall (s s' : emitter W),
  for_each (generateNode gr fuel) ds s = (s', Done tt) ->
  forall d, d ∈ ds -> d ∈ done s'.
Proof.
  induction ds as [| d ds IH]; intros s s' Hrun d0 Hd0.
  - by apply elem_of_nil in Hd0.
  - apply for_each_cons_Done in Hrun as (s1 & H1 & H2).
    apply elem_of_cons in Hd0 as [-> | Hd0]; [| by eapply IH].
    apply generateNode_marks in H1.
    assert (Hgrows : done_grows s1 s').
    { eapply (step_rel_for_each done_grows); [| exact H2].
      intros x. apply generateNode_done_grows. }
    by apply Hgrows.
Qed.

End NodeSteps.

(** X13: [generateNode] memoizes: when it succeeds, the node is in
    [done], and generating the node again, with whatever fuel is left,
    succeeds at once, calls no hook and leaves the state as it is. *)
Theorem generateNode_memoizes {W : Type} {lang : generator W}
    (gr : graph) (fuel : nat) (n : node) (s s' : emitter W) :
  generateNode gr fuel n s = (s', Done tt) ->
  n ∈ done s'
  /\ (forall fuel', generateNode gr (S fuel') n s' = (s', Done tt)).
Proof.
  intros Hrun. pose proof (generateNode_marks gr fuel n s s' Hrun) as Hin.
  split; [exact Hin |]. intros fuel'. simpl.
  by destruct (decide (n ∈ done s')).
Qed.

Lemma generateNode_memoizes_witness :
  ResourceNode 1
    ∈ done (generateNode (lang := example_lang) example_graph 3 (ResourceNode 1)
              (mkEmitter [] [] (list_to_set [VariableNode 0; VariableNode 1]))).1
  /\ generateNode (lang := example_lang) example_graph 1 (ResourceNode 1)
       (generateNode (lang := example_lang) example_graph 3 (ResourceNode 1)
          (mkEmitter [] [] (list_to_set [VariableNode 0; VariableNode 1]))).1
     = ((generateNode (lang := example_lang) example_graph 3 (ResourceNode 1)
           (mkEmitter [] [] (list_to_set [VariableNode 0; VariableNode 1]))).1,
        Done tt).
Proof.
  destruct (generateNode_memoizes (lang := example_lang) example_graph 3
              (ResourceNode 1)
              (mkEmitter [] [] (list_to_set [VariableNode 0; VariableNode 1]))
              (generateNode (lang := example_lang) example_graph 3 (ResourceNode 1)
                 (mkEmitter [] [] (list_to_set [VariableNode 0; VariableNode 1]))).1)
    as (Hin & Hagain).
  - vm_compute. reflexivity.
  - split; [exact Hin | exact (Hagain 0)].
Defined.

(** ** Nodes that are never done *)

Section NeverDone.

Context {W : Type} {lang : generator W}.
Variable gr : graph.

#[local] Instance keeps_out_refl C : Reflexive (keeps_out (W := W) C).
Proof. by intros s H. Qed.

#[local] Instance keeps_out_trans C : Transitive (keeps_out (W := W) C).
Proof. intros s1 s2 s3 H12 H23 H. by apply H23, H12. Qed.

Lemma call_Done_nil ev hook (s s' : emitter W) :
  call ev hook s = (s', Done tt) -> (hook (world s)).2 = hook_nil.
Proof.
  unfold call. destruct (hook (world s)) as [w hr]. by destruct hr.
Qed.

Variable C : node -> Prop.

(** Every node of [C] has a dependency in [C], or a hook that never
    returns nil. *)
Hypothesis C_blocked :
  forall n, C n -> (exists d, d ∈ dependencies gr n /\ C d) \/ never_emitted gr n.

Lemma generateNode_keeps_out fuel : forall n,
  step_rel (keeps_out C) (generateNode gr fuel n).
Proof.
  induction fuel as [| fuel IH]; intros n s s' r; simpl.
  - by intros [= <- _].
  - destruct (decide (n ∈ done s)) as [Hin | Hout]; [by intros [= <- _] |].
    intros Hrun Hs.
    assert (Hdeps : step_rel (keeps_out C)
                      (for_each (generateNode gr fuel) (dependencies gr n)))
      by (by apply step_rel_for_each; try apply _).
    apply emit_bind_inv in Hrun
      as [(s1 & [] & Hfor & Hrun) | (r1 & Hfor & _ & _)];
      [| by apply (Hdeps _ _ _ Hfor)].
    pose proof (Hdeps _ _ _ Hfor Hs) as Hs1.
    assert (Hdone : forall m, m ∈ done s' -> (m = n /\ ~ C n) \/ m ∈ done s1).
    { apply emit_bind_inv in Hrun
        as [(s2 & [] & Hcall & Hmark) | (r2 & Hcall & _ & _)].
      - injection Hmark as <- _. cbn [done].
        assert (done s2 = done s1) as ->.
        { destruct n; try (by injection Hcall as <- _);
            by apply call_any in Hcall as [_ ?]. }
        intros m [->%elem_of_singleton | Hm]%elem_of_union; [left | by right].
        split; [done |]. intros [(d & Hd & HCd) | Hnever]%C_blocked.
        + apply (Hs1 d HCd). by eapply for_each_generateNode_marks.
        + destruct n; try discriminate;
            apply call_Done_nil in Hcall; by apply (Hnever (world s1)).
      - assert (done s' = done s1) as ->; [| by right].
        destruct n; try (by injection Hcall as <- _);
          by apply call_any in Hcall as [_ ?]. }
    intros m HCm Hm. destruct (Hdone m Hm) as [[-> Hn] | Hm1]; [done |].
    by apply (Hs1 m).
Qed.

(** The emission of the locals and resources is made of steps of
    [generateNode]. *)
Lemma emission_keeps_out fuel :
  step_rel (keeps_out C)
    (emit_bind (generate_locals gr fuel (locals gr) []) (fun todo =>
     emit_bind (generate_resources gr fuel (resources gr).*2 todo) (fun todo =>
     for_each (generateNode gr fuel) todo))).
Proof.
  assert (Hls : forall ls todo, step_rel (keeps_out C) (generate_locals gr fuel ls todo)).
  { induction ls as [| l ls IH]; intros todo; simpl; [by intros s s' r [= <- _] |].
    destruct (Nat.eqb _ _); [| apply IH].
    apply step_rel_bind; [apply _ | apply generateNode_keeps_out | intros _; apply IH]. }
  assert (Hrs : forall rs todo,
            step_rel (keeps_out C) (generate_resources gr fuel rs todo)).
  { induction rs as [| r rs IH]; intros todo; simpl; [by intros s s' r [= <- _] |].
    destruct (Nat.eqb _ _); [| apply IH].
    apply step_rel_bind; [apply _ | apply generateNode_keeps_out | intros _; apply IH]. }
  apply step_rel_bind; [apply _ | apply Hls | intros todo].
  apply step_rel_bind; [apply _ | apply Hrs | intros todo'].
  apply step_rel_for_each; [apply _ .. | apply generateNode_keeps_out].
Qed.

(** The loops over the locals and the resources: in a run that goes on,
    every node of the collection is done or deferred, and what was
    deferred before still is. *)
Lemma generate_locals_Done fuel ls : forall todo (s s' : emitter W) todo',
  generate_locals gr fuel ls todo s = (s', Done todo') ->
  done_grows s s'
  /\ (forall n, n ∈ todo -> n ∈ todo')
  /\ (forall l, l ∈ ls -> LocalNode l ∈ done s' \/ LocalNode l ∈ todo').
Proof.
  induction ls as [| l ls IH]; intros todo s s' todo'; simpl.
  - intros [= <- <-]. split; [reflexivity |]. split; [done |].
    intros l Hl. by apply elem_of_nil in Hl.
  - destruct (Nat.eqb (length (l_deps (local_at gr l))) 0).
    + intros (s1 & [] & Hnode & Hrest)%emit_bind_Done.
      destruct (IH _ _ _ _ Hrest) as (Hgrows & Htodo & Hall).
      pose proof (generateNode_done_grows gr fuel _ _ _ _ Hnode) as Hgrows1.
      split; [by etransitivity |]. split; [done |].
      intros l' [-> | Hl']%elem_of_cons; [| by apply Hall].
      left. apply Hgrows. by eapply generateNode_marks.
    + intros Hrest. destruct (IH _ _ _ _ Hrest) as (Hgrows & Htodo & Hall).
      split; [done |]. split.
      * intros n Hn. apply Htodo, elem_of_app. by left.
      * intros l' [-> | Hl']%elem_of_cons; [| by apply Hall].
        right. apply Htodo, elem_of_app. right. by apply list_elem_of_singleton.
Qed.

Lemma generate_resources_Done fuel rs : forall todo (s s' : emitter W) todo',
  generate_resources gr fuel rs todo s = (s', Done todo') ->
  done_grows s s'
  /\ (forall n, n ∈ todo -> n ∈ todo')
  /\ (forall r, r ∈ rs -> ResourceNode r ∈ done s' \/ ResourceNode r ∈ todo').
Proof.
  induction rs as [| r0 rs IH]; intros todo s s' todo'; simpl.
  - intros [= <- <-]. split; [reflexivity |]. split; [done |].
    intros r Hr. by apply elem_of_nil in Hr.
  - destruct (Nat.eqb (length (r_deps (resource_at gr r0))) 0).
    + intros (s1 & [] & Hnode & Hrest)%emit_bind_Done.
      destruct (IH _ _ _ _ Hrest) as (Hgrows & Htodo & Hall).
      pose proof (generateNode_done_grows gr fuel _ _ _ _ Hnode) as Hgrows1.
      split; [by etransitivity |]. split; [done |].
      intros r' [-> | Hr']%elem_of_cons; [| by apply Hall].
      left. apply Hgrows. by eapply generateNode_marks.
    + intros Hrest. destruct (IH _ _ _ _ Hrest) as (Hgrows & Htodo & Hall).
      split; [done |]. split.
      * intros n Hn. apply Htodo, elem_of_app. by left.
      * intros r' [-> | Hr']%elem_of_cons; [| by apply Hall].
        right. apply Htodo, elem_of_app. right. by apply list_elem_of_singleton.
Qed.

(** When the emission of the nodes goes on to the outputs, every local
    and every resource of the collections is done. *)
Lemma generate_nodes_Done fuel (s s' : emitter W) :
  generate_nodes gr fuel s = (s', Done tt) ->
  (forall l, l ∈ locals gr -> LocalNode l ∈ done s')
  /\ (forall r, r ∈ (resources gr).*2 -> ResourceNode r ∈ done s').
Proof.
  unfold generate_nodes.
  intros (s1 & [] & _ & Hrun)%emit_bind_Done.
  apply emit_bind_Done in Hrun as (s2 & [] & _ & Hrun).
  apply emit_bind_Done in Hrun as (s3 & [] & _ & Hrun).
  apply emit_bind_Done in Hrun as (s4 & [] & _ & Hrun).
  apply emit_bind_Done in Hrun as (s5 & todo & Hlocals & Hrun).
  apply emit_bind_Done in Hrun as (s6 & todo' & Hresources & Hrun).
  destruct (generate_locals_Done _ _ _ _ _ _ Hlocals) as (_ & _ & Hls).
  destruct (generate_resources_Done _ _ _ _ _ _ Hresources) as (Hgrows & Htodo & Hrs).
  assert (Hgrows' : done_grows s6 s').
  { eapply (step_rel_for_each done_grows); [| exact Hrun].
    intros x. apply generateNode_done_grows. }
  pose proof (for_each_generateNode_marks gr fuel todo' s6 s' Hrun) as Hmarks.
  split.
  - intros l Hl. destruct (Hls l Hl) as [Hd | Ht].
    + by apply Hgrows', Hgrows.
    + by apply Hmarks, Htodo.
  - intros r Hr. destruct (Hrs r Hr) as [Hd | Ht].
    + by apply Hgrows'.
    + by apply Hmarks.
Qed.

(** A node of [C] that is a local or a resource of the graph keeps
    [generate] from succeeding. *)
Lemma blocked_never_succeeds (n : node) :
  (forall v, ~ C (VariableNode v)) ->
  C n ->
  n ∈ (LocalNode <$> locals gr) ++ (ResourceNode <$> (resources gr).*2) ->
  forall fuel (w : W) s', generate gr fuel (start w) <> (s', Done tt).
Proof.
  intros Hvar HCn Hn fuel w s' Hrun.
  unfold generate in Hrun.
  apply emit_bind_Done in Hrun as (s1 & [] & Hnodes & _).
  assert (Hin : n ∈ done s1).
  { destruct (generate_nodes_Done fuel _ _ Hnodes) as [Hls Hrs].
    apply elem_of_app in Hn as [Hn | Hn];
      apply list_elem_of_fmap in Hn as (p & -> & Hp); [by apply Hls | by apply Hrs]. }
  assert (Hout : forall m, C m -> m ∉ done s1); [| by apply (Hout n)].
  unfold generate_nodes in Hnodes.
  apply emit_bind_Done in Hnodes as (s2 & [] & _ & Hnodes).
  apply emit_bind_Done in Hnodes as (s3 & [] & _ & Hnodes).
  apply emit_bind_Done in Hnodes as (s4 & [] & _ & Hnodes).
  apply emit_bind_Done in Hnodes as (s5 & [] & Hmark & Hnodes).
  injection Hmark as <-.
  intros m HCm. eapply (emission_keeps_out fuel); [exact Hnodes | | exact HCm].
  intros m' HCm' Hm'. cbn [done] in Hm'.
  apply elem_of_list_to_set, list_elem_of_fmap in Hm' as (v & -> & _).
  by apply (Hvar v).
Qed.

End NeverDone.

(** X14: dependency cycles never yield a program.  When each node of a
    set of nodes depends on a node of the set, and the set holds a local
    or a resource of the graph, then no run of [generate] succeeds,
    whatever the hooks and the depth the recursion is given. *)
Theorem cycle_never_succeeds {W : Type} {lang : generator W}
    (gr : graph) (C : node -> Prop) (n : node) :
  (forall m, C m -> exists d, d ∈ dependencies gr m /\ C d) ->
  C n ->
  n ∈ (LocalNode <$> locals gr) ++ (ResourceNode <$> (resources gr).*2) ->
  forall fuel (w : W) s', generate gr fuel (start w) <> (s', Done tt).
Proof.
  intros Hclosed HCn Hn. apply (blocked_never_succeeds gr C) with (n := n); try done.
  - intros m Hm. left. by apply Hclosed.
  - intros v (d & Hd & _)%Hclosed. by apply elem_of_nil in Hd.
Qed.

Lemma cycle_never_succeeds_witness :
  generate (lang := example_lang) example_graph_cycle 5 (start [])
  <> ((generate (lang := example_lang) example_graph_cycle 5 (start [])).1, Done tt).
Proof.
  apply (cycle_never_succeeds (lang := example_lang) example_graph_cycle
           (fun m => m = ResourceNode 0 \/ m = ResourceNode 1) (ResourceNode 0)).
  - intros m [-> | ->].
    + exists (ResourceNode 1). split; [by left | by right].
    + exists (ResourceNode 0). split; [by left | by left].
  - by left.
  - vm_compute. right. by left.
Defined.

(** X22: only variables of the graph, locals and resources are ever
    done.  When a local or a resource of the graph depends on an output,
    on a provider, or on a variable that is not among the variables of
    the graph, no run of [generate] succeeds, whatever the hooks and the
    depth the recursion is given. *)
Theorem foreign_dependency_never_succeeds {W : Type} {lang : generator W}
    (gr : graph) (n d : node) :
  n ∈ (LocalNode <$> locals gr) ++ (ResourceNode <$> (resources gr).*2) ->
  d ∈ dependencies gr n ->
  hook_event d = None ->
  d ∉ VariableNode <$> (variables gr).*2 ->
  forall fuel (w : W) s', generate gr fuel (start w) <> (s', Done tt).
Proof.
  intros Hn Hd Hhook Hvar fuel w s' Hrun.
  unfold generate in Hrun.
  apply emit_bind_Done in Hrun as (s1 & [] & Hnodes & _).
  assert (Hin : n ∈ done s1).
  { destruct (generate_nodes_Done gr fuel _ _ Hnodes) as [Hls Hrs].
    apply elem_of_app in Hn as [Hn | Hn];
      apply list_elem_of_fmap in Hn as (p & -> & Hp); [by apply Hls | by apply Hrs]. }
  assert (Hout : forall m, (m = n \/ m = d) -> m ∉ done s1);
    [| exact (Hout n (or_introl eq_refl) Hin)].
  unfold generate_nodes in Hnodes.
  apply emit_bind_Done in Hnodes as (s2 & [] & _ & Hnodes).
  apply emit_bind_Done in Hnodes as (s3 & [] & _ & Hnodes).
  apply emit_bind_Done in Hnodes as (s4 & [] & _ & Hnodes).
  apply emit_bind_Done in Hnodes as (s5 & [] & Hmark & Hnodes).
  injection Hmark as <-.
  intros m HCm.
  eapply (emission_keeps_out gr (fun m => m = n \/ m = d));
    [| exact Hnodes | | exact HCm].
  - intros m0 [-> | ->].
    + left. exists d. split; [done | by right].
    + right. by destruct d.
  - intros m' [-> | ->] Hm'; cbn [done] in Hm'; apply elem_of_list_to_set in Hm'.
    + apply list_elem_of_fmap in Hm' as (v & -> & _).
      apply elem_of_app in Hn as [Hn | Hn];
        apply list_elem_of_fmap in Hn as (q & Hq & _); discriminate.
    + by apply Hvar.
Qed.

Lemma foreign_dependency_never_succeeds_witness :
  generate (lang := example_lang) example_graph_foreign 5 (start [])
  <> ((generate (lang := example_lang) example_graph_foreign 5 (start [])).1,
      Done tt).
Proof.
  apply (foreign_dependency_never_succeeds (lang := example_lang)
           example_graph_foreign (ResourceNode 0) (ProviderNode 0)).
  - vm_compute. right. by left.
  - by left.
  - reflexivity.
  - vm_compute. intros H. apply elem_of_cons in H as [H | H]; [discriminate |].
    apply elem_of_cons in H as [H | H]; [discriminate |].
    by apply elem_of_nil in H.
Defined.

(** ** The NodeJS generator *)

Lemma String_append_nil_r (a : string) : a +:+ EmptyString = a.
Proof.
  induction a as [| x a IH]; [reflexivity |].
  change (String x (a +:+ EmptyString) = String x a). by rewrite IH.
Qed.

Section HookSteps.

Variable R : relation process.
Context `{!Reflexive R, !Transitive R}.

Lemma hook_rel_ret {A : Type} (a : A) : hook_rel R (mret a).
Proof. intros p p' r [= <- _]. reflexivity. Qed.

Lemma hook_rel_return {A : Type} (hr : hook_result) :
  hook_rel R (hook_return (A := A) hr).
Proof. intros p p' r [= <- _]. reflexivity. Qed.

Lemma hook_rel_call {A : Type} (o : outcome A) : hook_rel R (hook_call o).
Proof. intros p p' r. unfold hook_call. destruct o; intros [= <- _]; reflexivity. Qed.

Lemma hook_rel_try {A : Type} (o : A + error) : hook_rel R (hook_try o).
Proof. intros p p' r. unfold hook_try. destruct o; intros [= <- _]; reflexivity. Qed.

Lemma hook_rel_bind {A B : Type} (c : hook A) (k : A -> hook B) :
  hook_rel R c -> (forall a, hook_rel R (k a)) -> hook_rel R (c ≫= k).
Proof.
  intros Hc Hk p p' r. unfold mbind, hook_bind.
  destruct (c p) as [p1 [a | hr]] eqn:E; intros H.
  - etransitivity; [by eapply Hc | by eapply Hk].
  - injection H as <- _. by eapply Hc.
Qed.

Lemma hook_rel_range {A : Type} (body : A -> hook unit) xs :
  (forall x, hook_rel R (body x)) -> hook_rel R (hook_range body xs).
Proof.
  intros Hbody. induction xs as [| x xs IH]; simpl.
  - apply hook_rel_ret.
  - apply hook_rel_bind; auto.
Qed.

Lemma hook_rel_run (c : hook unit) p p' hr :
  hook_rel R c -> run_hook c p = (p', hr) -> R p p'.
Proof.
  intros Hc. unfold run_hook. destruct (c p) as [p1 [a | r]] eqn:E;
    intros [= <- _]; by eapply Hc.
Qed.

End HookSteps.

#[global] Instance writes_refl : Reflexive writes.
Proof. intros p. split; [done |]. exists EmptyString. symmetry. apply String_append_nil_r. Qed.

#[global] Instance writes_trans : Transitive writes.
Proof.
  intros p1 p2 p3 [Hr1 [t1 H1]] [Hr2 [t2 H2]]. split; [congruence |].
  exists (t1 +:+ t2). by rewrite H2, H1, String_append_assoc.
Qed.

#[global] Instance appends_refl : Reflexive appends.
Proof. intros p. split; [| done]. exists EmptyString. symmetry. apply String_append_nil_r. Qed.

#[global] Instance appends_trans : Transitive appends.
Proof.
  intros p1 p2 p3 [[t1 H1] Hn1] [[t2 H2] Hn2]. split; [| congruence].
  exists (t1 +:+ t2). by rewrite H2, H1, String_append_assoc.
Qed.

#[global] Instance keeps_graph_refl gr : Reflexive (keeps_graph gr).
Proof. intros s. split; [reflexivity | done]. Qed.

#[global] Instance keeps_graph_trans gr : Transitive (keeps_graph gr).
Proof.
  intros s1 s2 s3 [Ha1 Hg1] [Ha2 Hg2]. split; [by etransitivity | auto].
Qed.

Lemma writes_appends p p' : writes p p' -> appends p p'.
Proof. intros [Hr Ht]. split; [done | by rewrite Hr]. Qed.

Section NodeJSHooks.

Variable X : Externals.
Variable gr : graph.

Lemma Printf_writes text : hook_rel writes (Printf text).
Proof. intros p p' r [= <- _]. split; [done | by exists text]. Qed.

Lemma compute_silent v sch p p' r : compute X v sch p = (p', r) -> p' = p.
Proof.
  unfold compute.
  destruct (computeProperty X (receiver p) v EmptyString sch)
    as [[[text t] [e |]] | msg]; by intros [= <- _].
Qed.

Lemma compute_writes v sch : hook_rel writes (compute X v sch).
Proof. intros p p' r ->%compute_silent. reflexivity. Qed.

Lemma as_resourceNode_writes n : hook_rel writes (as_resourceNode gr n).
Proof. destruct n; first [apply hook_rel_ret, _ | apply hook_rel_return, _]. Qed.

Lemma dependsOn_writes ns : forall i, hook_rel writes (dependsOn gr i ns).
Proof.
  induction ns as [| n ns IH]; intros i; simpl.
  - apply hook_rel_ret, _.
  - apply hook_rel_bind; [apply _ | | intros _].
    { destruct (0 <? i)%nat; [apply Printf_writes | apply hook_rel_ret, _]. }
    apply hook_rel_bind; [apply _ | apply as_resourceNode_writes | intros r].
    apply hook_rel_bind; [apply _ | apply Printf_writes | intros _]. apply IH.
Qed.

Lemma generateVariables_writes vs :
  hook_rel writes (nodeGenerator_generateVariables X gr vs).
Proof.
  unfold nodeGenerator_generateVariables. destruct vs as [| v vs];
    [apply hook_rel_ret, _ |].
  apply hook_rel_bind; [apply _ | | intros _].
  { intros p p' r. apply Printf_writes. }
  apply hook_rel_bind; [apply _ | | intros _; apply Printf_writes].
  apply hook_rel_range; [apply _ .. |]. intros x. unfold declare_variable.
  apply hook_rel_bind; [apply _ | apply hook_rel_call, _ | intros name].
  apply hook_rel_bind; [apply _ | apply Printf_writes | intros _].
  apply hook_rel_bind; [apply _ | | intros _; apply Printf_writes].
  destruct (defaultValue (variable_at gr x)); try apply Printf_writes;
    (apply hook_rel_bind; [apply _ | apply compute_writes | intros def];
     apply Printf_writes).
Qed.

Lemma generateResource_writes r :
  hook_rel writes (nodeGenerator_generateResource X gr r).
Proof.
  unfold nodeGenerator_generateResource.
  destruct (IndexRune _ _) as [underscore |]; [| apply hook_rel_return, _].
  apply hook_rel_bind; [apply _ | apply hook_rel_call, _ | intros sch].
  apply hook_rel_bind; [apply _ | apply compute_writes | intros inputs].
  apply hook_rel_bind; [apply _ | apply hook_rel_call, _ | intros typeName].
  apply hook_rel_bind; [apply _ | apply hook_rel_try, _ | intros [module tn]].
  apply hook_rel_bind; [apply _ | apply Printf_writes | intros _].
  apply hook_rel_bind; [apply _ | | intros _; apply Printf_writes].
  unfold explicit_dependencies.
  destruct (explicitDeps (resource_at gr r)) as [| n ns]; [apply hook_rel_ret, _ |].
  apply hook_rel_bind; [apply _ | apply Printf_writes | intros _].
  apply hook_rel_bind; [apply _ | apply dependsOn_writes | intros _].
  apply Printf_writes.
Qed.

Lemma generateOutputs_writes os :
  hook_rel writes (nodeGenerator_generateOutputs X gr os).
Proof.
  unfold nodeGenerator_generateOutputs. destruct os as [| o os];
    [apply hook_rel_ret, _ |].
  apply hook_rel_bind; [apply _ | apply Printf_writes | intros _].
  apply hook_rel_range; [apply _ .. |]. intros x. unfold export_output.
  apply hook_rel_bind; [apply _ | apply compute_writes | intros outputs].
  apply hook_rel_bind; [apply _ | apply hook_rel_call, _ | intros name].
  apply Printf_writes.
Qed.

(** The loop of the preamble over the providers. *)
Lemma import_lines ps p :
  hook_range (fun q =>
    let name := p_Name (provider_at gr q) in
    Printf ("import * as " +:+ name +:+ " from "
              +:+ quoted ("@pulumi/" +:+ name) +:+ ";" +:+ nl)) ps p
  = (mkProcess (receiver p) (stdout p +:+ concat_lines (import_line gr <$> ps)),
     inl tt).
Proof.
  revert p. induction ps as [| q ps IH]; intros [g out]; simpl.
  - by rewrite String_append_nil_r.
  - unfold mbind, hook_bind, Printf. simpl. rewrite IH. simpl.
    by rewrite String_append_assoc.
Qed.

End NodeJSHooks.

(** X15: the NodeJS generator does not implement locals: on a graph with
    a local value no run of [generate] succeeds. *)
Theorem nodejs_locals_unsupported (X : Externals) (gr : graph) :
  locals gr <> [] ->
  forall fuel p s',
    generate (lang := nodeGenerator_generator X) gr fuel (start p) <> (s', Done tt).
Proof.
  intros Hlocals.
  destruct (locals gr) as [| l ls] eqn:E; [done |].
  apply (blocked_never_succeeds (lang := nodeGenerator_generator X) gr
           (fun m => exists l', m = LocalNode l')) with (n := LocalNode l).
  - intros m [l' ->]. right. intros w. discriminate.
  - intros v [l' Hl']. discriminate.
  - by exists l.
  - rewrite E. apply elem_of_app. left. by left.
Qed.

Lemma nodejs_locals_unsupported_witness :
  generate (lang := nodeGenerator_generator example_externals)
    example_graph_local 3 (start example_process)
  <> ((generate (lang := nodeGenerator_generator example_externals)
         example_graph_local 3 (start example_process)).1, Done tt).
Proof.
  apply (nodejs_locals_unsupported example_externals example_graph_local).
  discriminate.
Defined.

Section GenerateResource.

Variable X : Externals.
Variable gr : graph.

Lemma hook_bind_inl {A B : Type} (c : hook A) (k : A -> hook B) p p1 a :
  c p = (p1, inl a) -> (c ≫= k) p = k a p1.
Proof. intros E. unfold mbind, hook_bind. by rewrite E. Qed.

Lemma hook_bind_inr {A B : Type} (c : hook A) (k : A -> hook B) p p1 hr :
  c p = (p1, inr hr) -> (c ≫= k) p = (p1, inr hr).
Proof. intros E. unfold mbind, hook_bind. by rewrite E. Qed.

Lemma bind_call_Returns {A B : Type} (a : A) (k : A -> hook B) p :
  (hook_call (Returns a) ≫= k) p = k a p.
Proof. reflexivity. Qed.

Lemma bind_call_Panics {A B : Type} msg (k : A -> hook B) p :
  (hook_call (Panics msg) ≫= k) p = (p, inr (hook_panic msg)).
Proof. reflexivity. Qed.

Lemma bind_try_inl {A B : Type} (a : A) (k : A -> hook B) p :
  (hook_try (inl a) ≫= k) p = k a p.
Proof. reflexivity. Qed.

Lemma bind_try_inr {A B : Type} e (k : A -> hook B) p :
  (hook_try (inr e) ≫= k) p = (p, inr (hook_error e)).
Proof. reflexivity. Qed.

Lemma bind_Printf {B : Type} text (k : unit -> hook B) p :
  (Printf text ≫= k) p = k tt (mkProcess (receiver p) (stdout p +:+ text)).
Proof. reflexivity. Qed.

Lemma bind_compute {B : Type} v sch (k : string -> hook B) p :
  (compute X v sch ≫= k) p
  = match computeProperty X (receiver p) v EmptyString sch with
    | Panics msg => (p, inr (hook_panic msg))
    | Returns (_, _, Some e) => (p, inr (hook_error e))
    | Returns (text, _, None) => k text p
    end.
Proof.
  unfold mbind, hook_bind, compute.
  by destruct (computeProperty X (receiver p) v EmptyString sch)
    as [[[text t] [e |]] | msg].
Qed.

Lemma Join_cons (a : string) (l : list string) (sep : string) :
  Join (a :: l) sep = a +:+ concat_lines ((fun x => sep +:+ x) <$> l).
Proof.
  revert a. induction l as [| b l IH]; intros a.
  - simpl. by rewrite String_append_nil_r.
  - change (Join (a :: b :: l) sep) with (a +:+ sep +:+ Join (b :: l) sep).
    rewrite IH. simpl. by rewrite String_append_assoc.
Qed.

(** The loop over the explicit dependencies, past the first one: it
    goes on exactly when every node is a resource, and has then written
    the names, each behind a comma; otherwise the type assertion
    panics. *)
Lemma dependsOn_spec ns : forall i p,
  (0 < i)%nat ->
  (Forall is_resourceNode ns ->
     dependsOn gr i ns p
     = (mkProcess (receiver p)
          (stdout p +:+ concat_lines ((fun n => ", " +:+ dep_name gr n) <$> ns)),
        inl tt))
  /\ (~ Forall is_resourceNode ns ->
        exists p' msg, dependsOn gr i ns p = (p', inr (hook_panic msg))).
Proof.
  induction ns as [| n ns IH]; intros i [g out] Hi.
  - split; [| intros H; destruct H; constructor].
    intros _. simpl. by rewrite String_append_nil_r.
  - cbn [dependsOn]. apply Nat.ltb_lt in Hi as Hi'. rewrite Hi'.
    destruct n as [v | l | r | o | q];
      try (split; [intros H; by inversion H | intros _; eexists _, _; reflexivity]).
    unfold mbind, hook_bind, Printf. simpl.
    destruct (IH (S i) (mkProcess g ((out +:+ ", ") +:+ dep_name gr (ResourceNode r)))
                ltac:(lia)) as [IH1 IH2].
    split.
    + intros H. inversion H as [| ? ? _ Hns]; subst. simpl in IH1.
      rewrite (IH1 Hns). simpl. by rewrite !String_append_assoc.
    + intros H. apply IH2. intros Hns. apply H. by constructor.
Qed.

Lemma is_resourceNode_dec (ns : list node) :
  Forall is_resourceNode ns \/ ~ Forall is_resourceNode ns.
Proof.
  induction ns as [| n ns [IH | IH]].
  - left. constructor.
  - destruct n; try (right; intros H; by inversion H). left. by constructor.
  - right. intros H. inversion H. by apply IH.
Qed.

(** The clause for the explicit dependencies. *)
Lemma dependsOn_clause_spec ns p :
  (Forall is_resourceNode ns ->
     explicit_dependencies gr ns p
     = (mkProcess (receiver p) (stdout p +:+ dependsOn_clause gr ns), inl tt))
  /\ (~ Forall is_resourceNode ns ->
        exists p' msg, explicit_dependencies gr ns p = (p', inr (hook_panic msg))).
Proof.
  unfold explicit_dependencies. destruct p as [g out]. destruct ns as [| n ns].
  - split; [| intros H; destruct H; constructor].
    intros _. simpl. by rewrite String_append_nil_r.
  - unfold dependsOn_clause. rewrite fmap_cons, Join_cons.
    cbn [dependsOn]. change (0 <? 0)%nat with false.
    destruct n as [v | l | r | o | q];
      try (split; [intros H; by inversion H | intros _; eexists _, _; reflexivity]).
    unfold mbind, hook_bind, Printf. simpl.
    destruct (dependsOn_spec ns 1
                (mkProcess g ((out +:+ ", {dependsOn: [")
                                +:+ dep_name gr (ResourceNode r))) ltac:(lia))
      as [H1 H2].
    split.
    + intros H. inversion H as [| ? ? _ Hns]; subst. simpl in H1.
      rewrite (H1 Hns). simpl.
      rewrite <- !list_fmap_compose. unfold compose.
      by rewrite !String_append_assoc.
    + intros H. destruct H2 as (p' & msg & E).
      * intros Hns. apply H. by constructor.
      * simpl in E. rewrite E. by eexists _, _.
Qed.

(** The text of the statement [generateResource] writes. *)
Lemma generateResource_cases (r : ptr) (p : process) :
  let rn := resource_at gr r in
  match IndexRune (r_Type rn) "_"%char with
  | None =>
      nodeGenerator_generateResource X gr r p
      = (p, inr (hook_error (ErrNew "NYI: single-resource providers")))
  | Some underscore =>
      match resource_schemas rn (r_Type rn) with
      | Panics msg =>
          nodeGenerator_generateResource X gr r p = (p, inr (hook_panic msg))
      | Returns sch =>
          match computeProperty X (receiver p) (properties rn) EmptyString sch with
          | Panics msg =>
              nodeGenerator_generateResource X gr r p = (p, inr (hook_panic msg))
          | Returns (_, _, Some e) =>
              nodeGenerator_generateResource X gr r p = (p, inr (hook_error e))
          | Returns (inputs, _, None) =>
              match TerraformToPulumiName X
                      (slice_from (r_Type rn) (underscore + 1)) None true with
              | Panics msg =>
                  nodeGenerator_generateResource X gr r p = (p, inr (hook_panic msg))
              | Returns typeName =>
                  match constructor_path (resInfo_of rn) typeName with
                  | inr e =>
                      nodeGenerator_generateResource X gr r p
                      = (p, inr (hook_error e))
                  | inl (module, tn) =>
                      (Forall is_resourceNode (explicitDeps rn) ->
                         nodeGenerator_generateResource X gr r p
                         = (mkProcess (receiver p)
                              (stdout p
                                 +:+ ("const " +:+ resName (r_Type rn) (r_Name rn)
                                        +:+ " = new "
                                        +:+ slice_to (r_Type rn) underscore
                                        +:+ module +:+ "." +:+ tn
                                        +:+ "(" +:+ quoted (r_Name rn) +:+ ", "
                                        +:+ inputs)
                                 +:+ dependsOn_clause gr (explicitDeps rn)
                                 +:+ (");" +:+ nl)),
                            inl tt))
                      /\ (~ Forall is_resourceNode (explicitDeps rn) ->
                            exists p' msg,
                              nodeGenerator_generateResource X gr r p
                              = (p', inr (hook_panic msg)))
                  end
              end
          end
      end
  end.
Proof.
  intros rn. unfold nodeGenerator_generateResource. fold rn.
  destruct (IndexRune (r_Type rn) "_"%char) as [underscore |]; [| reflexivity].
  destruct (resource_schemas rn (r_Type rn)) as [sch | msg];
    [rewrite bind_call_Returns | by rewrite bind_call_Panics].
  rewrite bind_compute.
  destruct (computeProperty X (receiver p) (properties rn) EmptyString sch)
    as [[[inputs t] [e |]] | msg]; try reflexivity.
  destruct (TerraformToPulumiName X _ None true) as [typeName | msg];
    [rewrite bind_call_Returns | by rewrite bind_call_Panics].
  destruct (constructor_path (resInfo_of rn) typeName) as [[module tn] | e];
    [rewrite bind_try_inl | by rewrite bind_try_inr].
  rewrite bind_Printf.
  destruct (dependsOn_clause_spec (explicitDeps rn)
              (mkProcess (receiver p)
                 (stdout p +:+ ("const " +:+ resName (r_Type rn) (r_Name rn)
                                  +:+ " = new " +:+ slice_to (r_Type rn) underscore
                                  +:+ module +:+ "." +:+ tn
                                  +:+ "(" +:+ quoted (r_Name rn) +:+ ", " +:+ inputs))))
    as [H1 H2].
  split.
  - intros Hns. rewrite (hook_bind_inl _ _ _ _ _ (H1 Hns)). unfold Printf. simpl.
    by rewrite !String_append_assoc.
  - intros Hns. destruct (H2 Hns) as (p' & msg & E).
    rewrite (hook_bind_inr _ _ _ _ _ E). by eexists _, _.
Qed.

End GenerateResource.

Lemma substring_all (s : string) : substring 0 (String.length s) s = s.
Proof. induction s as [| c s IH]; simpl; congruence. Qed.

(** The text before the first occurrence of a character holds none, and
    with the character and the text after it, it makes up the text. *)
Lemma IndexRune_split (s : string) (c : ascii) : forall i,
  IndexRune s c = Some i ->
  s = slice_to s i +:+ String c (slice_from s (i + 1))
  /\ IndexRune (slice_to s i) c = None.
Proof.
  unfold slice_to, slice_from. intros i. rewrite Nat.add_1_r. revert i.
  induction s as [| c' s IH]; intros i; simpl; [discriminate |].
  destruct (Ascii.eqb_spec c' c) as [-> | Hne].
  - intros [= <-]. simpl. rewrite Nat.sub_0_r, substring_all. by split.
  - destruct (IndexRune s c) as [j |] eqn:E; simpl; [| discriminate].
    intros [= <-]. destruct (IH j eq_refl) as [IH1 IH2]. simpl. split.
    + change (String c' s
              = String c' (substring 0 j s
                             +:+ String c (substring (S j) (String.length s - S j) s))).
      by rewrite <- IH1.
    + apply Ascii.eqb_neq in Hne. by rewrite Hne, IH2.
Qed.

(** X16: a resource whose emission returns an error leaves no trace: the
    errors of [generateResource] are all returned before anything is
    written, so the output and the generator are as they were. *)
Theorem generateResource_error_atomic (X : Externals) (gr : graph) (r : ptr)
    (p p' : process) (e : error) :
  generateResource (generator := nodeGenerator_generator X) gr r p
  = (p', hook_error e) ->
  p' = p.
Proof.
  simpl. unfold run_hook.
  pose proof (generateResource_cases X gr r p) as H. cbv zeta in H.
  destruct (IndexRune _ _) as [underscore |]; [| rewrite H; by intros [= <-]].
  destruct (resource_schemas _ _) as [sch | msg]; [| rewrite H; by intros [= <-]].
  destruct (computeProperty X _ _ _ sch) as [[[inputs t] [e' |]] | msg];
    try (rewrite H; by intros [= <-]).
  destruct (TerraformToPulumiName X _ None true) as [typeName | msg];
    [| rewrite H; by intros [= <-]].
  destruct (constructor_path _ typeName) as [[module tn] | e'];
    [| rewrite H; by intros [= <-]].
  destruct H as [H1 H2].
  destruct (is_resourceNode_dec (explicitDeps (resource_at gr r))) as [Hns | Hns].
  - rewrite (H1 Hns). discriminate.
  - destruct (H2 Hns) as (p1 & msg & E). rewrite E. discriminate.
Qed.

Lemma generateResource_error_atomic_witness :
  (generateResource (generator := nodeGenerator_generator example_externals)
     example_graph_single 0 example_process).1
  = example_process.
Proof.
  apply (generateResource_error_atomic example_externals example_graph_single 0
           example_process _ (ErrNew "NYI: single-resource providers")).
  reflexivity.
Defined.

(** X17: [generateResource] succeeds exactly when the type of the
    resource has an underscore, its schemas are found, its properties
    serialize, the name of the type translates, the token of the
    resource, when there is one, has three parts with a slash in the
    second, and every explicit dependency is a resource.  It then writes
    one statement: the binding [resName] gives, the constructor (the
    text of the type before its first underscore, the module, the type
    name), the name of the resource quoted, the properties, and the
    names of the explicit dependencies, separated by commas, when there
    are any.  The text before the underscore, which holds none, the
    underscore and the text after it make up the type. *)
Theorem generateResource_statement (X : Externals) (gr : graph) (r : ptr)
    (p p' : process) :
  generateResource (generator := nodeGenerator_generator X) gr r p = (p', hook_nil)
  <-> exists underscore sch inputs t typeName module tn,
        IndexRune (r_Type (resource_at gr r)) "_"%char = Some underscore
        /\ r_Type (resource_at gr r)
           = slice_to (r_Type (resource_at gr r)) underscore +:+ "_"
               +:+ slice_from (r_Type (resource_at gr r)) (underscore + 1)
        /\ IndexRune (slice_to (r_Type (resource_at gr r)) underscore) "_"%char = None
        /\ resource_schemas (resource_at gr r) (r_Type (resource_at gr r))
           = Returns sch
        /\ computeProperty X (receiver p) (properties (resource_at gr r))
             EmptyString sch
           = Returns (inputs, t, None)
        /\ TerraformToPulumiName X
             (slice_from (r_Type (resource_at gr r)) (underscore + 1)) None true
           = Returns typeName
        /\ constructor_path (resInfo_of (resource_at gr r)) typeName
           = inl (module, tn)
        /\ Forall is_resourceNode (explicitDeps (resource_at gr r))
        /\ p' = mkProcess (receiver p)
                  (stdout p
                     +:+ ("const "
                            +:+ resName (r_Type (resource_at gr r))
                                        (r_Name (resource_at gr r))
                            +:+ " = new "
                            +:+ slice_to (r_Type (resource_at gr r)) underscore
                            +:+ module +:+ "." +:+ tn
                            +:+ "(" +:+ quoted (r_Name (resource_at gr r)) +:+ ", "
                            +:+ inputs)
                     +:+ dependsOn_clause gr (explicitDeps (resource_at gr r))
                     +:+ (");" +:+ nl)).
Proof.
  simpl. unfold run_hook.
  pose proof (generateResource_cases X gr r p) as H. cbv zeta in H.
  split.
  - destruct (IndexRune _ _) as [underscore |] eqn:Eu; [| rewrite H; discriminate].
    destruct (resource_schemas _ _) as [sch | msg] eqn:Es; [| rewrite H; discriminate].
    destruct (computeProperty X _ _ _ sch) as [[[inputs t] [e' |]] | msg] eqn:Ec;
      try (rewrite H; discriminate).
    destruct (TerraformToPulumiName X _ None true) as [typeName | msg] eqn:Et;
      [| rewrite H; discriminate].
    destruct (constructor_path _ typeName) as [[module tn] | e'] eqn:Ep;
      [| rewrite H; discriminate].
    destruct H as [H1 H2].
    destruct (is_resourceNode_dec (explicitDeps (resource_at gr r))) as [Hns | Hns].
    + rewrite (H1 Hns). intros [= <-].
      destruct (IndexRune_split _ _ _ Eu) as [Hsplit Hnone].
      exists underscore, sch, inputs, t, typeName, module, tn.
      by repeat split.
    + destruct (H2 Hns) as (p1 & msg & E). rewrite E. discriminate.
  - intros (underscore & sch & inputs & t & typeName & module & tn
            & Eu & _ & _ & Es & Ec & Et & Ep & Hns & ->).
    rewrite Eu, Es, Ec, Et, Ep in H. destruct H as [H1 _]. by rewrite (H1 Hns).
Qed.

Lemma generateResource_statement_witness :
  generateResource (generator := nodeGenerator_generator example_externals)
    example_graph 0 (mkProcess example_nodeGenerator EmptyString)
  = (mkProcess example_nodeGenerator
       ("const aws_instance_web = new aws.ec2.Instance(" +:+ quoted "web" +:+ ", {"
          +:+ nl +:+ "    imageId: region," +:+ nl +:+ "});" +:+ nl),
     hook_nil).
Proof.
  apply (generateResource_statement example_externals example_graph 0
           (mkProcess example_nodeGenerator EmptyString)).
  exists 3, example_resource_schemas,
    ("{" +:+ nl +:+ "    imageId: region," +:+ nl +:+ "}"), ast.TypeMap,
    "Instance", ".ec2", "Instance".
  repeat split; try reflexivity. constructor.
Defined.

(** X18: the preamble never fails: it stashes the graph in the
    generator, keeps the project name, and writes the import of the
    Pulumi package, one import per provider of the graph, in order, the
    import of the file system module and an empty line; the graph the
    generator held before, if any, is replaced. *)
Theorem generatePreamble_imports (X : Externals) (gr : graph) (p : process) :
  generatePreamble (generator := nodeGenerator_generator X) gr p
  = (mkProcess (mkNodeGenerator (projectName (receiver p)) (Some gr))
       (stdout p
          +:+ ("import * as pulumi from " +:+ quoted "@pulumi/pulumi" +:+ ";" +:+ nl)
          +:+ concat_lines (import_line gr <$> providers gr)
          +:+ ("import * as fs from " +:+ quoted "fs" +:+ ";")
          +:+ (nl +:+ nl)),
     hook_nil).
Proof.
  simpl. unfold run_hook, nodeGenerator_generatePreamble.
  unfold mbind at 1, hook_bind at 1. rewrite bind_Printf.
  erewrite hook_bind_inl by apply import_lines.
  rewrite bind_Printf. unfold Printf. simpl.
  by rewrite !String_append_assoc.
Qed.

(** Whatever the preamble does, the generator holds the graph after
    it. *)
Lemma generatePreamble_stashes (X : Externals) (gr : graph) (p p' : process) hr :
  generatePreamble (generator := nodeGenerator_generator X) gr p = (p', hr) ->
  appends p p' /\ graph_ (receiver p') = Some gr.
Proof.
  simpl. unfold run_hook, nodeGenerator_generatePreamble.
  unfold mbind at 1, hook_bind at 1.
  set (p0 := mkProcess (mkNodeGenerator (projectName (receiver p)) (Some gr))
               (stdout p)).
  match goal with
  | |- context [ mbind ?k ?c p0 ] => destruct (mbind k c p0) as [p1 res] eqn:E
  end.
  intros Hp'.
  assert (Hw : writes p0 p1).
  { revert E. apply hook_rel_bind; [apply _ | apply Printf_writes | intros _].
    apply hook_rel_bind; [apply _ | | intros _].
    { apply hook_rel_range; [apply _ .. |]. intros q. apply Printf_writes. }
    apply hook_rel_bind; [apply _ | apply Printf_writes | intros _].
    apply Printf_writes. }
  assert (p' = p1) as -> by (destruct res; by simplify_eq).
  destruct Hw as [Hr [text Ht]]. split; [split |].
  - exists text. by rewrite Ht.
  - by rewrite Hr.
  - by rewrite Hr.
Qed.

Section NodeJSRun.

Variable X : Externals.
Variable gr : graph.

Lemma call_keeps_graph ev (c : hook unit) :
  hook_rel writes c ->
  step_rel (keeps_graph gr) (call ev (run_hook c)).
Proof.
  intros Hc s s' r. unfold call.
  destruct (run_hook c (world s)) as [w hr] eqn:E.
  pose proof (hook_rel_run writes c _ _ _ Hc E) as Hw.
  intros H.
  assert (s' = mkEmitter w (log s ++ [ev]) (done s)) as ->
    by (destruct hr; by simplify_eq).
  split; [by apply writes_appends |]. simpl. destruct Hw as [-> _]. done.
Qed.

Lemma mark_keeps_graph m : step_rel (keeps_graph gr) (mark_done (W := process) m).
Proof. intros s s' r [= <- _]. split; [reflexivity | done]. Qed.

Lemma emission_keeps_graph fuel :
  step_rel (keeps_graph gr)
    (emit_bind (generate_locals (lang := nodeGenerator_generator X) gr fuel
                  (locals gr) []) (fun todo =>
     emit_bind (generate_resources (lang := nodeGenerator_generator X) gr fuel
                  (resources gr).*2 todo) (fun todo =>
     for_each (generateNode (lang := nodeGenerator_generator X) gr fuel) todo))).
Proof.
  apply (step_rel_emission (lang := nodeGenerator_generator X)); try apply _.
  - intros l. apply call_keeps_graph. apply hook_rel_return, _.
  - intros r. apply call_keeps_graph, generateResource_writes.
  - intros m _. apply mark_keeps_graph.
Qed.

End NodeJSRun.

(** X19: in every run of [generate] with the NodeJS generator, however
    it ends, the output is what it was with some text behind it, and the
    project name is kept; and either no hook was called and the process
    is as it was, or the generator holds the graph. *)
Theorem nodejs_run_appends (X : Externals) (gr : graph) (fuel : nat)
    (p : process) (s' : emitter process) (r : run unit) :
  generate (lang := nodeGenerator_generator X) gr fuel (start p) = (s', r) ->
  appends p (world s')
  /\ ((log s' = [] /\ world s' = p)
      \/ graph_ (receiver (world s')) = Some gr).
Proof.
  intros Hrun.
  assert (Hpre : forall s s1 r1,
            call (W := process) EvPreamble
              (generatePreamble (generator := nodeGenerator_generator X) gr) s
            = (s1, r1) ->
            appends (world s) (world s1)
            /\ graph_ (receiver (world s1)) = Some gr).
  { intros s s1 r1. unfold call.
    destruct (generatePreamble gr (world s)) as [w hr] eqn:E.
    apply generatePreamble_stashes in E. intros H.
    assert (world s1 = w) as -> by (destruct hr; by simplify_eq). exact E. }
  assert (Hrest : step_rel (keeps_graph gr)
            (emit_bind (call (W := process) (EvVariables (variables gr).*2)
                          (generateVariables (generator := nodeGenerator_generator X)
                             gr (variables gr).*2)) (fun _ =>
             emit_bind (mark_variables gr) (fun _ =>
             emit_bind (generate_locals (lang := nodeGenerator_generator X) gr fuel
                          (locals gr) []) (fun todo =>
             emit_bind (generate_resources (lang := nodeGenerator_generator X) gr
                          fuel (resources gr).*2 todo) (fun todo =>
             for_each (generateNode (lang := nodeGenerator_generator X) gr fuel)
               todo)))))).
  { apply step_rel_bind; [apply _ | | intros _].
    { apply call_keeps_graph, generateVariables_writes. }
    apply step_rel_bind; [apply _ | | intros _; apply emission_keeps_graph].
    intros s s1 r1 [= <- _]. split; [reflexivity | done]. }
  assert (Hout : step_rel (keeps_graph gr)
            (emit_bind (check_outputs (W := process) gr) (fun _ =>
             call (EvOutputs (outputs gr))
               (generateOutputs (generator := nodeGenerator_generator X)
                  gr (outputs gr))))).
  { apply step_rel_bind; [apply _ | | intros _].
    - intros s s1 r1 ->%check_outputs_any. reflexivity.
    - apply call_keeps_graph, generateOutputs_writes. }
  unfold generate, generate_nodes in Hrun.
  assert (Hnodes : forall s1 r1,
            (emit_bind (check_providers (W := process) gr) (fun _ =>
             emit_bind (call EvPreamble
                          (generatePreamble (generator := nodeGenerator_generator X)
                             gr)) (fun _ =>
             emit_bind (call (W := process) (EvVariables (variables gr).*2)
                          (generateVariables (generator := nodeGenerator_generator X)
                             gr (variables gr).*2)) (fun _ =>
             emit_bind (mark_variables gr) (fun _ =>
             emit_bind (generate_locals (lang := nodeGenerator_generator X) gr fuel
                          (locals gr) []) (fun todo =>
             emit_bind (generate_resources (lang := nodeGenerator_generator X) gr
                          fuel (resources gr).*2 todo) (fun todo =>
             for_each (generateNode (lang := nodeGenerator_generator X) gr fuel)
               todo))))))) (start p) = (s1, r1) ->
            appends p (world s1)
            /\ ((s1 = start p /\ forall a, r1 <> Done a)
                \/ graph_ (receiver (world s1)) = Some gr)).
  { intros s1 r1 H.
    apply emit_bind_inv in H as [(s2 & [] & Hprov & H) | (r2 & Hprov & Hr2 & Hr1)];
      cycle 1.
    { apply check_providers_any in Hprov as ->. split; [reflexivity |]. by left. }
    apply check_providers_any in Hprov as ->.
    apply emit_bind_inv in H as [(s3 & [] & Hp & H) | (r3 & Hp & _ & _)]; cycle 1.
    { destruct (Hpre _ _ _ Hp) as [Ha Hg]. split; [exact Ha | by right]. }
    destruct (Hpre _ _ _ Hp) as [Ha Hg].
    destruct (Hrest _ _ _ H) as [Ha' Hg'].
    split; [by etransitivity |]. right. by apply Hg'. }
  apply emit_bind_inv in Hrun as [(s1 & [] & Hn & Hrun) | (r1 & Hn & Hr1 & _)].
  - destruct (Hnodes _ _ Hn) as [Ha [[_ Hne] | Hg]]; [by destruct (Hne tt) |].
    destruct (Hout _ _ _ Hrun) as [Ha' Hg'].
    split; [by etransitivity |]. right. by apply Hg'.
  - destruct (Hnodes _ _ Hn) as [Ha [[-> _] | Hg]].
    + split; [reflexivity |]. by left.
    + split; [exact Ha | by right].
Qed.

Lemma nodejs_run_appends_witness :
  appends example_process
    (world (generate (lang := nodeGenerator_generator example_externals)
              example_graph 3 (start example_process)).1)
  /\ graph_ (receiver
               (world (generate (lang := nodeGenerator_generator example_externals)
                         example_graph 3 (start example_process)).1))
     = Some example_graph.
Proof.
  destruct (nodejs_run_appends example_externals example_graph 3 example_process
              (generate (lang := nodeGenerator_generator example_externals)
                 example_graph 3 (start example_process)).1
              (generate (lang := nodeGenerator_generator example_externals)
                 example_graph 3 (start example_process)).2)
    as [Ha Hg].
  - by destruct (generate _ _ _).
  - split; [exact Ha |]. reflexivity.
Defined.

Section Declarations.

Variable X : Externals.
Variable gr : graph.

(** A loop each of whose rounds writes a line. *)
Lemma hook_range_lines {A : Type} (body : A -> hook unit) (line : A -> string)
    (g : nodeGenerator) (xs : list A) :
  (forall x out, x ∈ xs ->
     body x (mkProcess g out) = (mkProcess g (out +:+ line x), inl tt)) ->
  forall out,
    hook_range body xs (mkProcess g out)
    = (mkProcess g (out +:+ concat_lines (line <$> xs)), inl tt).
Proof.
  induction xs as [| x xs IH]; intros Hbody out.
  - simpl. by rewrite String_append_nil_r.
  - cbn [hook_range]. erewrite hook_bind_inl by (apply Hbody; by left).
    rewrite IH by (intros y out' Hy; apply Hbody; by right).
    simpl. by rewrite String_append_assoc.
Qed.

End Declarations.

(** X20: when the name of every variable translates and every default
    serializes, [generateVariables] succeeds, and what it writes is:
    nothing when there is no variable; otherwise the line that creates
    the configuration object of the project, one declaration per
    variable, in order, and an empty line.  A variable without default
    is declared as required, a variable with a default as the
    configured value or else the default. *)
Theorem generateVariables_declarations (X : Externals) (gr : graph)
    (vs : list ptr) (names defs : ptr -> string) (p : process) :
  (forall v, v ∈ vs ->
     TerraformToPulumiName X (v_Name (variable_at gr v)) None false
     = Returns (names v)) ->
  (forall v, v ∈ vs -> defaultValue (variable_at gr v) <> VNil ->
     exists t, computeProperty X (receiver p) (defaultValue (variable_at gr v))
                 EmptyString schemas_zero
               = Returns (defs v, t, None)) ->
  generateVariables (generator := nodeGenerator_generator X) gr vs p
  = (mkProcess (receiver p)
       (stdout p
          +:+ match vs with
              | [] => EmptyString
              | _ =>
                  ("const config = new pulumi.Config("
                     +:+ quoted (projectName (receiver p)) +:+ ")" +:+ nl)
                  +:+ concat_lines
                        ((fun v => declaration gr v (names v) (defs v)) <$> vs)
                  +:+ nl
              end),
     hook_nil).
Proof.
  intros Hnames Hdefs. simpl. unfold run_hook, nodeGenerator_generateVariables.
  destruct p as [g out]. destruct vs as [| v0 vs0].
  - simpl. by rewrite String_append_nil_r.
  - remember (v0 :: vs0) as vs eqn:Evs. simpl in Hdefs.
    unfold mbind at 1, hook_bind at 1, Printf at 1. cbn [receiver stdout].
    erewrite hook_bind_inl; cycle 1.
    { apply (hook_range_lines (declare_variable X gr)
               (fun v => declaration gr v (names v) (defs v))).
      intros v out' Hv. unfold declare_variable.
      rewrite (Hnames v Hv), bind_call_Returns, bind_Printf.
      cbn [receiver stdout]. unfold declaration.
      destruct (defaultValue (variable_at gr v)) eqn:Ed;
        try (destruct (Hdefs v Hv) as [t Ht]; [by rewrite Ed |];
             rewrite Ed in Ht;
             erewrite hook_bind_inl
               by (erewrite hook_bind_inl
                     by (unfold compute; cbn [receiver]; rewrite Ht; reflexivity);
                   reflexivity);
             unfold Printf; cbn [receiver stdout];
             by rewrite !String_append_assoc).
      erewrite hook_bind_inl by reflexivity.
      unfold Printf. cbn [receiver stdout]. by rewrite !String_append_assoc. }
    unfold Printf. cbn [receiver stdout]. by rewrite !String_append_assoc.
Qed.

Lemma generateVariables_declarations_witness :
  generateVariables (generator := nodeGenerator_generator example_externals)
    example_graph [0; 1] example_process
  = (mkProcess example_generator
       ("const config = new pulumi.Config(" +:+ quoted "project" +:+ ")" +:+ nl
          +:+ "const region = config.require(" +:+ quoted "region" +:+ ");" +:+ nl
          +:+ "const size = config.get(" +:+ quoted "size" +:+ ") || 5;" +:+ nl
          +:+ nl),
     hook_nil).
Proof.
  apply (generateVariables_declarations example_externals example_graph [0; 1]
           (fun v => match v with 0 => "region" | _ => "size" end)
           (fun _ => "5") example_process).
  - intros v [-> | Hv]%elem_of_cons; [reflexivity |].
    apply list_elem_of_singleton in Hv as ->. reflexivity.
  - intros v [-> | Hv]%elem_of_cons Hd; [by destruct Hd |].
    apply list_elem_of_singleton in Hv as ->. by exists ast.TypeFloat.
Defined.

(** X21: when every output serializes and the name of every output
    translates, [generateOutputs] succeeds, and what it writes is:
    nothing when there is no output; otherwise an empty line and one
    export per output, in order. *)
Theorem generateOutputs_exports (X : Externals) (gr : graph)
    (os : list ptr) (names texts : ptr -> string) (p : process) :
  (forall o, o ∈ os ->
     exists t, computeProperty X (receiver p) (o_value (output_at gr o))
                 EmptyString schemas_zero
               = Returns (texts o, t, None)) ->
  (forall o, o ∈ os ->
     tsName X (o_Name (output_at gr o)) None None false = Returns (names o)) ->
  generateOutputs (generator := nodeGenerator_generator X) gr os p
  = (mkProcess (receiver p)
       (stdout p
          +:+ match os with
              | [] => EmptyString
              | _ => nl +:+ concat_lines
                              ((fun o => export_line (names o) (texts o)) <$> os)
              end),
     hook_nil).
Proof.
  intros Htexts Hnames. simpl. unfold run_hook, nodeGenerator_generateOutputs.
  destruct p as [g out]. destruct os as [| o0 os0].
  - simpl. by rewrite String_append_nil_r.
  - remember (o0 :: os0) as os eqn:Eos. simpl in Htexts.
    rewrite bind_Printf. cbn [receiver stdout].
    rewrite (hook_range_lines (export_output X gr)
               (fun o => export_line (names o) (texts o))).
    + by rewrite !String_append_assoc.
    + intros o out' Ho. unfold export_output.
      destruct (Htexts o Ho) as [t Ht].
      rewrite bind_compute. cbn [receiver]. rewrite Ht.
      rewrite (Hnames o Ho), bind_call_Returns. reflexivity.
Qed.

Lemma generateOutputs_exports_witness :
  generateOutputs (generator := nodeGenerator_generator example_externals)
    example_graph [0] (mkProcess example_nodeGenerator EmptyString)
  = (mkProcess example_nodeGenerator
       (nl +:+ "export const dbAmi = aws_instance_db.ami;" +:+ nl),
     hook_nil).
Proof.
  apply (generateOutputs_exports example_externals example_graph [0]
           (fun _ => "dbAmi") (fun _ => "aws_instance_db.ami")
           (mkProcess example_nodeGenerator EmptyString)).
  - intros o Ho. by exists ast.TypeString.
  - intros o Ho. reflexivity.
Defined.
